(** * Transportation problem solver (OR.py): a shallow embedding

    The class [TransportationSolver] of [OR.py] balances a transportation
    problem with a dummy source or destination and builds an initial
    feasible allocation by one of three methods: North-West Corner,
    Least Cost and Vogel's Approximation.

    Conventions of the embedding.
    - Python [int] is [Z]; indices are [Z] as well, and list subscripting
      follows Python: a negative index counts from the end, an index out
      of range raises [IndexError].
    - Unit costs are declared [float] in the source.  A cost is modelled
      by the rational [Q] it denotes, and the conversion [int(c)] as
      truncation towards zero.  Float arithmetic is the exact operation
      followed by rounding to the nearest binary64 float, ties to even
      ([round64]), a result of magnitude [2 ^ 1024] or more being an
      infinity: so are modelled the difference of two costs in the
      penalties of Vogel's method and the total of the cost equation,
      which the source accumulates in a float.  A whole number of
      magnitude at most [2 ^ 53] is its own float, so that on costs given
      as small Python ints, which the source subtracts exactly, the model
      agrees as well.
    - The cost evaluator raises [OverflowError] when a product
      [int(cost) * quantity] is too large for a float and when the total
      it converts with [int(total)] is infinite.  Its result is an
      [outcome]: what it printed, or [OverflowError].  A solve keeps
      that outcome in the field [equation] of its [solution]: the result
      [Ok sol] of a solve method says that its loop ran to the end with
      the matrix [final_alloc sol] and the steps [steps sol]; the source
      then returns that matrix unless [equation sol] is
      [OverflowError].
    - A penalty can only be infinite when two costs of opposite sign
      differ by [2 ^ 1024] or more.  The source then fails when it prints
      the greatest penalty ([int(max_pen)]); the embedding does not
      model that line of narration and carries the infinity on.
    - A [while] loop is a [Fixpoint] on a fuel argument; running out of
      fuel is the result [OutOfFuel], distinct from an exception.
    - The printing methods are modelled by what they hand to [tabulate]
      (headers and rows), not by the rendered text.  A solve does not
      run them: what it prints after each allocation (the step number,
      the cell, the quantity, the allocation matrix and the remaining
      supply and demand) is kept as a [step_record] in the order of
      printing.
    - The source does not check its input.  The statements about the
      solve methods assume what its caller guarantees ([wf]): at least
      one source and one destination, and a cost matrix of the shape of
      supply and demand. *)

From Stdlib Require Import ZArith QArith List Bool Lia Lqa Permutation.
From Stdlib Require String DecimalString.
Import ListNotations.
Import String.StringSyntax.
Delimit Scope string_scope with string.
Open Scope Z_scope.

(** ** Results of fallible code *)

Inductive res (A : Type) : Type :=
| Ok (a : A)
| IndexError
| OutOfFuel.

Arguments Ok {A} a.
Arguments IndexError {A}.
Arguments OutOfFuel {A}.

Definition bind {A B : Type} (r : res A) (k : A -> res B) : res B :=
  match r with
  | Ok a => k a
  | IndexError => IndexError
  | OutOfFuel => OutOfFuel
  end.

Notation "x <- e ;; k" := (bind e (fun x => k))
  (at level 61, e at next level, right associativity).
Notation "' pat <- e ;; k" := (bind e (fun x => match x with pat => k end))
  (at level 61, pat pattern, e at next level, right associativity).

(** ** Python lists *)

Definition len {A : Type} (l : list A) : Z := Z.of_nat (length l).

(** The position a subscript denotes, if any. *)
Definition norm_index {A : Type} (l : list A) (i : Z) : option nat :=
  if (0 <=? i) && (i <? len l) then Some (Z.to_nat i)
  else if (- len l <=? i) && (i <? 0) then Some (Z.to_nat (len l + i))
  else None.

(** [l[i]] *)
Definition getitem {A : Type} (l : list A) (i : Z) : res A :=
  match norm_index l i with
  | Some k =>
      match nth_error l k with
      | Some a => Ok a
      | None => IndexError
      end
  | None => IndexError
  end.

Fixpoint replace_nth {A : Type} (k : nat) (l : list A) (v : A) : list A :=
  match l, k with
  | [], _ => []
  | _ :: t, O => v :: t
  | h :: t, S k' => h :: replace_nth k' t v
  end.

(** [l[i] = v] *)
Definition setitem {A : Type} (l : list A) (i : Z) (v : A) : res (list A) :=
  match norm_index l i with
  | Some k => Ok (replace_nth k l v)
  | None => IndexError
  end.

(** [range(k)] *)
Definition range (k : Z) : list Z := map Z.of_nat (seq 0 (Z.to_nat k)).

(** [[v] * k] *)
Definition times {A : Type} (v : A) (k : Z) : list A := repeat v (Z.to_nat k).

(** [sum(l)] *)
Definition zsum (l : list Z) : Z := fold_left Z.add l 0.

(** [for i in l: st = body(i, st)] *)
Fixpoint for_each {S : Type} (l : list Z) (body : Z -> S -> res S) (st : S)
  : res S :=
  match l with
  | [] => Ok st
  | i :: l' => st' <- body i st ;; for_each l' body st'
  end.

(** [any(f(i) for i in l)]: stops at the first true element. *)
Fixpoint py_any (l : list Z) (f : Z -> res bool) : res bool :=
  match l with
  | [] => Ok false
  | i :: l' => b <- f i ;; if b then Ok true else py_any l' f
  end.

(** [while cond(st): st = body(st)], where the body may [break] (it then
    returns [None]).  The test is evaluated before fuel is asked for, so a
    loop whose test is false needs none. *)
Fixpoint while {S : Type} (fuel : nat) (cond : S -> res bool)
  (body : S -> res (option S)) (st : S) {struct fuel} : res S :=
  b <- cond st ;;
  if b then
    match fuel with
    | O => OutOfFuel
    | Datatypes.S fuel' =>
        r <- body st ;;
        match r with
        | Some st' => while fuel' cond body st'
        | None => Ok st
        end
    end
  else Ok st.

(** ** The solver object *)

Inductive dummy : Type :=
| dummy_supply   (* "supply" *)
| dummy_demand.  (* "demand" *)

Record TransportationSolver : Type := mkSolver {
  cost_matrix : list (list Q);
  supply : list Z;
  demand : list Z;
  m : Z;
  n : Z;
  total_supply : Z;
  total_demand : Z;
  dummy_type : option dummy
}.

(** [_balance_problem]: adds the dummy destination or source. *)
Definition _balance_problem (p : TransportationSolver) : TransportationSolver :=
  if total_demand p <? total_supply p then
    let diff := total_supply p - total_demand p in
    {| cost_matrix := map (fun row => row ++ [0%Q]) (cost_matrix p);
       supply := supply p;
       demand := demand p ++ [diff];
       m := m p;
       n := n p + 1;
       total_supply := total_supply p;
       total_demand := total_demand p;
       dummy_type := Some dummy_demand |}
  else if total_supply p <? total_demand p then
    let diff := total_demand p - total_supply p in
    {| cost_matrix := cost_matrix p ++ [times 0%Q (n p)];
       supply := supply p ++ [diff];
       demand := demand p;
       m := m p + 1;
       n := n p;
       total_supply := total_supply p;
       total_demand := total_demand p;
       dummy_type := Some dummy_supply |}
  else p.

(** [__init__]: copies the input, measures it and balances it. *)
Definition new (cost : list (list Q)) (sup dem : list Z)
  : TransportationSolver :=
  _balance_problem
    {| cost_matrix := map (fun row => row) cost;
       supply := sup;
       demand := dem;
       m := len sup;
       n := len dem;
       total_supply := zsum sup;
       total_demand := zsum dem;
       dummy_type := None |}.

(** ** Costs *)

(** [int(c)] on a float: truncation towards zero. *)
Definition py_int (c : Q) : Z := Z.quot (Qnum c) (Zpos (Qden c)).

(** [a < b] on costs. *)
Definition Qltb (a b : Q) : bool := negb (Qle_bool b a).

(** [c < min_cost] where [min_cost] starts as [float("inf")], here [None]. *)
Definition lt_min (c : Q) (min_cost : option Q) : bool :=
  match min_cost with
  | None => true
  | Some mc => Qltb c mc
  end.

(** [cost_matrix[i][j]] *)
Definition cost_at (p : TransportationSolver) (i j : Z) : res Q :=
  row <- getitem (cost_matrix p) i ;; getitem row j.

(** ** Floats

    The results of float arithmetic are binary64 numbers, rounded to the
    nearest one, ties to the even mantissa.  A finite one is the rational
    it denotes, in lowest terms; the two zeros are not told apart. *)

Inductive float : Type :=
| Finite (q : Q)
| Infinite (negative : bool).

(** [floor (log2 (n / d))] *)
Definition floor_log2 (n d : positive) : Z :=
  let l := Z.log2 (Zpos n) - Z.log2 (Zpos d) in
  if (if 0 <=? l then Zpos d * 2 ^ l <=? Zpos n
      else Zpos d <=? Zpos n * 2 ^ (- l))
  then l else l - 1.

(** The integer nearest to [num / den], the even one of two. *)
Definition half_even (num den : Z) : Z :=
  let k := num / den in
  let r := num mod den in
  if 2 * r <? den then k
  else if den <? 2 * r then k + 1
  else if Z.even k then k else k + 1.

(** The number [k * 2 ^ e] nearest to [n / d] with a mantissa [k] of at
    most 53 bits and an exponent [e] of at least -1074. *)
Definition nearest (n d : positive) : Z * Z :=
  let e := Z.max (floor_log2 n d - 52) (-1074) in
  let k := if 0 <=? e then half_even (Zpos n) (Zpos d * 2 ^ e)
           else half_even (Zpos n * 2 ^ (- e)) (Zpos d) in
  (k, e).

Definition dyadic (k e : Z) : Q :=
  if 0 <=? e then inject_Z (k * 2 ^ e)
  else Qred (k # Z.to_pos (2 ^ (- e))).

(** The float nearest to [q]: an infinity from [2 ^ 1024] on. *)
Definition round64 (q : Q) : float :=
  match Qnum q with
  | Z0 => Finite 0
  | Zpos n =>
      let '(k, e) := nearest n (Qden q) in
      if (0 <=? e) && (2 ^ 1024 <=? k * 2 ^ e) then Infinite false
      else Finite (dyadic k e)
  | Zneg n =>
      let '(k, e) := nearest n (Qden q) in
      if (0 <=? e) && (2 ^ 1024 <=? k * 2 ^ e) then Infinite true
      else Finite (- dyadic k e)
  end.

(** [a - b] on two finite floats. *)
Definition fsub (a b : Q) : float := round64 (a - b).

(** [t + x] on a float and a finite float. *)
Definition fadd (t : float) (x : Q) : float :=
  match t with
  | Finite a => round64 (a + x)
  | Infinite negative => Infinite negative
  end.

(** [a < b] on floats. *)
Definition fltb (a b : float) : bool :=
  match a, b with
  | Finite x, Finite y => Qltb x y
  | Finite _, Infinite negative => negb negative
  | Infinite negative, Finite _ => negative
  | Infinite na, Infinite nb => na && negb nb
  end.

(** How a call that does arithmetic ends: with a value, or with
    [OverflowError]. *)
Inductive outcome (A : Type) : Type :=
| Returns (a : A)
| OverflowError.

Arguments Returns {A} a.
Arguments OverflowError {A}.

(** [float(z)] on an [int], as the addition of an [int] to a float
    converts it: [OverflowError] when the nearest float is out of
    range. *)
Definition float_of_int (z : Z) : outcome Q :=
  match round64 (inject_Z z) with
  | Finite q => Returns q
  | Infinite _ => OverflowError
  end.

(** ** The cost evaluator *)

(** [is_dummy = (self.dummy_type == "demand" and j == self.n - 1)] *)
Definition is_dummy (p : TransportationSolver) (j : Z) : bool :=
  match dummy_type p with
  | Some dummy_demand => j =? n p - 1
  | _ => false
  end.

(** [terms.append(f"{c}×{int(q)}"); total += c * q], where [total] is a
    float and [c * q] an [int]. *)
Definition add_term (acc : outcome (list (Z * Z) * float)) (t : Z * Z)
  : outcome (list (Z * Z) * float) :=
  match acc with
  | OverflowError => OverflowError
  | Returns (terms, total) =>
      match float_of_int (fst t * snd t) with
      | OverflowError => OverflowError
      | Returns x => Returns (terms ++ [t], fadd total x)
      end
  end.

(** [f"={int(total)}"]: [int] raises [OverflowError] on an infinity. *)
Definition int_total (acc : outcome (list (Z * Z) * float))
  : outcome (list (Z * Z) * float) :=
  match acc with
  | Returns (_, Infinite _) => OverflowError
  | _ => acc
  end.

(** [_print_cost_equation]: the terms [(c, q)] of the printed equation, in
    row-major order, and the float total that is returned, or
    [OverflowError].  Once that is raised nothing more is read. *)
Definition _print_cost_equation (p : TransportationSolver)
  (alloc : list (list Z)) : res (outcome (list (Z * Z) * float)) :=
  acc <- for_each (range (m p)) (fun i acc =>
    for_each (range (n p)) (fun j acc =>
      match acc with
      | OverflowError => Ok acc
      | Returns _ =>
          row <- getitem alloc i ;;
          q <- getitem row j ;;
          if (0 <? q) && negb (is_dummy p j) then
            cq <- cost_at p i j ;;
            Ok (add_term acc (py_int cq, q))
          else Ok acc
      end) acc) (Returns ([], Finite 0)) ;;
  Ok (int_total acc).

(** ** Working state of a solve *)

Record step_record : Type := mkStep {
  step_no : Z;
  step_i : Z;
  step_j : Z;
  step_x : Z;
  step_alloc : list (list Z);
  step_s : list Z;
  step_d : list Z
}.

Record work : Type := mkWork {
  alloc : list (list Z);
  s : list Z;
  d : list Z;
  step : Z;
  out : list step_record
}.

(** [alloc = [[0] * self.n for _ in range(self.m)]; s = self.supply[:];
    d = self.demand[:]; step = 1] *)
Definition start (p : TransportationSolver) : work :=
  {| alloc := map (fun _ => times 0 (n p)) (range (m p));
     s := supply p;
     d := demand p;
     step := 1;
     out := [] |}.

(** The allocation statements every loop body of the source repeats:
    [x = min(s[i], d[j]); alloc[i][j] = x; s[i] -= x; d[j] -= x],
    followed by the printing of the step and [step += 1]. *)
Definition allocate (w : work) (i j : Z) : res work :=
  si <- getitem (s w) i ;;
  dj <- getitem (d w) j ;;
  let x := Z.min si dj in
  row <- getitem (alloc w) i ;;
  row' <- setitem row j x ;;
  alloc' <- setitem (alloc w) i row' ;;
  s' <- setitem (s w) i (si - x) ;;
  d' <- setitem (d w) j (dj - x) ;;
  Ok {| alloc := alloc';
        s := s';
        d := d';
        step := step w + 1;
        out := out w ++ [mkStep (step w) i j x alloc' s' d'] |}.

(** What a solve has done when its loops have ended: the final
    allocation matrix, the steps printed, and how its last statement, the
    cost equation, ended: with the terms and the total, or with
    [OverflowError]. *)
Record solution : Type := mkSolution {
  final_alloc : list (list Z);
  steps : list step_record;
  equation : outcome (list (Z * Z) * float)
}.

Definition finish (p : TransportationSolver) (w : work) : res solution :=
  eq <- _print_cost_equation p (alloc w) ;;
  Ok (mkSolution (alloc w) (out w) eq).

(** ** North-West Corner *)

Definition nwc_cond (p : TransportationSolver) (st : work * Z * Z)
  : res bool :=
  let '(_, i, j) := st in Ok ((i <? m p) && (j <? n p)).

Definition nwc_body (p : TransportationSolver) (st : work * Z * Z)
  : res (option (work * Z * Z)) :=
  let '(w, i, j) := st in
  w' <- allocate w i j ;;
  si <- getitem (s w') i ;;
  dj <- getitem (d w') j ;;
  if (si =? 0) && (dj =? 0) then
    if j + 1 <? n p then Ok (Some (w', i, j + 1))
    else Ok (Some (w', i + 1, j))
  else if si =? 0 then Ok (Some (w', i + 1, j))
  else if dj =? 0 then Ok (Some (w', i, j + 1))
  else Ok (Some (w', i, j)).

Definition solve_nwc (fuel : nat) (p : TransportationSolver) : res solution :=
  '(w, _, _) <- while fuel (nwc_cond p) (nwc_body p) (start p, 0, 0) ;;
  finish p w.

(** ** Least Cost *)

(** [_find_min_cost]: returns [(min_i, min_j, min_cost)]. *)
Definition _find_min_cost (p : TransportationSolver) (s d : list Z)
  (exclude_col : Z) : res (Z * Z * option Q) :=
  for_each (range (m p)) (fun i best =>
    si <- getitem s i ;;
    if si =? 0 then Ok best
    else
      for_each (range (n p)) (fun j best =>
        dj <- getitem d j ;;
        if (dj =? 0) || (j =? exclude_col) then Ok best
        else
          c <- cost_at p i j ;;
          if lt_min c (snd best) then Ok (i, j, Some c) else Ok best) best)
    (-1, -1, None).

(** [dummy_col = self.n - 1 if self.dummy_type == "demand" else -1] *)
Definition dummy_col (p : TransportationSolver) : Z :=
  match dummy_type p with
  | Some dummy_demand => n p - 1
  | _ => -1
  end.

(** [any(d[j] > 0 for j in range(self.n - (1 if dummy_col >= 0 else 0)))] *)
Definition lcm_cond (p : TransportationSolver) (w : work) : res bool :=
  py_any (range (n p - (if 0 <=? dummy_col p then 1 else 0)))
    (fun j => dj <- getitem (d w) j ;; Ok (0 <? dj)).

Definition lcm_body (p : TransportationSolver) (w : work)
  : res (option work) :=
  '(i, j, c) <- _find_min_cost p (s w) (d w) (dummy_col p) ;;
  if i =? -1 then Ok None
  else w' <- allocate w i j ;; Ok (Some w').

(** The pass that fills the dummy column. *)
Definition lcm_drain (p : TransportationSolver) (w : work) : res work :=
  if 0 <=? dummy_col p then
    for_each (range (m p)) (fun i w =>
      si <- getitem (s w) i ;;
      if 0 <? si then
        dd <- getitem (d w) (dummy_col p) ;;
        if 0 <? dd then allocate w i (dummy_col p) else Ok w
      else Ok w) w
  else Ok w.

Definition solve_least_cost (fuel : nat) (p : TransportationSolver)
  : res solution :=
  w <- while fuel (lcm_cond p) (lcm_body p) (start p) ;;
  w' <- lcm_drain p w ;;
  finish p w'.

(** ** Vogel's Approximation *)

(** [costs.sort()]: the costs in non-decreasing order. *)
Fixpoint insert (c : Q) (l : list Q) : list Q :=
  match l with
  | [] => [c]
  | h :: t => if Qle_bool c h then c :: l else h :: insert c t
  end.

Definition sort (l : list Q) : list Q := fold_right insert [] l.

(** [[f(j) for j in l if keep(j)]] *)
Fixpoint comprehension {A : Type} (l : list Z) (keep : Z -> res bool)
  (f : Z -> res A) : res (list A) :=
  match l with
  | [] => Ok []
  | j :: l' =>
      b <- keep j ;;
      if b then
        a <- f j ;; rest <- comprehension l' keep f ;; Ok (a :: rest)
      else comprehension l' keep f
  end.

(** [flags[k] and v[k] > 0] *)
Definition live (flags : list bool) (v : list Z) (k : Z) : res bool :=
  a <- getitem flags k ;;
  if a then vk <- getitem v k ;; Ok (0 <? vk) else Ok false.

(** [not flags[k] or v[k] == 0] *)
Definition skipped (flags : list bool) (v : list Z) (k : Z) : res bool :=
  a <- getitem flags k ;;
  if negb a then Ok true else vk <- getitem v k ;; Ok (vk =? 0).

(** The penalty written for a line whose candidate costs are [costs]:
    nothing is written when there is no candidate. *)
Definition write_penalty (pen : list float) (k : Z) (costs : list Q)
  : res (list float) :=
  if 2 <=? len costs then
    let sorted := sort costs in
    c1 <- getitem sorted 1 ;;
    c0 <- getitem sorted 0 ;;
    setitem pen k (fsub c1 c0)
  else if len costs =? 1 then setitem pen k (Finite 0)
  else Ok pen.

Record vam_state : Type := mkVam {
  vam_work : work;
  active_rows : list bool;
  active_cols : list bool
}.

(** Step 1: the row penalties. *)
Definition vam_row_pen (p : TransportationSolver) (st : vam_state)
  : res (list float) :=
  for_each (range (m p)) (fun i row_pen =>
    skip <- skipped (active_rows st) (s (vam_work st)) i ;;
    if skip then Ok row_pen
    else
      costs <- comprehension (range (n p))
                 (live (active_cols st) (d (vam_work st)))
                 (fun j => cost_at p i j) ;;
      write_penalty row_pen i costs)
    (times (Finite (-1)) (m p)).

(** Step 2: the column penalties. *)
Definition vam_col_pen (p : TransportationSolver) (st : vam_state)
  : res (list float) :=
  for_each (range (n p)) (fun j col_pen =>
    skip <- skipped (active_cols st) (d (vam_work st)) j ;;
    if skip then Ok col_pen
    else
      costs <- comprehension (range (m p))
                 (live (active_rows st) (s (vam_work st)))
                 (fun i => cost_at p i j) ;;
      write_penalty col_pen j costs)
    (times (Finite (-1)) (n p)).

(** Step 3: [(max_pen, is_row, idx)], rows scanned before columns. *)
Definition vam_max_pen (p : TransportationSolver) (row_pen col_pen : list float)
  : res (float * bool * Z) :=
  best <- for_each (range (m p)) (fun i best =>
            pi <- getitem row_pen i ;;
            if fltb (fst (fst best)) pi then Ok (pi, true, i) else Ok best)
            (Finite (-1), true, -1) ;;
  for_each (range (n p)) (fun j best =>
    pj <- getitem col_pen j ;;
    if fltb (fst (fst best)) pj then Ok (pj, false, j) else Ok best) best.

(** Step 4: [(min_i, min_j, min_cost)] in the selected row or column. *)
Definition vam_min_cell (p : TransportationSolver) (st : vam_state)
  (is_row : bool) (idx : Z) : res (Z * Z * option Q) :=
  if is_row then
    for_each (range (n p)) (fun j best =>
      ok <- live (active_cols st) (d (vam_work st)) j ;;
      if ok then
        c <- cost_at p idx j ;;
        if lt_min c (snd best) then Ok (idx, j, Some c) else Ok best
      else Ok best) (-1, -1, None)
  else
    for_each (range (m p)) (fun i best =>
      ok <- live (active_rows st) (s (vam_work st)) i ;;
      if ok then
        c <- cost_at p i idx ;;
        if lt_min c (snd best) then Ok (i, idx, Some c) else Ok best
      else Ok best) (-1, -1, None).

(** Step 5 and the marking of exhausted lines. *)
Definition vam_allocate (st : vam_state) (min_i min_j : Z) : res vam_state :=
  w' <- allocate (vam_work st) min_i min_j ;;
  si <- getitem (s w') min_i ;;
  rows' <- (if si =? 0 then setitem (active_rows st) min_i false
            else Ok (active_rows st)) ;;
  dj <- getitem (d w') min_j ;;
  cols' <- (if dj =? 0 then setitem (active_cols st) min_j false
            else Ok (active_cols st)) ;;
  Ok (mkVam w' rows' cols').

Definition vam_cond (p : TransportationSolver) (st : vam_state) : res bool :=
  b <- py_any (range (m p)) (fun i =>
         si <- getitem (s (vam_work st)) i ;;
         if 0 <? si then getitem (active_rows st) i else Ok false) ;;
  if b then
    py_any (range (n p)) (fun j =>
      dj <- getitem (d (vam_work st)) j ;;
      if 0 <? dj then getitem (active_cols st) j else Ok false)
  else Ok false.

Definition vam_body (p : TransportationSolver) (st : vam_state)
  : res (option vam_state) :=
  row_pen <- vam_row_pen p st ;;
  col_pen <- vam_col_pen p st ;;
  '(max_pen, is_row, idx) <- vam_max_pen p row_pen col_pen ;;
  if idx =? -1 then Ok None
  else
    '(min_i, min_j, min_cost) <- vam_min_cell p st is_row idx ;;
    if min_i =? -1 then Ok None
    else st' <- vam_allocate st min_i min_j ;; Ok (Some st').

Definition vam_start (p : TransportationSolver) : vam_state :=
  {| vam_work := start p;
     active_rows := times true (m p);
     active_cols := times true (n p) |}.

Definition solve_vam (fuel : nat) (p : TransportationSolver) : res solution :=
  st <- while fuel (vam_cond p) (vam_body p) (vam_start p) ;;
  finish p (vam_work st).

(** ** The tables

    The printing methods hand [tabulate] a list of headers and a list of
    rows; the rendering is [tabulate]'s.  Each method is modelled by what
    it hands over.  A string of the source outside ASCII is the string of
    its UTF-8 bytes. *)

(** [str(z)], also the conversion [{z}] of an f-string, on an [int]. *)
Definition str (z : Z) : String.string :=
  DecimalString.NilZero.string_of_int (Z.to_int z).

Definition bytes (l : list nat) : String.string :=
  String.string_of_list_ascii (map Ascii.ascii_of_nat l).

(** The multiplication sign, the minus sign used for an empty cell, and
    the line feed. *)
Definition times_sign : String.string := bytes [195; 151]%nat.
Definition minus_sign : String.string := bytes [226; 136; 146]%nat.
Definition line_feed : String.string := bytes [10]%nat.

(** A cell of a row: a string or an [int]. *)
Inductive entry : Type :=
| Text (t : String.string)
| Number (z : Z).

(** A local variable that may not have been assigned: reading it then
    raises [UnboundLocalError]. *)
Inductive local (A : Type) : Type :=
| Bound (a : A)
| UnboundLocalError.

Arguments Bound {A} a.
Arguments UnboundLocalError {A}.

(** [f"D{j+1}"], with the mark of the dummy destination. *)
Definition header (p : TransportationSolver) (j : Z) : String.string :=
  let h := String.append "D"%string (str (j + 1)) in
  if is_dummy p j then String.append h "*"%string else h.

(** [_make_headers] *)
Definition _make_headers (p : TransportationSolver) : list String.string :=
  fold_left (fun headers j => headers ++ [header p j]) (range (n p))
            [String.EmptyString]
  ++ ["Supply"%string].

(** [f"S{i+1}"] *)
Definition source_label (i : Z) : entry :=
  Text (String.append "S"%string (str (i + 1))).

(** The rows of the sources in [_print_initial_table], with the value the
    loop variable [j] is left with. *)
Definition initial_rows (p : TransportationSolver)
  : res (list (list entry) * option Z) :=
  for_each (range (m p)) (fun i st =>
    '(row, jv) <- for_each (range (n p)) (fun j rj =>
        c <- cost_at p i j ;;
        Ok (fst rj ++ [Text (String.append "$"%string (str (py_int c)))],
            Some j))
      ([source_label i], snd st) ;;
    si <- getitem (supply p) i ;;
    Ok (fst st ++ [row ++ [Number si]], jv)) ([], None).

(** The loop [for mahoun in range(self.n): dem_row.append(int(self.demand[j]))]:
    it reads [j], not its own variable. *)
Fixpoint demand_cells (l : list Z) (jv : option Z) (dem : list Z)
  (row : list entry) : res (local (list entry)) :=
  match l with
  | [] => Ok (Bound row)
  | _ :: l' =>
      match jv with
      | None => Ok UnboundLocalError
      | Some j =>
          dj <- getitem dem j ;;
          demand_cells l' jv dem (row ++ [Number dj])
      end
  end.

(** [f"Dummy {self.dummy_type} added for balancing\n"] *)
Definition dummy_message (k : dummy) : String.string :=
  String.append
    (String.append "Dummy "%string
       (match k with
        | dummy_supply => "supply"%string
        | dummy_demand => "demand"%string
        end))
    (String.append " added for balancing"%string line_feed).

(** [_print_initial_table]: the headers, the rows and the message about
    the dummy, if one is printed. *)
Definition _print_initial_table (p : TransportationSolver)
  : res (local (list String.string * list (list entry)
                * option String.string)) :=
  let headers := _make_headers p in
  '(data, jv) <- initial_rows p ;;
  r <- demand_cells (range (n p)) jv (demand p) [Text "Demand"%string] ;;
  match r with
  | UnboundLocalError => Ok UnboundLocalError
  | Bound dem_row =>
      Ok (Bound (headers,
                 data ++ [dem_row ++ [Number (total_supply p)]],
                 option_map dummy_message (dummy_type p)))
  end.

(** The text of one cell of the allocation in a step table and in the
    final table: [f"{c}×{q}"] when something is allocated, else the minus
    sign. *)
Definition alloc_cell (p : TransportationSolver) (alloc : list (list Z))
  (i j : Z) : res entry :=
  row <- getitem alloc i ;;
  a <- getitem row j ;;
  if 0 <? a then
    c <- cost_at p i j ;;
    Ok (Text (String.append (str (py_int c))
                (String.append times_sign (str a))))
  else Ok (Text minus_sign).

(** The cells of source [i], after its label. *)
Definition alloc_row (p : TransportationSolver) (alloc : list (list Z))
  (i : Z) : res (list entry) :=
  for_each (range (n p)) (fun j row =>
    e <- alloc_cell p alloc i j ;; Ok (row ++ [e])) [source_label i].

(** [_print_step_table]: the title, the headers and the rows. *)
Definition _print_step_table (p : TransportationSolver) (step_no : Z)
  (method : String.string) (alloc : list (list Z)) (s_left d_left : list Z)
  : res (String.string * list String.string * list (list entry)) :=
  let title :=
    String.append "Step "%string
      (String.append (str step_no)
         (String.append " - "%string (String.append method line_feed))) in
  let headers := _make_headers p in
  data <- for_each (range (m p)) (fun i data =>
            row <- alloc_row p alloc i ;;
            si <- getitem s_left i ;;
            Ok (data ++ [row ++ [Number si]])) [] ;;
  dem_row <- for_each (range (n p)) (fun j row =>
               dj <- getitem d_left j ;; Ok (row ++ [Number dj]))
               [Text "Demand"%string] ;;
  Ok (title, headers, data ++ [dem_row ++ [Text String.EmptyString]]).

(** [_print_final_allocation]: the headers without the last one, and the
    rows. *)
Definition _print_final_allocation (p : TransportationSolver)
  (alloc : list (list Z)) : res (list String.string * list (list entry)) :=
  let headers := removelast (_make_headers p) in
  data <- for_each (range (m p)) (fun i data =>
            row <- alloc_row p alloc i ;; Ok (data ++ [row])) [] ;;
  Ok (headers, data).

(** ** The worked example of the source *)

Definition example_cost : list (list Q) :=
  [[12; 15; 18; 35]; [35; 48; 52; 28]; [8; 12; 20; 32]]%Q.
Definition example_supply : list Z := [2500; 1800; 1200].
Definition example_demand : list Z := [1500; 1200; 1000; 800].
Definition example : TransportationSolver :=
  new example_cost example_supply example_demand.

(** * Vocabulary of the statements *)

(** ** Subscripts and problems *)

(** The element a valid non-negative subscript reads, as a total function. *)
Definition at_ {A : Type} (dflt : A) (l : list A) (i : Z) : A :=
  nth (Z.to_nat i) l dflt.

(** The list a valid non-negative subscript assignment leaves. *)
Definition upd {A : Type} (l : list A) (i : Z) (v : A) : list A :=
  replace_nth (Z.to_nat i) l v.

Definition nonneg (l : list Z) : Prop := Forall (fun x => 0 <= x) l.

(** What the caller guarantees (and the source does not check): at least
    one source and one destination, and a cost matrix of matching shape. *)
Definition wf (p : TransportationSolver) : Prop :=
  1 <= m p /\ 1 <= n p /\
  len (supply p) = m p /\ len (demand p) = n p /\
  len (cost_matrix p) = m p /\
  Forall (fun row => len row = n p) (cost_matrix p).

Definition balanced (p : TransportationSolver) : Prop :=
  zsum (supply p) = zsum (demand p).

(** A problem a solve method can be run on. *)
Definition problem (p : TransportationSolver) : Prop :=
  wf p /\ balanced p /\ nonneg (supply p) /\ nonneg (demand p).

(** The same on the arguments of the constructor. *)
Definition valid_input (cost : list (list Q)) (sup dem : list Z) : Prop :=
  1 <= len sup /\ 1 <= len dem /\
  len cost = len sup /\ Forall (fun row => len row = len dem) cost /\
  nonneg sup /\ nonneg dem.

(** ** Matrices *)

(** [alloc[i][j]], rows, columns *)
Definition cell (a : list (list Z)) (i j : Z) : Z := at_ 0 (at_ [] a i) j.

Definition rowsum (a : list (list Z)) (i : Z) : Z := zsum (at_ [] a i).

Definition colsum (a : list (list Z)) (j : Z) : Z :=
  zsum (map (fun row => at_ 0 row j) a).

Definition total (a : list (list Z)) : Z := zsum (map zsum a).

(** The matrix after [a[i][j] = x]. *)
Definition upd2 (a : list (list Z)) (i j x : Z) : list (list Z) :=
  upd a i (upd (at_ [] a i) j x).

(** Component-wise order on vectors and matrices. *)
Definition le_vec (u v : list Z) : Prop := Forall2 Z.le u v.
Definition le_mat (a b : list (list Z)) : Prop := Forall2 le_vec a b.

(** ** Snapshots and chains of steps *)

(** The allocation matrix, remaining supply and remaining demand at one
    moment of a solve. *)
Definition snapshot : Type := (list (list Z) * list Z * list Z)%type.

Definition snap0 (p : TransportationSolver) : snapshot :=
  (alloc (start p), supply p, demand p).

Definition snap_of (w : work) : snapshot := (alloc w, s w, d w).

Definition after (r : step_record) : snapshot :=
  (step_alloc r, step_s r, step_d r).

(** [chain R prev l]: every step of [l] is related by [R] to the snapshot
    before it, the first one to [prev]. *)
Fixpoint chain (R : snapshot -> step_record -> Prop) (prev : snapshot)
  (l : list step_record) : Prop :=
  match l with
  | [] => True
  | r :: l' => R prev r /\ chain R (after r) l'
  end.

(** The snapshot after the last step of [l], [prev] if there is none. *)
Definition final (prev : snapshot) (l : list step_record) : snapshot :=
  last (map after l) prev.

(** One allocation: the cell is in range and still empty, the quantity is
    the smaller of the remaining supply and demand, the cell receives it
    and both remaining values lose it. *)
Definition allocation_step (p : TransportationSolver) (prev : snapshot)
  (r : step_record) : Prop :=
  let '(a, sv, dv) := prev in
  let i := step_i r in
  let j := step_j r in
  0 <= i < m p /\ 0 <= j < n p /\
  cell a i j = 0 /\
  step_x r = Z.min (at_ 0 sv i) (at_ 0 dv j) /\
  step_alloc r = upd2 a i j (step_x r) /\
  step_s r = upd sv i (at_ 0 sv i - step_x r) /\
  step_d r = upd dv j (at_ 0 dv j - step_x r).

(** What holds of every snapshot of a solve. *)
Record sound (p : TransportationSolver) (sn : snapshot) : Prop := mkSound {
  snd_len_a : len (fst (fst sn)) = m p;
  snd_rows : Forall (fun row => len row = n p) (fst (fst sn));
  snd_len_s : len (snd (fst sn)) = m p;
  snd_len_d : len (snd sn) = n p;
  snd_a_nonneg : Forall nonneg (fst (fst sn));
  snd_s_nonneg : nonneg (snd (fst sn));
  snd_d_nonneg : nonneg (snd sn);
  snd_bal : zsum (snd (fst sn)) = zsum (snd sn);
  snd_rowsum : forall i, 0 <= i < m p ->
     rowsum (fst (fst sn)) i + at_ 0 (snd (fst sn)) i = at_ 0 (supply p) i;
  snd_colsum : forall j, 0 <= j < n p ->
     colsum (fst (fst sn)) j + at_ 0 (snd sn) j = at_ 0 (demand p) j;
  snd_used : forall i j, 0 <= i < m p -> 0 <= j < n p ->
     cell (fst (fst sn)) i j <> 0 ->
     at_ 0 (snd (fst sn)) i = 0 \/ at_ 0 (snd sn) j = 0
}.

(** The work record [allocate] leaves on valid subscripts. *)
Definition allocated (w : work) (i j : Z) : work :=
  let x := Z.min (at_ 0 (s w) i) (at_ 0 (d w) j) in
  let alloc' := upd2 (alloc w) i j x in
  let s' := upd (s w) i (at_ 0 (s w) i - x) in
  let d' := upd (d w) j (at_ 0 (d w) j - x) in
  {| alloc := alloc';
     s := s';
     d := d';
     step := step w + 1;
     out := out w ++ [mkStep (step w) i j x alloc' s' d'] |}.

(** The invariant of the three loops: the steps printed so far form a
    chain of allocations from the start, and the work record holds the
    snapshot they end in. *)
Definition tracked (p : TransportationSolver) (w : work) : Prop :=
  chain (allocation_step p) (snap0 p) (out w) /\
  final (snap0 p) (out w) = snap_of w.

(** ** Feasibility *)

(** A feasible allocation: every row ships its supply, every column
    receives its demand, and the whole matrix carries the common total. *)
Definition feasible (p : TransportationSolver) (a : list (list Z)) : Prop :=
  (forall i, 0 <= i < m p -> rowsum a i = at_ 0 (supply p) i) /\
  (forall j, 0 <= j < n p -> colsum a j = at_ 0 (demand p) j) /\
  total a = zsum (supply p) /\ total a = zsum (demand p).

(** ** North-West Corner *)

(** The cursor rule of North-West Corner, in the words of the
    specification: both exhausted, next column if one remains, else next
    row; only the row exhausted, next row; only the column exhausted,
    next column. *)
Definition nwc_advance (p : TransportationSolver) (sv dv : list Z) (i j : Z)
  : Z * Z :=
  let row_exhausted := at_ 0 sv i =? 0 in
  let col_exhausted := at_ 0 dv j =? 0 in
  if row_exhausted && col_exhausted then
    if j + 1 <? n p then (i, j + 1) else (i + 1, j)
  else if row_exhausted then (i + 1, j)
  else if col_exhausted then (i, j + 1)
  else (i, j).

(** The cursor after the steps [l], started at [(i, j)]. *)
Fixpoint nwc_cursor (p : TransportationSolver) (i j : Z)
  (l : list step_record) : Z * Z :=
  match l with
  | [] => (i, j)
  | r :: l' =>
      let '(i', j') := nwc_advance p (step_s r) (step_d r) i j in
      nwc_cursor p i' j' l'
  end.

(** Every step of [l] is made at the cursor, which is inside the matrix. *)
Fixpoint nwc_visits (p : TransportationSolver) (i j : Z)
  (l : list step_record) : Prop :=
  match l with
  | [] => True
  | r :: l' =>
      i < m p /\ j < n p /\ step_i r = i /\ step_j r = j /\
      let '(i', j') := nwc_advance p (step_s r) (step_d r) i j in
      nwc_visits p i' j' l'
  end.

(** The invariant of the North-West Corner loop. *)
Definition nwc_inv (p : TransportationSolver) (st : work * Z * Z) : Prop :=
  let '(w, i, j) := st in
  tracked p w /\
  0 <= i <= m p /\ 0 <= j <= n p /\
  (forall i', 0 <= i' < i -> at_ 0 (s w) i' = 0) /\
  (forall j', 0 <= j' < j -> at_ 0 (d w) j' = 0) /\
  (forall i' j', i <= i' < m p -> j <= j' < n p -> cell (alloc w) i' j' = 0) /\
  nwc_visits p 0 0 (out w) /\
  nwc_cursor p 0 0 (out w) = (i, j).

Definition nwc_measure (p : TransportationSolver) (st : work * Z * Z) : nat :=
  let '(_, i, j) := st in Z.to_nat ((m p - i) + (n p - j)).

(** ** Costs and totals *)

(** [cost_matrix[i][j]] as a total function. *)
Definition cost (p : TransportationSolver) (i j : Z) : Q :=
  at_ 0%Q (at_ [] (cost_matrix p) i) j.

(** What one cell adds to the reported total. *)
Definition cost_term (p : TransportationSolver) (a : list (list Z)) (i j : Z)
  : Z :=
  if (0 <? cell a i j) && negb (is_dummy p j)
  then py_int (cost p i j) * cell a i j
  else 0.

(** The reported total as a double sum over the cells. *)
Definition reported_total (p : TransportationSolver) (a : list (list Z)) : Z :=
  zsum (map (fun i => zsum (map (cost_term p a i) (range (n p))))
            (range (m p))).

(** A matrix of the shape of the balanced problem. *)
Definition shaped (p : TransportationSolver) (a : list (list Z)) : Prop :=
  len a = m p /\ Forall (fun row => len row = n p) a.

(** ** Results of a solve *)

(** Fuel that suffices for every loop of a solve on [p]. *)
Definition enough (p : TransportationSolver) (fuel : nat) : Prop :=
  (Z.to_nat (m p + n p) < fuel)%nat.

Definition all_zero (v : list Z) : Prop := Forall (fun x => x = 0) v.

(** A cell that the cost equation prints. *)
Definition printed (p : TransportationSolver) (a : list (list Z)) (i j : Z)
  : bool :=
  (0 <? cell a i j) && negb (is_dummy p j).

(** The terms of the cost equation, row by row. *)
Definition row_terms (p : TransportationSolver) (a : list (list Z)) (i : Z)
  (cols : list Z) : list (Z * Z) :=
  flat_map (fun j => if printed p a i j
                     then [(py_int (cost p i j), cell a i j)] else []) cols.

Definition equation_terms (p : TransportationSolver) (a : list (list Z))
  : list (Z * Z) :=
  flat_map (fun i => row_terms p a i (range (n p))) (range (m p)).

(** The sum of the products of the terms. *)
Definition terms_sum (l : list (Z * Z)) : Z :=
  zsum (map (fun t => fst t * snd t) l).

(** The cost equation of a matrix: the total starts at [0.0] and receives
    the product of each term in turn. *)
Definition evaluation (p : TransportationSolver) (a : list (list Z))
  : outcome (list (Z * Z) * float) :=
  int_total (fold_left add_term (equation_terms p a) (Returns ([], Finite 0))).

(** What the three methods have in common: the steps are a chain of
    allocations from the start, they end in the final matrix with nothing
    left to ship or to receive, and the cost equation is the one of that
    matrix. *)
Definition solved (p : TransportationSolver) (sol : solution) : Prop :=
  chain (allocation_step p) (snap0 p) (steps sol) /\
  (exists sv dv, final (snap0 p) (steps sol) = (final_alloc sol, sv, dv) /\
                 all_zero sv /\ all_zero dv) /\
  equation sol = evaluation p (final_alloc sol).

(** ** Cells of least cost *)

(** Row-major order on cells. *)
Definition before (c1 c2 : Z * Z) : Prop :=
  fst c1 < fst c2 \/ (fst c1 = fst c2 /\ snd c1 < snd c2).

(** The cells [_find_min_cost] looks at: inside the matrix, row and column
    not exhausted, column not the excluded one. *)
Definition eligible (p : TransportationSolver) (sv dv : list Z) (ex : Z)
  (i j : Z) : Prop :=
  0 <= i < m p /\ 0 <= j < n p /\
  at_ 0 sv i <> 0 /\ at_ 0 dv j <> 0 /\ j <> ex.

(** [(i, j)] is the first cell of least cost among the candidates: no
    candidate is cheaper, and every candidate before it in row-major order
    is strictly dearer. *)
Definition first_least (p : TransportationSolver)
  (cand : Z -> Z -> Prop) (i j : Z) : Prop :=
  cand i j /\
  forall i' j', cand i' j' ->
    (cost p i j <= cost p i' j')%Q /\
    (before (i', j') (i, j) -> (cost p i j < cost p i' j')%Q).

(** The state of a minimum scan that has looked at the candidates before
    the position [pos]. *)
Definition min_scanned (p : TransportationSolver) (cand : Z -> Z -> Prop)
  (pos : Z * Z) (best : Z * Z * option Q) : Prop :=
  (best = (-1, -1, None) /\
   forall i' j', cand i' j' -> ~ before (i', j') pos) \/
  (exists bi bj,
     best = (bi, bj, Some (cost p bi bj)) /\
     cand bi bj /\ before (bi, bj) pos /\
     forall i' j', cand i' j' -> before (i', j') pos ->
       (cost p bi bj <= cost p i' j')%Q /\
       (before (i', j') (bi, bj) -> (cost p bi bj < cost p i' j')%Q)).

(** ** Least Cost *)

(** [1] for a positive quantity, [0] otherwise; the number of positive
    entries of a vector; the number of steps with a positive quantity. *)
Definition ind (x : Z) : Z := if 0 <? x then 1 else 0.

Definition npos (v : list Z) : Z := zsum (map ind v).

Definition effective (l : list step_record) : Z :=
  zsum (map (fun r => ind (step_x r)) l).

(** The number of columns the Least Cost loop treats as real. *)
Definition real_cols (p : TransportationSolver) : Z :=
  n p - (if 0 <=? dummy_col p then 1 else 0).

(** The cells with remaining supply and remaining demand, the excluded
    column apart. *)
Definition available (p : TransportationSolver) (sv dv : list Z) (ex : Z)
  (i j : Z) : Prop :=
  0 <= i < m p /\ 0 <= j < n p /\
  0 < at_ 0 sv i /\ 0 < at_ 0 dv j /\ j <> ex.

(** A step of the main Least Cost loop: some real destination still has
    demand, and the step is made at the first cell of least cost among the
    available cells outside the dummy column. *)
Definition lcm_pick (p : TransportationSolver) (prev : snapshot)
  (r : step_record) : Prop :=
  (exists j, 0 <= j < real_cols p /\ 0 < at_ 0 (snd prev) j) /\
  first_least p (available p (snd (fst prev)) (snd prev) (dummy_col p))
    (step_i r) (step_j r).

(** A step of the pass that fills the dummy column: it is made in the
    dummy column, from a source with supply left. *)
Definition drain_pick (p : TransportationSolver) (prev : snapshot)
  (r : step_record) : Prop :=
  step_j r = dummy_col p /\ 0 <= step_i r < m p /\
  0 < at_ 0 (snd (fst prev)) (step_i r).

(** The rows of the steps increase strictly, from [i0] on. *)
Fixpoint rows_increase (i0 : Z) (l : list step_record) : Prop :=
  match l with
  | [] => True
  | r :: l' => i0 <= step_i r /\ rows_increase (step_i r + 1) l'
  end.

Definition positive_steps (l : list step_record) : Prop :=
  Forall (fun r => 0 < step_x r) l.

(** The invariant of the main Least Cost loop. *)
Definition lcm_inv (p : TransportationSolver) (w : work) : Prop :=
  tracked p w /\
  chain (lcm_pick p) (snap0 p) (out w) /\
  positive_steps (out w).

Definition lcm_measure (w : work) : nat := Z.to_nat (npos (s w) + npos (d w)).

(** The state of the pass before source [i]. *)
Definition drain_inv (p : TransportationSolver) (w0 : work) (i : Z) (w : work)
  : Prop :=
  tracked p w /\ positive_steps (out w) /\
  (forall j, 0 <= j < n p - 1 -> at_ 0 (d w) j = 0) /\
  (forall i', 0 <= i' < i -> at_ 0 (s w) i' = 0) /\
  exists l2, out w = out w0 ++ l2 /\
             chain (drain_pick p) (snap_of w0) l2 /\
             rows_increase 0 l2 /\
             Forall (fun r => step_i r < i) l2.

(** ** Vogel's Approximation *)

(** [flags[k] and v[k] > 0] and [not flags[k] or v[k] == 0] as total
    functions. *)
Definition liveb (flags : list bool) (v : list Z) (k : Z) : bool :=
  at_ false flags k && (0 <? at_ 0 v k).

Definition skippedb (flags : list bool) (v : list Z) (k : Z) : bool :=
  negb (at_ false flags k) || (at_ 0 v k =? 0).

(** The penalty of a line from its candidate costs: the sentinel when
    there is none. *)
Definition penalty (costs : list Q) : float :=
  match sort costs with
  | [] => Finite (-1)
  | [_] => Finite 0
  | c0 :: c1 :: _ => fsub c1 c0
  end.

Definition line_penalty (skip : bool) (costs : list Q) : float :=
  if skip then Finite (-1) else penalty costs.

(** The candidate costs of row [i] and of column [j]. *)
Definition row_costs (p : TransportationSolver) (st : vam_state) (i : Z)
  : list Q :=
  map (fun j => cost p i j)
      (filter (liveb (active_cols st) (d (vam_work st))) (range (n p))).

Definition col_costs (p : TransportationSolver) (st : vam_state) (j : Z)
  : list Q :=
  map (fun i => cost p i j)
      (filter (liveb (active_rows st) (s (vam_work st))) (range (m p))).

(** A state of the shape of the problem. *)
Definition vam_shape (p : TransportationSolver) (st : vam_state) : Prop :=
  len (s (vam_work st)) = m p /\ len (d (vam_work st)) = n p /\
  shaped p (alloc (vam_work st)) /\
  len (active_rows st) = m p /\ len (active_cols st) = n p.




(** Order on floats. *)
Definition flt (a b : float) : Prop := fltb a b = true.
Definition fle (a b : float) : Prop := fltb b a = false.

(** The line selected from the penalties: none when no penalty exceeds the
    sentinel; else the first row of greatest penalty, unless a column has
    a strictly greater one, and then the first such column. *)
Definition selected (p : TransportationSolver)
  (row_pen col_pen : list float) (sel : float * bool * Z) : Prop :=
  let '(max_pen, is_row, idx) := sel in
  (forall i, 0 <= i < m p -> fle (at_ (Finite 0) row_pen i) max_pen) /\
  (forall j, 0 <= j < n p -> fle (at_ (Finite 0) col_pen j) max_pen) /\
  ((idx = -1 /\ is_row = true /\ max_pen = Finite (-1)) \/
   (is_row = true /\ 0 <= idx < m p /\
    max_pen = at_ (Finite 0) row_pen idx /\ flt (Finite (-1)) max_pen /\
    forall i, 0 <= i < idx -> flt (at_ (Finite 0) row_pen i) max_pen) \/
   (is_row = false /\ 0 <= idx < n p /\
    max_pen = at_ (Finite 0) col_pen idx /\ flt (Finite (-1)) max_pen /\
    (forall i, 0 <= i < m p -> flt (at_ (Finite 0) row_pen i) max_pen) /\
    forall j, 0 <= j < idx -> flt (at_ (Finite 0) col_pen j) max_pen)).

(** The cells of the selected line that can still receive an
    allocation. *)
Definition line_cells (p : TransportationSolver) (st : vam_state)
  (is_row : bool) (idx : Z) (i j : Z) : Prop :=
  if is_row
  then i = idx /\ 0 <= j < n p /\
       liveb (active_cols st) (d (vam_work st)) j = true
  else j = idx /\ 0 <= i < m p /\
       liveb (active_rows st) (s (vam_work st)) i = true.

(** Non-decreasing order: every element is below all the later ones. *)
Fixpoint ascending (l : list Q) : Prop :=
  match l with
  | [] => True
  | h :: t => Forall (fun c => (h <= c)%Q) t /\ ascending t
  end.

(** The state [vam_allocate] leaves on valid subscripts. *)
Definition vam_allocated (st : vam_state) (min_i min_j : Z) : vam_state :=
  let w' := allocated (vam_work st) min_i min_j in
  {| vam_work := w';
     active_rows := if at_ 0 (s w') min_i =? 0
                    then upd (active_rows st) min_i false
                    else active_rows st;
     active_cols := if at_ 0 (d w') min_j =? 0
                    then upd (active_cols st) min_j false
                    else active_cols st |}.

(** The selected line is one that was not skipped. *)
Definition line_open (st : vam_state) (is_row : bool) (idx : Z) : Prop :=
  if is_row
  then skippedb (active_rows st) (s (vam_work st)) idx = false
  else skippedb (active_cols st) (d (vam_work st)) idx = false.

(** The invariant of the Vogel loop. *)
Definition vam_inv (p : TransportationSolver) (st : vam_state) : Prop :=
  tracked p (vam_work st) /\
  positive_steps (out (vam_work st)) /\
  vam_shape p st /\
  (forall i, 0 <= i < m p -> 0 < at_ 0 (s (vam_work st)) i ->
             at_ false (active_rows st) i = true) /\
  (forall j, 0 <= j < n p -> 0 < at_ 0 (d (vam_work st)) j ->
             at_ false (active_cols st) j = true).

Definition vam_measure (st : vam_state) : nat := lcm_measure (vam_work st).

(** ** Steps of a valid solve *)

(** What is left to exhaust, less one: a bound on the allocations of a
    positive quantity still to come. *)
Definition potential (sn : snapshot) : Z :=
  Z.max 0 (npos (snd (fst sn)) + npos (snd sn) - 1).

(** A step of a solve on non-negative input: the quantity and every entry
    of the matrix and of the remaining vectors are non-negative, and the
    remaining vectors do not grow. *)
Definition step_nonneg (prev : snapshot) (r : step_record) : Prop :=
  0 <= step_x r /\
  Forall nonneg (step_alloc r) /\ nonneg (step_s r) /\ nonneg (step_d r) /\
  le_vec (step_s r) (snd (fst prev)) /\ le_vec (step_d r) (snd prev).

(** A step writes its quantity into a cell that still holds 0, and no cell
    of the matrix decreases. *)
Definition step_grows (prev : snapshot) (r : step_record) : Prop :=
  cell (fst (fst prev)) (step_i r) (step_j r) = 0 /\
  step_alloc r = upd2 (fst (fst prev)) (step_i r) (step_j r) (step_x r) /\
  0 <= step_x r /\
  le_mat (fst (fst prev)) (step_alloc r).


(** ** Further properties *)

(** A path from [(i, j)] that moves one row down or one column right at
    every step. *)
Fixpoint staircase (i j : Z) (l : list step_record) : Prop :=
  match l with
  | [] => True
  | r :: l' =>
      step_i r = i /\ step_j r = j /\
      (staircase (i + 1) j l' \/ staircase i (j + 1) l')
  end.

(** The number of positive cells of a matrix. *)
Definition positive_cells (a : list (list Z)) : Z := zsum (map npos a).

(** Nothing is left to ship or to receive after the steps of [sol]. *)
Definition exhausted (p : TransportationSolver) (sol : solution) : Prop :=
  exists sv dv, final (snap0 p) (steps sol) = (final_alloc sol, sv, dv) /\
                all_zero sv /\ all_zero dv.

(** The sum, over the cells of the matrix the constructor was given, of
    the truncated unit cost times the quantity. *)
Definition real_cost (cost0 : list (list Q)) (sup dem : list Z)
  (a : list (list Z)) : Z :=
  zsum (map (fun i =>
          zsum (map (fun j => py_int (at_ 0%Q (at_ [] cost0 i) j) * cell a i j)
                    (range (len dem))))
          (range (len sup))).

(** A result other than the exhaustion of fuel. *)
Definition fuelled {A : Type} (r : res A) : Prop := r <> OutOfFuel.

(** ** The tables *)

(** The text of cell [(i, j)] of an allocation in a table. *)
Definition cell_text (p : TransportationSolver) (a : list (list Z)) (i j : Z)
  : entry :=
  if 0 <? cell a i j
  then Text (String.append (str (py_int (cost p i j)))
               (String.append times_sign (str (cell a i j))))
  else Text minus_sign.

(** The row of source [i] in the initial table. *)
Definition cost_row (p : TransportationSolver) (i : Z) : list entry :=
  source_label i
  :: map (fun j => Text (String.append "$"%string (str (py_int (cost p i j)))))
         (range (n p))
  ++ [Number (at_ 0 (supply p) i)].

(** A table whose rows have one entry for every header. *)
Definition rectangular (headers : list String.string)
  (rows : list (list entry)) : Prop :=
  Forall (fun row => len row = len headers) rows.

(** The tables of a solve can be printed: every step table and the final
    table are built without an exception, with one row for every source
    (and one for the demand in a step table) and one entry for every
    header. *)
Definition printable (p : TransportationSolver) (method : String.string)
  (sol : solution) : Prop :=
  Forall (fun r =>
            exists title rows,
              _print_step_table p (step_no r) method (step_alloc r)
                (step_s r) (step_d r) = Ok (title, _make_headers p, rows) /\
              len rows = m p + 1 /\
              rectangular (_make_headers p) rows) (steps sol) /\
  exists rows,
    _print_final_allocation p (final_alloc sol)
    = Ok (removelast (_make_headers p), rows) /\
    len rows = m p /\
    rectangular (removelast (_make_headers p)) rows.

(** ** Numbering of the steps *)

(** The steps of [l] carry the numbers [k], [k + 1], ... in order. *)
Fixpoint numbered (k : Z) (l : list step_record) : Prop :=
  match l with
  | [] => True
  | r :: l' => step_no r = k /\ numbered (k + 1) l'
  end.

(** The counter of a work record is one more than the number of steps
    printed, which are numbered from 1. *)
Definition counted (w : work) : Prop :=
  numbered 1 (out w) /\ step w = len (out w) + 1.

(** ** The cost of a step *)

(** What the step adds to the cost equation: the truncated unit cost of
    its cell times its quantity, nothing for a quantity of 0 or for the
    dummy destination. *)
Definition step_term (p : TransportationSolver) (r : step_record) : Z :=
  if (0 <? step_x r) && negb (is_dummy p (step_j r))
  then py_int (cost p (step_i r) (step_j r)) * step_x r
  else 0.

(** ** The float total *)

(** The sum of the products of the terms in absolute value: while it is
    at most [2 ^ 53] the float total is exact. *)
Definition terms_weight (l : list (Z * Z)) : Z :=
  zsum (map (fun t => Z.abs (fst t * snd t)) l).

(** Every truncated unit cost is at most [cmax] in absolute value. *)
Definition costs_within (p : TransportationSolver) (cmax : Z) : Prop :=
  forall i j, 0 <= i < m p -> 0 <= j < n p ->
              Z.abs (py_int (cost p i j)) <= cmax.

(** The cost equation of [sol] was printed, with the terms of the final
    matrix and the whole number [t] as float total. *)
Definition exact_total (p : TransportationSolver) (sol : solution) (t : Z)
  : Prop :=
  equation sol
  = Returns (equation_terms p (final_alloc sol), Finite (inject_Z t)).

(** * Properties *)

(** ** Lists and subscripts *)

Lemma len_nonneg {A : Type} (l : list A) : 0 <= len l.
Proof. unfold len. lia. Qed.

Lemma len_app {A : Type} (l1 l2 : list A) : len (l1 ++ l2) = len l1 + len l2.
Proof. unfold len. rewrite length_app. lia. Qed.

Lemma len_cons {A : Type} (a : A) (l : list A) : len (a :: l) = len l + 1.
Proof. unfold len. simpl. lia. Qed.

Lemma len_map {A B : Type} (f : A -> B) (l : list A) : len (map f l) = len l.
Proof. unfold len. now rewrite length_map. Qed.

Lemma len_times {A : Type} (v : A) (k : Z) : 0 <= k -> len (times v k) = k.
Proof. intros Hk. unfold len, times. rewrite repeat_length. lia. Qed.

Lemma norm_index_in {A : Type} (l : list A) (i : Z) :
  0 <= i < len l -> norm_index l i = Some (Z.to_nat i).
Proof.
  intros [H0 H1]. unfold norm_index.
  apply Z.leb_le in H0. apply Z.ltb_lt in H1. now rewrite H0, H1.
Qed.

Lemma getitem_in {A : Type} (dflt : A) (l : list A) (i : Z) :
  0 <= i < len l -> getitem l i = Ok (at_ dflt l i).
Proof.
  intros Hi. unfold getitem, at_. rewrite norm_index_in by assumption.
  assert (Hk : (Z.to_nat i < length l)%nat) by (unfold len in Hi; lia).
  destruct (nth_error l (Z.to_nat i)) eqn:E.
  - now rewrite (nth_error_nth _ _ dflt E).
  - apply nth_error_None in E. lia.
Qed.

Lemma setitem_in {A : Type} (l : list A) (i : Z) (v : A) :
  0 <= i < len l -> setitem l i v = Ok (upd l i v).
Proof.
  intros Hi. unfold setitem, upd. now rewrite norm_index_in.
Qed.

Lemma length_replace_nth {A : Type} (k : nat) (l : list A) (v : A) :
  length (replace_nth k l v) = length l.
Proof.
  revert k. induction l as [|h t IH]; intros [|k]; simpl; auto.
Qed.

Lemma len_upd {A : Type} (l : list A) (i : Z) (v : A) :
  len (upd l i v) = len l.
Proof. unfold len, upd. now rewrite length_replace_nth. Qed.

Lemma nth_replace_nth_same {A : Type} (dflt : A) (k : nat) (l : list A) (v : A) :
  (k < length l)%nat -> nth k (replace_nth k l v) dflt = v.
Proof.
  revert k. induction l as [|h t IH]; intros [|k] Hk; simpl in *;
    try lia; auto. apply IH. lia.
Qed.

Lemma nth_replace_nth_other {A : Type} (dflt : A) (k k' : nat) (l : list A)
  (v : A) : k <> k' -> nth k' (replace_nth k l v) dflt = nth k' l dflt.
Proof.
  revert k k'. induction l as [|h t IH]; intros [|k] [|k'] Hne; simpl;
    try reflexivity; try congruence. apply IH. congruence.
Qed.

Lemma at_upd_same {A : Type} (dflt : A) (l : list A) (i : Z) (v : A) :
  0 <= i < len l -> at_ dflt (upd l i v) i = v.
Proof.
  intros Hi. unfold at_, upd. apply nth_replace_nth_same.
  unfold len in Hi. lia.
Qed.

Lemma at_upd_other {A : Type} (dflt : A) (l : list A) (i i' : Z) (v : A) :
  0 <= i -> 0 <= i' -> i <> i' -> at_ dflt (upd l i v) i' = at_ dflt l i'.
Proof.
  intros Hi Hi' Hne. unfold at_, upd. apply nth_replace_nth_other. lia.
Qed.

Lemma at_In {A : Type} (dflt : A) (l : list A) (i : Z) :
  0 <= i < len l -> In (at_ dflt l i) l.
Proof.
  intros Hi. unfold at_. apply nth_In. unfold len in Hi. lia.
Qed.

Lemma In_at {A : Type} (dflt : A) (l : list A) (a : A) :
  In a l -> exists i, 0 <= i < len l /\ at_ dflt l i = a.
Proof.
  intros Ha. destruct (In_nth l a dflt Ha) as [k [Hk Hn]].
  exists (Z.of_nat k). unfold at_, len. rewrite Nat2Z.id. split; [lia|auto].
Qed.

Lemma Forall_at {A : Type} (dflt : A) (P : A -> Prop) (l : list A) :
  Forall P l <-> (forall i, 0 <= i < len l -> P (at_ dflt l i)).
Proof.
  split.
  - intros HF i Hi. rewrite Forall_forall in HF. apply HF.
    now apply at_In.
  - intros H. apply Forall_forall. intros a Ha.
    destruct (In_at dflt l a Ha) as [i [Hi <-]]. now apply H.
Qed.

Lemma Forall_upd {A : Type} (P : A -> Prop) (l : list A) (i : Z) (v : A) :
  Forall P l -> P v -> Forall P (upd l i v).
Proof.
  unfold upd. generalize (Z.to_nat i) as k. intros k HF Hv. revert k.
  induction HF as [|h t Hh Ht IH]; intros [|k]; simpl; auto.
Qed.

Lemma list_ext_at {A : Type} (dflt : A) (l1 l2 : list A) :
  len l1 = len l2 ->
  (forall i, 0 <= i < len l1 -> at_ dflt l1 i = at_ dflt l2 i) -> l1 = l2.
Proof.
  intros Hlen H. apply (nth_ext l1 l2 dflt dflt).
  - unfold len in Hlen. lia.
  - intros k Hk. specialize (H (Z.of_nat k)). unfold at_ in H.
    rewrite Nat2Z.id in H. apply H. unfold len. lia.
Qed.

(** ** Sums *)

Lemma fold_left_add_shift (l : list Z) (a : Z) :
  fold_left Z.add l a = a + fold_left Z.add l 0.
Proof.
  revert a. induction l as [|h t IH]; intros a; simpl; [lia|].
  rewrite (IH (a + h)), (IH h). lia.
Qed.

Lemma zsum_nil : zsum [] = 0.
Proof. reflexivity. Qed.

Lemma zsum_cons (h : Z) (t : list Z) : zsum (h :: t) = h + zsum t.
Proof. unfold zsum. simpl. apply fold_left_add_shift. Qed.

Lemma zsum_app (l1 l2 : list Z) : zsum (l1 ++ l2) = zsum l1 + zsum l2.
Proof.
  induction l1 as [|h t IH].
  - rewrite app_nil_l, zsum_nil. lia.
  - rewrite <- app_comm_cons, !zsum_cons, IH. lia.
Qed.

Lemma zsum_replace_nth (k : nat) (l : list Z) (v : Z) :
  (k < length l)%nat ->
  zsum (replace_nth k l v) = zsum l - nth k l 0 + v.
Proof.
  revert k. induction l as [|h t IH]; intros [|k] Hk; simpl in *; try lia.
  - rewrite !zsum_cons. lia.
  - rewrite !zsum_cons, IH by lia. lia.
Qed.

Lemma zsum_upd (l : list Z) (i v : Z) :
  0 <= i < len l -> zsum (upd l i v) = zsum l - at_ 0 l i + v.
Proof.
  intros Hi. unfold upd, at_. apply zsum_replace_nth.
  unfold len in Hi. lia.
Qed.

Lemma zsum_nonneg (l : list Z) : nonneg l -> 0 <= zsum l.
Proof.
  induction 1 as [|h t Hh Ht IH]; [rewrite zsum_nil; lia|].
  rewrite zsum_cons. lia.
Qed.

Lemma zsum_zero_all (l : list Z) :
  nonneg l -> zsum l = 0 -> Forall (fun x => x = 0) l.
Proof.
  induction 1 as [|h t Hh Ht IH]; intros Hs; constructor;
    rewrite zsum_cons in Hs; pose proof (zsum_nonneg t Ht).
  - lia.
  - apply IH. lia.
Qed.

Lemma zsum_all_zero (l : list Z) : Forall (fun x => x = 0) l -> zsum l = 0.
Proof.
  induction 1 as [|h t Hh Ht IH]; [reflexivity|].
  rewrite zsum_cons. lia.
Qed.

Lemma zsum_ge_at (l : list Z) (i : Z) :
  nonneg l -> 0 <= i < len l -> at_ 0 l i <= zsum l.
Proof.
  intros Hn Hi. unfold at_. unfold len in Hi.
  assert (Hk : (Z.to_nat i < length l)%nat) by lia.
  revert Hk. generalize (Z.to_nat i) as k. clear Hi.
  induction Hn as [|h t Hh Ht IH]; intros [|k] Hk; simpl in *; try lia;
    rewrite zsum_cons; pose proof (zsum_nonneg t Ht).
  - lia.
  - specialize (IH k). lia.
Qed.

(** ** Ranges and loops *)

Lemma range_In (k i : Z) : In i (range k) <-> 0 <= i < k.
Proof.
  unfold range. rewrite in_map_iff. split.
  - intros [x [<- Hx]]. apply in_seq in Hx. lia.
  - intros Hi. exists (Z.to_nat i). split; [lia|]. apply in_seq. lia.
Qed.

Lemma range_succ (k : Z) : 0 <= k -> range (k + 1) = range k ++ [k].
Proof.
  intros Hk. unfold range.
  replace (Z.to_nat (k + 1)) with (Z.to_nat k + 1)%nat by lia.
  rewrite seq_app, map_app. simpl. now rewrite Z2Nat.id.
Qed.

Lemma range_len (k : Z) : 0 <= k -> len (range k) = k.
Proof.
  intros Hk. unfold len, range. rewrite length_map, length_seq. lia.
Qed.

Lemma range_at (k i : Z) : 0 <= i < k -> at_ 0 (range k) i = i.
Proof.
  intros Hi. unfold at_, range.
  rewrite (nth_indep _ 0 (Z.of_nat 0)) by (rewrite length_map, length_seq; lia).
  rewrite map_nth, seq_nth by lia. lia.
Qed.

(** A split of [range k] at [i]: the elements below [i], [i], those above. *)
Lemma range_split (k i : Z) :
  0 <= i < k ->
  exists post, range k = range i ++ i :: post /\
               (forall x, In x post <-> i < x < k).
Proof.
  intros Hi. exists (map Z.of_nat (seq (Z.to_nat i + 1) (Z.to_nat k - Z.to_nat i - 1))).
  split.
  - unfold range.
    replace (Z.to_nat k) with (Z.to_nat i + (1 + (Z.to_nat k - Z.to_nat i - 1)))%nat
      at 1 by lia.
    rewrite seq_app, map_app. f_equal.
    rewrite seq_app, map_app. simpl.
    rewrite Z2Nat.id by lia. reflexivity.
  - intros x. rewrite in_map_iff. split.
    + intros [y [<- Hy]]. apply in_seq in Hy. lia.
    + intros Hx. exists (Z.to_nat x). split; [lia|]. apply in_seq. lia.
Qed.

(** The loop rule for [for]: an invariant indexed by the elements already
    visited. *)
Lemma for_each_rule {S : Type} (Inv : list Z -> S -> Prop)
  (body : Z -> S -> res S) (l : list Z) :
  forall (seen : list Z) (st : S),
    Inv seen st ->
    (forall seen' i rest st',
        seen ++ l = seen' ++ i :: rest -> Inv seen' st' ->
        exists st'', body i st' = Ok st'' /\ Inv (seen' ++ [i]) st'') ->
    exists st', for_each l body st = Ok st' /\ Inv (seen ++ l) st'.
Proof.
  induction l as [|i l IH]; intros seen st Hinv Hstep; simpl.
  - exists st. rewrite app_nil_r. auto.
  - destruct (Hstep seen i l st eq_refl Hinv) as [st1 [E1 H1]].
    rewrite E1. simpl.
    destruct (IH (seen ++ [i]) st1 H1) as [st2 [E2 H2]].
    + intros seen' k rest st' Heq. apply (Hstep seen' k rest).
      rewrite <- Heq, <- app_assoc. reflexivity.
    + exists st2. rewrite <- app_assoc in H2. auto.
Qed.

(** The same over [range k], the invariant indexed by the next index. *)
Lemma for_range_rule {S : Type} (Inv : Z -> S -> Prop)
  (body : Z -> S -> res S) (k : Z) (st : S) :
  0 <= k ->
  Inv 0 st ->
  (forall i st', 0 <= i < k -> Inv i st' ->
                 exists st'', body i st' = Ok st'' /\ Inv (i + 1) st'') ->
  exists st', for_each (range k) body st = Ok st' /\ Inv k st'.
Proof.
  intros Hk H0 Hstep.
  destruct (for_each_rule (fun seen x => Inv (len seen) x) body (range k) [] st)
    as [st' [E H]].
  - exact H0.
  - intros seen' i rest st' Heq Hinv. simpl in Heq.
    assert (Hi : i = len seen' /\ 0 <= i < k).
    { assert (Hin : In i (range k)) by (rewrite Heq; apply in_elt).
      apply range_In in Hin. split; [|exact Hin].
      assert (Hat : at_ 0 (range k) (len seen') = i).
      { unfold at_, len. rewrite Nat2Z.id, Heq.
        now rewrite nth_middle. }
      rewrite <- Hat. apply range_at.
      pose proof (range_len k Hk) as Hl. rewrite Heq, len_app, len_cons in Hl.
      pose proof (len_nonneg seen'). pose proof (len_nonneg rest). lia. }
    destruct Hi as [-> Hi].
    destruct (Hstep _ st' Hi Hinv) as [st'' [E' H']].
    exists st''. split; [exact E'|]. rewrite len_app. exact H'.
  - exists st'. split; [exact E|]. simpl in H. now rewrite range_len in H.
Qed.

(** The loop rule for [while]: an invariant and a measure that bounds the
    number of iterations. *)
Lemma while_rule {S : Type} (Inv : S -> Prop) (mu : S -> nat)
  (cond : S -> res bool) (body : S -> res (option S)) :
  (forall st, Inv st ->
      exists b, cond st = Ok b /\
        (b = true ->
           exists r, body st = Ok r /\
             forall st', r = Some st' -> Inv st' /\ (mu st' < mu st)%nat)) ->
  forall (fuel : nat) (st : S),
    Inv st -> (mu st < fuel)%nat ->
    exists st', while fuel cond body st = Ok st' /\ Inv st' /\
      (cond st' = Ok false \/ (cond st' = Ok true /\ body st' = Ok None)).
Proof.
  intros Hstep. induction fuel as [|fuel IH]; intros st Hinv Hmu; [lia|].
  destruct (Hstep st Hinv) as [b [Ec Hb]]. simpl. rewrite Ec. simpl.
  destruct b.
  - destruct (Hb eq_refl) as [r [Er Hr]]. rewrite Er. simpl.
    destruct r as [st'|].
    + destruct (Hr st' eq_refl) as [Hinv' Hlt]. apply IH; [auto|lia].
    + exists st. auto.
  - exists st. auto.
Qed.

(** ** Balancing *)

Lemma new_cases (cost : list (list Q)) (sup dem : list Z) :
  (zsum dem < zsum sup /\
   new cost sup dem =
     mkSolver (map (fun row => row ++ [0%Q]) cost) sup
       (dem ++ [zsum sup - zsum dem]) (len sup) (len dem + 1)
       (zsum sup) (zsum dem) (Some dummy_demand)) \/
  (zsum sup < zsum dem /\
   new cost sup dem =
     mkSolver (cost ++ [times 0%Q (len dem)])
       (sup ++ [zsum dem - zsum sup]) dem (len sup + 1) (len dem)
       (zsum sup) (zsum dem) (Some dummy_supply)) \/
  (zsum sup = zsum dem /\
   new cost sup dem =
     mkSolver cost sup dem (len sup) (len dem) (zsum sup) (zsum dem) None).
Proof.
  unfold new, _balance_problem. cbn [total_supply total_demand cost_matrix
    supply demand m n dummy_type]. rewrite map_id.
  destruct (zsum dem <? zsum sup) eqn:E1.
  - left. apply Z.ltb_lt in E1. auto.
  - apply Z.ltb_ge in E1. destruct (zsum sup <? zsum dem) eqn:E2.
    + right. left. apply Z.ltb_lt in E2. auto.
    + right. right. apply Z.ltb_ge in E2. split; [lia|reflexivity].
Qed.

Lemma Forall_times {A : Type} (P : A -> Prop) (v : A) (k : Z) :
  P v -> Forall P (times v k).
Proof.
  intros Hv. unfold times. apply Forall_forall. intros x Hx.
  apply repeat_spec in Hx. now subst.
Qed.

(** C2. After construction the stored supply and demand have equal sums;
    the dummy is a destination exactly when supply exceeded demand (one
    demand entry equal to the difference is appended, and a zero cost to
    every row), a source exactly when demand exceeded supply (one supply
    entry equal to the difference and one row of zero costs are
    appended), and absent exactly when the totals were equal (nothing
    changes). *)
Theorem balance_invariant (cost : list (list Q)) (sup dem : list Z) :
  let p := new cost sup dem in
  zsum (supply p) = zsum (demand p) /\
  (dummy_type p = Some dummy_demand <-> zsum dem < zsum sup) /\
  (dummy_type p = Some dummy_supply <-> zsum sup < zsum dem) /\
  (dummy_type p = None <-> zsum sup = zsum dem) /\
  (dummy_type p = Some dummy_demand ->
     supply p = sup /\ m p = len sup /\
     demand p = dem ++ [zsum sup - zsum dem] /\ n p = len dem + 1 /\
     cost_matrix p = map (fun row => row ++ [0%Q]) cost) /\
  (dummy_type p = Some dummy_supply ->
     supply p = sup ++ [zsum dem - zsum sup] /\ m p = len sup + 1 /\
     demand p = dem /\ n p = len dem /\
     exists row, cost_matrix p = cost ++ [row] /\ len row = len dem /\
                 Forall (fun c => c = 0%Q) row) /\
  (dummy_type p = None ->
     supply p = sup /\ m p = len sup /\ demand p = dem /\ n p = len dem /\
     cost_matrix p = cost).
Proof.
  intros p. subst p.
  destruct (new_cases cost sup dem) as [[H ->]|[[H ->]|[H ->]]];
    cbn [total_supply total_demand cost_matrix supply demand m n dummy_type].
  - rewrite zsum_app, zsum_cons, zsum_nil.
    repeat split; intros; try discriminate; try congruence; try lia.
  - rewrite zsum_app, zsum_cons, zsum_nil.
    repeat split; intros; try discriminate; try congruence; try lia.
    exists (times 0%Q (len dem)). repeat split.
    + apply len_times, len_nonneg.
    + now apply Forall_times.
  - repeat split; intros; try discriminate; try congruence; try lia.
Qed.

Lemma new_problem (cost : list (list Q)) (sup dem : list Z) :
  valid_input cost sup dem -> problem (new cost sup dem).
Proof.
  intros (Hm & Hn & Hc & Hrows & Hs & Hd).
  destruct (new_cases cost sup dem) as [[H ->]|[[H ->]|[H ->]]];
    unfold problem, wf, balanced;
    cbn [total_supply total_demand cost_matrix supply demand m n dummy_type].
  - rewrite !len_app, len_map, zsum_app, zsum_cons, zsum_nil.
    change (len [zsum sup - zsum dem]) with 1.
    repeat split; try lia; auto.
    + apply Forall_forall. intros row Hrow. apply in_map_iff in Hrow.
      destruct Hrow as [r [<- Hr]]. rewrite len_app.
      rewrite Forall_forall in Hrows. rewrite (Hrows r Hr). reflexivity.
    + apply Forall_app. split; [exact Hd|]. constructor; [lia|constructor].
  - rewrite !len_app, zsum_app, zsum_cons, zsum_nil.
    change (len [zsum dem - zsum sup]) with 1.
    change (len [times 0%Q (len dem)]) with 1.
    repeat split; try lia; auto.
    + apply Forall_app. split; [exact Hrows|]. constructor; [|constructor].
      apply len_times, len_nonneg.
    + apply Forall_app. split; [exact Hs|]. constructor; [lia|constructor].
  - repeat split; try lia; auto.
Qed.

(** ** Chains of steps *)

Lemma final_nil (prev : snapshot) : final prev [] = prev.
Proof. reflexivity. Qed.

Lemma final_snoc (prev : snapshot) (l : list step_record) (r : step_record) :
  final prev (l ++ [r]) = after r.
Proof. unfold final. rewrite map_app. simpl. apply last_last. Qed.

Lemma last_cons {A : Type} (xs : list A) :
  forall x dflt, last (x :: xs) dflt = last xs x.
Proof.
  induction xs as [|y ys IH]; intros x dflt; [reflexivity|].
  change (last (x :: y :: ys) dflt) with (last (y :: ys) dflt).
  rewrite !IH. reflexivity.
Qed.

Lemma final_cons (prev : snapshot) (r : step_record) (l : list step_record) :
  final prev (r :: l) = final (after r) l.
Proof. unfold final. simpl map. apply last_cons. Qed.

Lemma chain_snoc (R : snapshot -> step_record -> Prop) (l : list step_record) :
  forall (prev : snapshot) (r : step_record),
    chain R prev (l ++ [r]) <-> chain R prev l /\ R (final prev l) r.
Proof.
  induction l as [|h t IH]; intros prev r; simpl.
  - rewrite final_nil. tauto.
  - rewrite IH, final_cons. tauto.
Qed.

Lemma chain_app (R : snapshot -> step_record -> Prop) (l1 l2 : list step_record) :
  forall prev, chain R prev (l1 ++ l2) <->
               chain R prev l1 /\ chain R (final prev l1) l2.
Proof.
  induction l1 as [|h t IH]; intros prev; simpl.
  - rewrite final_nil. tauto.
  - rewrite IH, final_cons. tauto.
Qed.

Lemma final_app (l1 l2 : list step_record) (prev : snapshot) :
  final prev (l1 ++ l2) = final (final prev l1) l2.
Proof.
  revert prev. induction l1 as [|h t IH]; intros prev.
  - reflexivity.
  - rewrite <- app_comm_cons, !final_cons. apply IH.
Qed.

(** A property of snapshots kept by every step holds along the chain and
    lets the step relation be strengthened. *)
Lemma chain_invariant (R R' : snapshot -> step_record -> Prop)
  (I : snapshot -> Prop) (l : list step_record) :
  (forall prev r, I prev -> R prev r -> I (after r) /\ R' prev r) ->
  forall prev, I prev -> chain R prev l ->
               chain R' prev l /\ I (final prev l).
Proof.
  intros Hstep. induction l as [|h t IH]; intros prev Hi Hc.
  - simpl. auto.
  - destruct Hc as [Hr Hc]. destruct (Hstep prev h Hi Hr) as [Hi' Hr'].
    destruct (IH (after h) Hi' Hc) as [Hc' Hf].
    rewrite final_cons. simpl. auto.
Qed.

(** ** Cells, rows and columns under an assignment *)

Lemma map_replace_nth {A B : Type} (f : A -> B) (k : nat) (l : list A) (v : A) :
  map f (replace_nth k l v) = replace_nth k (map f l) (f v).
Proof.
  revert k. induction l as [|h t IH]; intros [|k]; simpl; auto.
  now rewrite IH.
Qed.

Lemma cell_upd2_same (a : list (list Z)) (i j x : Z) :
  0 <= i < len a -> 0 <= j < len (at_ [] a i) -> cell (upd2 a i j x) i j = x.
Proof.
  intros Hi Hj. unfold cell, upd2. rewrite at_upd_same by assumption.
  now apply at_upd_same.
Qed.

Lemma cell_upd2_other (a : list (list Z)) (i j i' j' x : Z) :
  0 <= i < len a -> 0 <= j -> 0 <= i' -> 0 <= j' ->
  (i', j') <> (i, j) -> cell (upd2 a i j x) i' j' = cell a i' j'.
Proof.
  intros Hi Hj Hi' Hj' Hne. unfold cell, upd2.
  destruct (Z.eq_dec i i') as [<-|Hii].
  - rewrite at_upd_same by assumption. apply at_upd_other; try lia.
    intros ->. now apply Hne.
  - now rewrite at_upd_other by lia.
Qed.

Lemma rowsum_upd2_same (a : list (list Z)) (i j x : Z) :
  0 <= i < len a -> 0 <= j < len (at_ [] a i) ->
  rowsum (upd2 a i j x) i = rowsum a i - cell a i j + x.
Proof.
  intros Hi Hj. unfold rowsum, upd2, cell.
  rewrite at_upd_same by assumption. now apply zsum_upd.
Qed.

Lemma rowsum_upd2_other (a : list (list Z)) (i j i' x : Z) :
  0 <= i -> 0 <= i' -> i <> i' -> rowsum (upd2 a i j x) i' = rowsum a i'.
Proof.
  intros Hi Hi' Hne. unfold rowsum, upd2. now rewrite at_upd_other.
Qed.

Lemma nth_map_in {A B : Type} (f : A -> B) (da : A) (db : B) (l : list A) :
  forall k, (k < length l)%nat -> nth k (map f l) db = f (nth k l da).
Proof.
  induction l as [|h t IH]; intros [|k] Hk; simpl in *; try lia; auto.
  apply IH. lia.
Qed.

Lemma colsum_upd (a : list (list Z)) (i j : Z) (row : list Z) :
  0 <= i < len a ->
  colsum (upd a i row) j = colsum a j - cell a i j + at_ 0 row j.
Proof.
  intros Hi. unfold colsum, upd, cell. rewrite map_replace_nth.
  unfold len in Hi.
  rewrite zsum_replace_nth by (rewrite length_map; lia).
  rewrite (nth_map_in _ [] 0) by lia. reflexivity.
Qed.

Lemma colsum_upd2_same (a : list (list Z)) (i j x : Z) :
  0 <= i < len a -> 0 <= j < len (at_ [] a i) ->
  colsum (upd2 a i j x) j = colsum a j - cell a i j + x.
Proof.
  intros Hi Hj. unfold upd2. rewrite colsum_upd by assumption.
  now rewrite at_upd_same.
Qed.

Lemma colsum_upd2_other (a : list (list Z)) (i j j' x : Z) :
  0 <= i < len a -> 0 <= j -> 0 <= j' -> j <> j' ->
  colsum (upd2 a i j x) j' = colsum a j'.
Proof.
  intros Hi Hj Hj' Hne. unfold upd2. rewrite colsum_upd by assumption.
  rewrite at_upd_other by assumption. unfold cell. lia.
Qed.

Lemma at_times {A : Type} (dflt v : A) (k i : Z) :
  0 <= i < k -> at_ dflt (times v k) i = v.
Proof.
  intros Hi. unfold at_, times. apply nth_repeat_lt. lia.
Qed.

Lemma zsum_times_zero (k : Z) : zsum (times 0 k) = 0.
Proof.
  apply zsum_all_zero. now apply Forall_times.
Qed.

Lemma start_rows (p : TransportationSolver) (row : list Z) :
  In row (alloc (start p)) -> row = times 0 (n p).
Proof.
  unfold start. cbn [alloc]. rewrite in_map_iff. now intros [x [<- _]].
Qed.

Lemma start_at (p : TransportationSolver) (i : Z) :
  0 <= i < m p -> at_ [] (alloc (start p)) i = times 0 (n p).
Proof.
  intros Hi. apply start_rows. apply at_In.
  unfold start. cbn [alloc]. rewrite len_map, range_len; lia.
Qed.

Lemma start_cell (p : TransportationSolver) (i j : Z) :
  0 <= i < m p -> 0 <= j < n p -> cell (alloc (start p)) i j = 0.
Proof.
  intros Hi Hj. unfold cell. rewrite start_at by assumption.
  now apply at_times.
Qed.

Lemma colsum_zero (a : list (list Z)) (j : Z) :
  Forall (fun row => at_ 0 row j = 0) a -> colsum a j = 0.
Proof.
  intros H. unfold colsum. apply zsum_all_zero.
  apply Forall_map. exact H.
Qed.

(** ** Soundness of the snapshots *)

Lemma start_sound (p : TransportationSolver) : problem p -> sound p (snap0 p).
Proof.
  intros ((Hm & Hn & Hls & Hld & Hlc & Hrows) & Hbal & Hs & Hd).
  assert (Hrow : forall row, In row (alloc (start p)) -> row = times 0 (n p))
    by apply start_rows.
  constructor; cbn [snap0 fst snd]; auto.
  - unfold start. cbn [alloc]. rewrite len_map, range_len; lia.
  - apply Forall_forall. intros row Hin. rewrite (Hrow row Hin).
    apply len_times. lia.
  - apply Forall_forall. intros row Hin. rewrite (Hrow row Hin).
    apply Forall_times. lia.
  - intros i Hi. unfold rowsum. rewrite start_at by assumption.
    rewrite zsum_times_zero. lia.
  - intros j Hj. rewrite colsum_zero; [lia|].
    apply Forall_forall. intros row Hin. rewrite (Hrow row Hin).
    now apply at_times.
  - intros i j Hi Hj Hne. now rewrite start_cell in Hne.
Qed.

Lemma step_sound (p : TransportationSolver) (prev : snapshot)
  (r : step_record) :
  sound p prev -> allocation_step p prev r -> sound p (after r).
Proof.
  destruct prev as [[a sv] dv]. intros Hs Hstep.
  destruct Hs as [Hla Hrows Hls Hld Han Hsn Hdn Hbal Hrs Hcs Hused].
  cbn [fst snd] in *.
  destruct Hstep as (Hi & Hj & Hfresh & Hx & Ha & Hs' & Hd').
  set (i := step_i r) in *. set (j := step_j r) in *.
  set (x := step_x r) in *.
  assert (Hsi : 0 <= at_ 0 sv i).
  { apply (proj1 (Forall_at 0 _ sv) Hsn). lia. }
  assert (Hdj : 0 <= at_ 0 dv j).
  { apply (proj1 (Forall_at 0 _ dv) Hdn). lia. }
  assert (Hrow : len (at_ [] a i) = n p).
  { apply (proj1 (Forall_at [] _ a) Hrows). lia. }
  assert (Hia : 0 <= i < len a) by lia.
  assert (Hja : 0 <= j < len (at_ [] a i)) by lia.
  assert (Hx0 : 0 <= x) by lia.
  constructor; unfold after; cbn [fst snd]; rewrite ?Ha, ?Hs', ?Hd'.
  - unfold upd2. now rewrite len_upd.
  - unfold upd2. apply Forall_upd; [assumption|]. now rewrite len_upd.
  - now rewrite len_upd.
  - now rewrite len_upd.
  - unfold upd2. apply Forall_upd; [assumption|].
    apply Forall_upd; [|assumption].
    apply (proj1 (Forall_at [] _ a) Han). lia.
  - apply Forall_upd; [assumption|lia].
  - apply Forall_upd; [assumption|lia].
  - rewrite !zsum_upd by lia. lia.
  - intros i' Hi'. destruct (Z.eq_dec i i') as [<-|Hne].
    + rewrite rowsum_upd2_same, at_upd_same by lia.
      specialize (Hrs i Hi). lia.
    + rewrite rowsum_upd2_other, at_upd_other by lia. now apply Hrs.
  - intros j' Hj'. destruct (Z.eq_dec j j') as [<-|Hne].
    + rewrite colsum_upd2_same, at_upd_same by lia.
      specialize (Hcs j Hj). lia.
    + rewrite colsum_upd2_other, at_upd_other by lia. now apply Hcs.
  - intros i' j' Hi' Hj' Hcell.
    destruct (Z.eq_dec i i') as [<-|Hni].
    + rewrite at_upd_same by lia.
      destruct (Z.eq_dec j j') as [<-|Hnj].
      * rewrite at_upd_same by lia. lia.
      * rewrite at_upd_other by lia.
        rewrite cell_upd2_other in Hcell by (try lia; congruence).
        destruct (Hused i j' Hi Hj' Hcell) as [H0|H0]; lia.
    + rewrite at_upd_other by lia.
      rewrite cell_upd2_other in Hcell by (try lia; congruence).
      destruct (Z.eq_dec j j') as [<-|Hnj].
      * rewrite at_upd_same by lia.
        destruct (Hused i' j Hi' Hj Hcell) as [H0|H0]; lia.
      * rewrite at_upd_other by lia. now apply Hused.
Qed.

Lemma chain_sound (p : TransportationSolver) (l : list step_record) :
  problem p -> chain (allocation_step p) (snap0 p) l ->
  sound p (final (snap0 p) l).
Proof.
  intros Hp Hc.
  apply (chain_invariant (allocation_step p) (fun _ _ => True) (sound p) l);
    auto using start_sound.
  intros prev r Hs Hr. split; [|exact I]. now apply (step_sound p prev).
Qed.

Lemma tracked_sound (p : TransportationSolver) (w : work) :
  problem p -> tracked p w -> sound p (snap_of w).
Proof.
  intros Hp [Hc Hf]. rewrite <- Hf. now apply chain_sound.
Qed.

Lemma start_tracked (p : TransportationSolver) : tracked p (start p).
Proof. split; [exact I|reflexivity]. Qed.

(** [allocate] on valid subscripts. *)
Lemma allocate_in (w : work) (i j : Z) :
  0 <= i < len (s w) -> 0 <= j < len (d w) -> 0 <= i < len (alloc w) ->
  0 <= j < len (at_ [] (alloc w) i) ->
  allocate w i j = Ok (allocated w i j).
Proof.
  intros Hs Hd Ha Hr. unfold allocate, allocated.
  rewrite (getitem_in 0 (s w)) by assumption. cbn [bind].
  rewrite (getitem_in 0 (d w)) by assumption. cbn [bind].
  rewrite (getitem_in [] (alloc w)) by assumption. cbn [bind].
  rewrite setitem_in by assumption. cbn [bind].
  rewrite setitem_in by assumption. cbn [bind].
  rewrite setitem_in by assumption. cbn [bind].
  rewrite setitem_in by assumption. cbn [bind].
  reflexivity.
Qed.

(** One allocation on an empty cell keeps the loop invariant. *)
Lemma allocate_tracked (p : TransportationSolver) (w : work) (i j : Z) :
  problem p -> tracked p w ->
  0 <= i < m p -> 0 <= j < n p -> cell (alloc w) i j = 0 ->
  allocate w i j = Ok (allocated w i j) /\ tracked p (allocated w i j).
Proof.
  intros Hp Ht Hi Hj Hfresh.
  pose proof (tracked_sound p w Hp Ht) as Hs.
  destruct Hs as [Hla Hrows Hls Hld _ _ _ _ _ _ _].
  unfold snap_of in *. cbn [fst snd] in *.
  assert (Hrow : len (at_ [] (alloc w) i) = n p).
  { apply (proj1 (Forall_at [] _ _) Hrows). lia. }
  split.
  - apply allocate_in; lia.
  - destruct Ht as [Hc Hf]. unfold tracked, allocated. cbn [out alloc s d].
    split.
    + apply chain_snoc. split; [exact Hc|]. rewrite Hf.
      unfold allocation_step, snap_of. cbn [step_i step_j step_x step_alloc
        step_s step_d]. repeat split; auto; lia.
    + rewrite final_snoc. reflexivity.
Qed.

(** ** Exhaustion gives feasibility *)

Lemma all_zero_at (v : list Z) (k : Z) :
  Forall (fun x => x = 0) v -> at_ 0 v k = 0.
Proof.
  intros H. unfold at_.
  destruct (nth_in_or_default (Z.to_nat k) v 0) as [Hin| ->]; [|reflexivity].
  rewrite Forall_forall in H. now apply H.
Qed.

Lemma total_rows (a : list (list Z)) (v : list Z) :
  len a = len v ->
  (forall i, 0 <= i < len a -> rowsum a i = at_ 0 v i) -> total a = zsum v.
Proof.
  intros Hlen H. unfold total. f_equal. apply (list_ext_at 0).
  - now rewrite len_map.
  - rewrite len_map. intros i Hi. rewrite <- (H i Hi).
    unfold rowsum, at_. apply (nth_map_in zsum [] 0). unfold len in Hi. lia.
Qed.

Lemma sound_exhausted (p : TransportationSolver) (sn : snapshot) :
  problem p -> sound p sn ->
  Forall (fun x => x = 0) (snd (fst sn)) \/ Forall (fun x => x = 0) (snd sn) ->
  Forall (fun x => x = 0) (snd (fst sn)) /\ Forall (fun x => x = 0) (snd sn) /\
  feasible p (fst (fst sn)).
Proof.
  intros (Hwf & Hbal & _) Hs Hz.
  destruct Hs as [Hla Hrows Hls Hld Han Hsn Hdn Hb Hrs Hcs Hused].
  assert (Hboth : Forall (fun x => x = 0) (snd (fst sn)) /\
                  Forall (fun x => x = 0) (snd sn)).
  { destruct Hz as [Hz|Hz]; pose proof (zsum_all_zero _ Hz) as H0; split;
      auto; apply zsum_zero_all; auto; lia. }
  destruct Hboth as [Hs0 Hd0]. split; [exact Hs0|]. split; [exact Hd0|].
  destruct Hwf as (_ & _ & Hlsup & Hldem & _ & _).
  assert (Hr : forall i, 0 <= i < m p ->
                 rowsum (fst (fst sn)) i = at_ 0 (supply p) i).
  { intros i Hi. specialize (Hrs i Hi).
    rewrite (all_zero_at _ i Hs0) in Hrs. lia. }
  repeat split.
  - exact Hr.
  - intros j Hj. specialize (Hcs j Hj).
    rewrite (all_zero_at _ j Hd0) in Hcs. lia.
  - apply total_rows; [lia|]. intros i Hi. apply Hr. lia.
  - rewrite <- Hbal. apply total_rows; [lia|]. intros i Hi. apply Hr. lia.
Qed.

(** ** North-West Corner: the loop *)

Lemma nwc_cursor_snoc (p : TransportationSolver) (l : list step_record)
  (r : step_record) :
  forall i j,
    nwc_cursor p i j (l ++ [r]) =
    nwc_advance p (step_s r) (step_d r)
      (fst (nwc_cursor p i j l)) (snd (nwc_cursor p i j l)).
Proof.
  induction l as [|h t IH]; intros i j; simpl.
  - now destruct (nwc_advance p (step_s r) (step_d r) i j).
  - destruct (nwc_advance p (step_s h) (step_d h) i j) as [i' j']. apply IH.
Qed.

Lemma nwc_visits_snoc (p : TransportationSolver) (l : list step_record)
  (r : step_record) :
  forall i j,
    nwc_visits p i j (l ++ [r]) <->
    nwc_visits p i j l /\
    fst (nwc_cursor p i j l) < m p /\ snd (nwc_cursor p i j l) < n p /\
    step_i r = fst (nwc_cursor p i j l) /\
    step_j r = snd (nwc_cursor p i j l).
Proof.
  induction l as [|h t IH]; intros i j; simpl.
  - destruct (nwc_advance p (step_s r) (step_d r) i j). tauto.
  - destruct (nwc_advance p (step_s h) (step_d h) i j) as [i' j'].
    rewrite IH. tauto.
Qed.

(** After an allocation the cursor moves by one row or one column. *)
Lemma nwc_advance_moves (p : TransportationSolver) (sv dv : list Z) (i j : Z) :
  at_ 0 sv i = 0 \/ at_ 0 dv j = 0 ->
  (nwc_advance p sv dv i j = (i + 1, j) /\ at_ 0 sv i = 0) \/
  (nwc_advance p sv dv i j = (i, j + 1) /\ at_ 0 dv j = 0).
Proof.
  intros H. unfold nwc_advance.
  destruct (at_ 0 sv i =? 0) eqn:E1; destruct (at_ 0 dv j =? 0) eqn:E2;
    cbn [andb].
  - apply Z.eqb_eq in E1, E2. destruct (j + 1 <? n p); auto.
  - apply Z.eqb_eq in E1. auto.
  - apply Z.eqb_eq in E2. auto.
  - apply Z.eqb_neq in E1, E2. tauto.
Qed.

Lemma nwc_body_eq (p : TransportationSolver) (w : work) (i j : Z) :
  problem p -> tracked p w ->
  0 <= i < m p -> 0 <= j < n p -> cell (alloc w) i j = 0 ->
  let w' := allocated w i j in
  nwc_body p (w, i, j) =
  Ok (Some (w', fst (nwc_advance p (s w') (d w') i j),
                snd (nwc_advance p (s w') (d w') i j))).
Proof.
  intros Hp Ht Hi Hj Hfresh. cbv zeta.
  destruct (allocate_tracked p w i j Hp Ht Hi Hj Hfresh) as [Ea Ht'].
  pose proof (tracked_sound p _ Hp Ht') as Hs'.
  destruct Hs' as [_ _ Hls Hld _ _ _ _ _ _ _]. cbn [snap_of fst snd] in *.
  unfold nwc_body. rewrite Ea. cbn [bind].
  set (w' := allocated w i j) in *.
  rewrite (getitem_in 0 (s w')) by lia. cbn [bind].
  rewrite (getitem_in 0 (d w')) by lia. cbn [bind].
  unfold nwc_advance.
  destruct (at_ 0 (s w') i =? 0); destruct (at_ 0 (d w') j =? 0); cbn [andb];
    try reflexivity.
  destruct (j + 1 <? n p); reflexivity.
Qed.

(** The smaller of the two remaining values is taken off both, so one of
    them is exhausted. *)
Lemma allocated_exhausts (p : TransportationSolver) (w : work) (i j : Z) :
  problem p -> tracked p w -> 0 <= i < m p -> 0 <= j < n p ->
  at_ 0 (s (allocated w i j)) i = 0 \/ at_ 0 (d (allocated w i j)) j = 0.
Proof.
  intros Hp Ht Hi Hj. pose proof (tracked_sound p w Hp Ht) as Hs.
  destruct Hs as [_ _ Hls Hld _ _ _ _ _ _ _]. cbn [snap_of fst snd] in *.
  unfold allocated. cbn [s d]. rewrite !at_upd_same by lia. lia.
Qed.

Lemma nwc_step_inv (p : TransportationSolver) (st : work * Z * Z) :
  problem p -> nwc_inv p st ->
  exists b, nwc_cond p st = Ok b /\
    (b = true ->
       exists r, nwc_body p st = Ok r /\
         forall st', r = Some st' ->
           nwc_inv p st' /\ (nwc_measure p st' < nwc_measure p st)%nat).
Proof.
  intros Hp Hinv. destruct st as [[w i] j].
  destruct Hinv as (Ht & Hi & Hj & Hrows & Hcols & Hfresh & Hvis & Hcur).
  unfold nwc_cond. eexists. split; [reflexivity|]. intros Hb.
  apply andb_true_iff in Hb. destruct Hb as [Hb1 Hb2].
  apply Z.ltb_lt in Hb1, Hb2.
  assert (Hi' : 0 <= i < m p) by lia. assert (Hj' : 0 <= j < n p) by lia.
  assert (Hcell : cell (alloc w) i j = 0) by (apply Hfresh; lia).
  pose proof (nwc_body_eq p w i j Hp Ht Hi' Hj' Hcell) as Hbody.
  cbv zeta in Hbody.
  destruct (allocate_tracked p w i j Hp Ht Hi' Hj' Hcell) as [_ Ht'].
  pose proof (tracked_sound p w Hp Ht) as Hs.
  destruct Hs as [Hla Hrws Hls Hld _ _ _ _ _ _ _]. cbn [snap_of fst snd] in *.
  assert (Hrow : len (at_ [] (alloc w) i) = n p).
  { apply (proj1 (Forall_at [] _ _) Hrws). lia. }
  pose proof (allocated_exhausts p w i j Hp Ht Hi' Hj') as Hex.
  set (w' := allocated w i j) in *.
  assert (Hsw : forall i', 0 <= i' -> i' <> i -> at_ 0 (s w') i' = at_ 0 (s w) i').
  { intros i' H0 Hne. unfold w', allocated. cbn [s].
    apply at_upd_other; lia. }
  assert (Hdw : forall j', 0 <= j' -> j' <> j -> at_ 0 (d w') j' = at_ 0 (d w) j').
  { intros j' H0 Hne. unfold w', allocated. cbn [d].
    apply at_upd_other; lia. }
  assert (Hcw : forall i' j', 0 <= i' -> 0 <= j' -> (i', j') <> (i, j) ->
                  cell (alloc w') i' j' = cell (alloc w) i' j').
  { intros i' j' H0 H1 Hne. unfold w', allocated. cbn [alloc].
    apply cell_upd2_other; auto; lia. }
  assert (Hout : exists x, out w' = out w ++
            [mkStep (step w) i j x (alloc w') (s w') (d w')]).
  { eexists. unfold w', allocated. cbn [out alloc s d]. reflexivity. }
  destruct Hout as [x Hout]. clearbody w'.
  eexists. split; [exact Hbody|]. clear Hbody.
  intros st' Hst'. injection Hst' as <-.
  assert (Hvis' : nwc_visits p 0 0 (out w')).
  { rewrite Hout. apply nwc_visits_snoc. rewrite Hcur. cbn [fst snd step_i step_j].
    repeat split; auto; lia. }
  assert (Hcur' : nwc_cursor p 0 0 (out w') = nwc_advance p (s w') (d w') i j).
  { rewrite Hout, nwc_cursor_snoc, Hcur. reflexivity. }
  destruct (nwc_advance_moves p (s w') (d w') i j Hex) as [[E H0]|[E H0]];
    rewrite E in *; cbn [fst snd nwc_inv nwc_measure].
  - split; [|lia].
    refine (conj Ht' (conj _ (conj Hj (conj _ (conj _ (conj _ (conj Hvis' Hcur'))))))).
    + lia.
    + intros i' Hlt. destruct (Z.eq_dec i' i) as [->|Hne]; [exact H0|].
      rewrite Hsw by lia. apply Hrows. lia.
    + intros j' Hlt. rewrite Hdw by lia. now apply Hcols.
    + intros i' j' Hlt1 Hlt2. rewrite Hcw; [apply Hfresh| | |]; try lia.
      intros Heq. injection Heq. lia.
  - split; [|lia].
    refine (conj Ht' (conj Hi (conj _ (conj _ (conj _ (conj _ (conj Hvis' Hcur'))))))).
    + lia.
    + intros i' Hlt. rewrite Hsw by lia. now apply Hrows.
    + intros j' Hlt. destruct (Z.eq_dec j' j) as [->|Hne]; [exact H0|].
      rewrite Hdw by lia. apply Hcols. lia.
    + intros i' j' Hlt1 Hlt2. rewrite Hcw; [apply Hfresh| | |]; try lia.
      intros Heq. injection Heq. lia.
Qed.

(** ** The cost evaluator *)

Lemma cost_at_in (p : TransportationSolver) (i j : Z) :
  wf p -> 0 <= i < m p -> 0 <= j < n p -> cost_at p i j = Ok (cost p i j).
Proof.
  intros (_ & _ & _ & _ & Hlc & Hrows) Hi Hj. unfold cost_at, cost.
  rewrite (getitem_in [] (cost_matrix p)) by lia. cbn [bind].
  apply getitem_in.
  rewrite (proj1 (Forall_at [] _ _) Hrows) by lia. exact Hj.
Qed.

Lemma cell_in (a : list (list Z)) (i j : Z) (rows cols : Z) :
  len a = rows -> Forall (fun row => len row = cols) a ->
  0 <= i < rows -> 0 <= j < cols ->
  (row <- getitem a i ;; getitem row j) = Ok (cell a i j).
Proof.
  intros Hla Hrows Hi Hj. unfold cell.
  rewrite (getitem_in [] a) by lia. cbn [bind].
  apply getitem_in. rewrite (proj1 (Forall_at [] _ _) Hrows) by lia. exact Hj.
Qed.

Lemma row_terms_succ (p : TransportationSolver) (a : list (list Z)) (i j : Z) :
  0 <= j ->
  row_terms p a i (range (j + 1)) =
  row_terms p a i (range j) ++
  (if printed p a i j then [(py_int (cost p i j), cell a i j)] else []).
Proof.
  intros Hj. unfold row_terms. rewrite range_succ by assumption.
  rewrite flat_map_app. cbn [flat_map]. now rewrite app_nil_r.
Qed.

Lemma add_terms_raised (l : list (Z * Z)) :
  fold_left add_term l (@OverflowError (list (Z * Z) * float))
  = OverflowError.
Proof. induction l as [|t l IH]; [reflexivity|exact IH]. Qed.

(** One row of the evaluator: the terms of the row are added in turn. *)
Lemma cost_equation_row (p : TransportationSolver) (a : list (list Z))
  (i : Z) (acc : outcome (list (Z * Z) * float)) :
  wf p -> shaped p a -> 0 <= i < m p ->
  for_each (range (n p)) (fun j acc =>
    match acc with
    | OverflowError => Ok acc
    | Returns _ =>
        row <- getitem a i ;;
        q <- getitem row j ;;
        if (0 <? q) && negb (is_dummy p j) then
          cq <- cost_at p i j ;;
          Ok (add_term acc (py_int cq, q))
        else Ok acc
    end) acc
  = Ok (fold_left add_term (row_terms p a i (range (n p))) acc).
Proof.
  intros Hwf [Hla Hrows] Hi.
  assert (Hn : 0 <= n p) by (destruct Hwf as (_ & ? & _); lia).
  match goal with |- for_each _ ?body _ = _ =>
    destruct (for_range_rule
      (fun j st => st = fold_left add_term (row_terms p a i (range j)) acc)
      body (n p) acc Hn) as [st [E H]]
  end.
  - reflexivity.
  - intros j st Hj ->.
    rewrite row_terms_succ, fold_left_app by lia.
    set (st := fold_left add_term (row_terms p a i (range j)) acc).
    destruct st as [v|].
    + pose proof (cell_in a i j (m p) (n p) Hla Hrows Hi Hj) as Hc.
      destruct (getitem a i) as [row| |]; cbn [bind] in Hc |- *;
        try discriminate.
      rewrite Hc. cbn [bind]. unfold printed.
      destruct ((0 <? cell a i j) && negb (is_dummy p j)).
      * rewrite (cost_at_in p i j Hwf Hi Hj). cbn [bind].
        eexists. split; reflexivity.
      * eexists. split; reflexivity.
    + eexists. split; [reflexivity|]. now rewrite add_terms_raised.
  - rewrite E, H. reflexivity.
Qed.

(** On a matrix of the right shape the evaluator reads every cell without
    error and ends as [evaluation] says. *)
Lemma cost_equation_eval (p : TransportationSolver) (a : list (list Z)) :
  wf p -> shaped p a -> _print_cost_equation p a = Ok (evaluation p a).
Proof.
  intros Hwf Hsh.
  assert (Hm : 0 <= m p) by (destruct Hwf as (? & _); lia).
  unfold _print_cost_equation, evaluation, equation_terms.
  match goal with |- bind (for_each _ ?body _) _ = _ =>
    destruct (for_range_rule
      (fun i st =>
         st = fold_left add_term
                (flat_map (fun i => row_terms p a i (range (n p))) (range i))
                (Returns ([], Finite 0)))
      body (m p) (Returns ([], Finite 0)) Hm) as [st [E H]]
  end.
  - reflexivity.
  - intros i st Hi ->.
    rewrite (cost_equation_row p a i _ Hwf Hsh Hi).
    eexists. split; [reflexivity|].
    rewrite range_succ, flat_map_app, fold_left_app by lia.
    cbn [flat_map]. now rewrite app_nil_r.
  - rewrite E, H. reflexivity.
Qed.

Lemma finish_ok (p : TransportationSolver) (w : work) :
  wf p -> shaped p (alloc w) ->
  finish p w = Ok (mkSolution (alloc w) (out w) (evaluation p (alloc w))).
Proof.
  intros Hwf Hsh. unfold finish.
  rewrite (cost_equation_eval p (alloc w) Hwf Hsh). reflexivity.
Qed.

Lemma sound_shaped (p : TransportationSolver) (sn : snapshot) :
  sound p sn -> shaped p (fst (fst sn)).
Proof. intros Hs. split; [apply (snd_len_a p sn Hs)|apply (snd_rows p sn Hs)]. Qed.

(** ** Loops with fuel *)

(** More fuel does not change the result of a loop. *)
Lemma while_mono {S : Type} (cond : S -> res bool)
  (body : S -> res (option S)) (fuel : nat) :
  forall (fuel' : nat) (st r : S),
    while fuel cond body st = Ok r -> (fuel <= fuel')%nat ->
    while fuel' cond body st = Ok r.
Proof.
  induction fuel as [|fuel IH]; intros fuel' st r Hw Hle.
  - destruct fuel'; simpl in *; destruct (cond st) as [[|]| |];
      simpl in *; try discriminate; auto.
  - destruct fuel' as [|fuel']; [lia|]. simpl in *.
    destruct (cond st) as [[|]| |]; simpl in *; try discriminate; auto.
    destruct (body st) as [[st'|]| |]; simpl in *; try discriminate; auto.
    apply IH; [exact Hw|lia].
Qed.

(** A loop with an invariant and a bounded measure has one result for
    all sufficient fuel. *)
Lemma while_total {S : Type} (Inv : S -> Prop) (mu : S -> nat)
  (cond : S -> res bool) (body : S -> res (option S)) (st : S) :
  (forall st, Inv st ->
      exists b, cond st = Ok b /\
        (b = true ->
           exists r, body st = Ok r /\
             forall st', r = Some st' -> Inv st' /\ (mu st' < mu st)%nat)) ->
  Inv st ->
  exists st',
    (forall fuel, (mu st < fuel)%nat -> while fuel cond body st = Ok st') /\
    Inv st' /\
    (cond st' = Ok false \/ (cond st' = Ok true /\ body st' = Ok None)).
Proof.
  intros Hstep Hinv.
  destruct (while_rule Inv mu cond body Hstep (Datatypes.S (mu st)) st Hinv)
    as [st' [E [Hinv' Hexit]]]; [lia|].
  exists st'. split; [|auto]. intros fuel Hf.
  apply (while_mono cond body (Datatypes.S (mu st))); [exact E|lia].
Qed.

Lemma all_zero_below (v : list Z) :
  (forall k, 0 <= k < len v -> at_ 0 v k = 0) -> all_zero v.
Proof. intros H. now apply (Forall_at 0). Qed.

(** ** North-West Corner: the solve *)

Lemma nwc_start_inv (p : TransportationSolver) :
  problem p -> nwc_inv p (start p, 0, 0).
Proof.
  intros Hp. pose proof Hp as ((Hm & Hn & _) & _).
  refine (conj (start_tracked p) _). repeat split; try lia.
  intros i' j' Hi' Hj'. apply start_cell; lia.
Qed.

Lemma nwc_solved (p : TransportationSolver) :
  problem p ->
  exists sol,
    (forall fuel, enough p fuel -> solve_nwc fuel p = Ok sol) /\
    solved p sol /\
    nwc_visits p 0 0 (steps sol) /\
    (fst (nwc_cursor p 0 0 (steps sol)) = m p \/
     snd (nwc_cursor p 0 0 (steps sol)) = n p).
Proof.
  intros Hp. pose proof Hp as (Hwf & _).
  destruct (while_total (nwc_inv p) (nwc_measure p) (nwc_cond p) (nwc_body p)
              (start p, 0, 0)) as [[[w i] j] [Hrun [Hinv Hexit]]].
  - intros st. now apply nwc_step_inv.
  - now apply nwc_start_inv.
  - destruct Hinv as (Ht & Hi & Hj & Hrows & Hcols & Hfresh & Hvis & Hcur).
    pose proof (tracked_sound p w Hp Ht) as Hs.
    pose proof (finish_ok p w Hwf (sound_shaped p _ Hs)) as Efin.
    assert (Hend : i = m p \/ j = n p).
    { destruct Hexit as [Hc|[Hc Hb]].
      - unfold nwc_cond in Hc. injection Hc as Hc.
        apply andb_false_iff in Hc. destruct Hc as [Hc|Hc];
          apply Z.ltb_ge in Hc; lia.
      - exfalso. unfold nwc_cond in Hc. injection Hc as Hc.
        apply andb_true_iff in Hc. destruct Hc as [Hc1 Hc2].
        apply Z.ltb_lt in Hc1, Hc2.
        assert (Hcell : cell (alloc w) i j = 0) by (apply Hfresh; lia).
        rewrite (nwc_body_eq p w i j Hp Ht) in Hb by (auto; lia).
        discriminate. }
    assert (Hz : all_zero (s w) \/ all_zero (d w)).
    { destruct Hs as [_ _ Hls Hld _ _ _ _ _ _ _]. cbn [snap_of fst snd] in *.
      destruct Hend as [-> | ->]; [left|right]; apply all_zero_below;
        intros k Hk; [apply Hrows|apply Hcols]; lia. }
    destruct (sound_exhausted p _ Hp Hs Hz) as (Hs0 & Hd0 & _).
    eexists. split; [|split; [|split]].
    + intros fuel Hf. unfold solve_nwc. rewrite Hrun.
      * cbn [bind]. exact Efin.
      * unfold enough in Hf. unfold nwc_measure.
        replace (m p - 0 + (n p - 0)) with (m p + n p) by lia. exact Hf.
    + destruct Ht as [Hc Hf]. cbn [steps final_alloc equation].
      split; [exact Hc|]. split; [|reflexivity].
      exists (s w), (d w). auto.
    + exact Hvis.
    + cbn [steps]. rewrite Hcur. exact Hend.
Qed.

(** ** Scanning for a minimum *)

Lemma Qltb_true (a b : Q) : Qltb a b = true <-> (a < b)%Q.
Proof.
  unfold Qltb. rewrite negb_true_iff. split.
  - intros H. apply Qnot_le_lt. intros Hle.
    apply Qle_bool_iff in Hle. congruence.
  - intros H. destruct (Qle_bool b a) eqn:E; [|reflexivity].
    apply Qle_bool_iff in E. exfalso. apply (Qlt_not_le _ _ H E).
Qed.

Lemma Qltb_false (a b : Q) : Qltb a b = false <-> (b <= a)%Q.
Proof.
  unfold Qltb. rewrite negb_false_iff. apply Qle_bool_iff.
Qed.

Section MinScan.

(** The scans of the source share one shape: candidates are visited in
    row-major order and a cost replaces the best one only when strictly
    smaller. *)
Variable p : TransportationSolver.
Variable cand : Z -> Z -> Prop.

(** One candidate more: the comparison [c < min_cost] keeps the scan
    state. *)
Lemma min_scanned_visit (pos pos' : Z * Z) (best : Z * Z * option Q) :
  min_scanned p cand pos best ->
  cand (fst pos) (snd pos) ->
  before pos pos' ->
  (forall i' j', cand i' j' -> before (i', j') pos' ->
                 before (i', j') pos \/ (i', j') = pos) ->
  min_scanned p cand pos'
    (if lt_min (cost p (fst pos) (snd pos)) (snd best)
     then (fst pos, snd pos, Some (cost p (fst pos) (snd pos)))
     else best).
Proof.
  destruct pos as [i j]. cbn [fst snd].
  intros Hscan Hc Hlt Hnext.
  destruct Hscan as [[-> Hnone]|(bi & bj & -> & Hb & Hbpos & Hmin)];
    cbn [snd lt_min].
  - right. exists i, j. repeat split; auto.
    + destruct (Hnext i' j' H H0) as [Hbef|Heq].
      * exfalso. now apply (Hnone i' j').
      * injection Heq as -> ->. apply Qle_refl.
    + intros Hbef. exfalso. apply (Hnone i' j' H). exact Hbef.
  - destruct (Qltb (cost p i j) (cost p bi bj)) eqn:E.
    + apply Qltb_true in E. right. exists i, j. repeat split; auto.
      * destruct (Hnext i' j' H H0) as [Hbef|Heq].
        -- destruct (Hmin i' j' H Hbef) as [Hle _]. lra.
        -- injection Heq as -> ->. apply Qle_refl.
      * intros Hbef. destruct (Hmin i' j' H Hbef) as [Hle _]. lra.
    + apply Qltb_false in E. right. exists bi, bj.
      split; [reflexivity|]. split; [exact Hb|]. split.
      * unfold before in *. cbn [fst snd] in *. lia.
      * intros i' j' Hc' Hbef'.
        destruct (Hnext i' j' Hc' Hbef') as [Hbef|Heq].
        -- now apply Hmin.
        -- injection Heq as -> ->. split; [exact E|].
           intros Hcontra. exfalso. unfold before in *. cbn [fst snd] in *. lia.
Qed.

(** A position that is not a candidate is passed over. *)
Lemma min_scanned_skip (pos pos' : Z * Z) (best : Z * Z * option Q) :
  min_scanned p cand pos best ->
  before pos pos' ->
  (forall i' j', cand i' j' -> before (i', j') pos' -> before (i', j') pos) ->
  min_scanned p cand pos' best.
Proof.
  intros Hscan Hlt Hnext.
  destruct Hscan as [[-> Hnone]|(bi & bj & -> & Hb & Hbpos & Hmin)].
  - left. split; [reflexivity|]. intros i' j' Hc Hbef.
    apply (Hnone i' j' Hc). now apply Hnext.
  - right. exists bi, bj. split; [reflexivity|]. split; [exact Hb|]. split.
    + unfold before in *. lia.
    + intros i' j' Hc Hbef. apply Hmin; auto.
Qed.

(** At the end of a scan the best cell is the first of least cost. *)
Lemma min_scanned_done (pos : Z * Z) (best : Z * Z * option Q) :
  min_scanned p cand pos best ->
  (forall i' j', cand i' j' -> before (i', j') pos) ->
  (best = (-1, -1, None) /\ forall i' j', ~ cand i' j') \/
  (exists i j, best = (i, j, Some (cost p i j)) /\ first_least p cand i j).
Proof.
  intros Hscan Hall.
  destruct Hscan as [[-> Hnone]|(bi & bj & -> & Hb & Hbpos & Hmin)].
  - left. split; [reflexivity|]. intros i' j' Hc.
    apply (Hnone i' j' Hc). now apply Hall.
  - right. exists bi, bj. split; [reflexivity|]. split; [exact Hb|].
    intros i' j' Hc. apply Hmin; auto.
Qed.

End MinScan.

(** ** Least Cost: the cell search *)

Lemma if_Ok {A : Type} (b : bool) (x y : A) :
  (if b then Ok x else Ok y) = Ok (if b then x else y).
Proof. now destruct b. Qed.

Lemma find_min_cost_spec (p : TransportationSolver) (sv dv : list Z) (ex : Z) :
  wf p -> len sv = m p -> len dv = n p ->
  exists best,
    _find_min_cost p sv dv ex = Ok best /\
    ((best = (-1, -1, None) /\ forall i j, ~ eligible p sv dv ex i j) \/
     (exists i j, best = (i, j, Some (cost p i j)) /\
                  first_least p (eligible p sv dv ex) i j)).
Proof.
  intros Hwf Hls Hld. pose proof Hwf as (Hm & Hn & _).
  set (cand := eligible p sv dv ex).
  unfold _find_min_cost.
  match goal with |- exists _, for_each _ ?body _ = _ /\ _ =>
    destruct (for_range_rule (fun i best => min_scanned p cand (i, 0) best)
                body (m p) (-1, -1, None)) as [best [E H]]
  end.
  - lia.
  - left. split; [reflexivity|]. intros i' j' (Hi' & Hj' & _).
    unfold before. cbn [fst snd]. lia.
  - intros i best Hi Hinv.
    rewrite (getitem_in 0 sv) by lia. cbn [bind].
    destruct (at_ 0 sv i =? 0) eqn:Esi.
    + apply Z.eqb_eq in Esi. eexists. split; [reflexivity|].
      apply (min_scanned_skip p cand (i, 0)); auto.
      * unfold before. cbn [fst snd]. lia.
      * intros i' j' (Hi' & Hj' & Hs' & _). unfold before. cbn [fst snd].
        intros Hb. assert (i' <> i) by congruence. lia.
    + apply Z.eqb_neq in Esi.
      match goal with |- exists _, for_each _ ?body _ = _ /\ _ =>
        destruct (for_range_rule (fun j best => min_scanned p cand (i, j) best)
                    body (n p) best) as [best' [E' H']]
      end.
      * lia.
      * exact Hinv.
      * intros j bst Hj Hinvj.
        rewrite (getitem_in 0 dv) by lia. cbn [bind].
        destruct ((at_ 0 dv j =? 0) || (j =? ex)) eqn:Eskip.
        -- eexists. split; [reflexivity|].
           apply (min_scanned_skip p cand (i, j)); auto.
           ++ unfold before. cbn [fst snd]. lia.
           ++ intros i' j' (Hi' & Hj' & Hs' & Hd' & Hex). unfold before.
              cbn [fst snd]. intros Hb.
              apply orb_true_iff in Eskip.
              assert (~ (i' = i /\ j' = j)).
              { intros [-> ->]. destruct Eskip as [Ez|Ez].
                - apply Z.eqb_eq in Ez. contradiction.
                - apply Z.eqb_eq in Ez. contradiction. }
              lia.
        -- apply orb_false_iff in Eskip. destruct Eskip as [Ed Ee].
           apply Z.eqb_neq in Ed, Ee.
           rewrite (cost_at_in p i j Hwf Hi Hj). cbn [bind].
           rewrite if_Ok. eexists. split; [reflexivity|].
           apply (min_scanned_visit p cand (i, j) (i, j + 1)); auto.
           ++ cbn [fst snd]. unfold cand, eligible. repeat split; auto; lia.
           ++ unfold before. cbn [fst snd]. lia.
           ++ intros i' j' _. unfold before. cbn [fst snd]. intros Hb.
              destruct (Z.eq_dec i' i) as [->|Hne]; [|left; lia].
              destruct (Z.eq_dec j' j) as [->|Hnj]; [right; reflexivity|].
              left. lia.
      * exists best'. split; [exact E'|].
        apply (min_scanned_skip p cand (i, n p)); auto.
        -- unfold before. cbn [fst snd]. lia.
        -- intros i' j' (Hi' & Hj' & _). unfold before. cbn [fst snd]. lia.
  - exists best. split; [exact E|].
    apply (min_scanned_done p cand (m p, 0)); auto.
    intros i' j' (Hi' & Hj' & _). unfold before. cbn [fst snd]. lia.
Qed.

(** ** Counting what is left *)

Lemma ind_range (x : Z) : 0 <= ind x <= 1.
Proof. unfold ind. destruct (0 <? x); lia. Qed.

Lemma ind_pos (x : Z) : 0 < x -> ind x = 1.
Proof. intros H. unfold ind. apply Z.ltb_lt in H. now rewrite H. Qed.

Lemma ind_nonpos (x : Z) : x <= 0 -> ind x = 0.
Proof. intros H. unfold ind. apply Z.ltb_ge in H. now rewrite H. Qed.

Lemma npos_bounds (v : list Z) : 0 <= npos v <= len v.
Proof.
  unfold npos. induction v as [|h t IH]; [cbn; lia|].
  cbn [map]. rewrite zsum_cons, len_cons. pose proof (ind_range h). lia.
Qed.

Lemma npos_upd (v : list Z) (i y : Z) :
  0 <= i < len v -> npos (upd v i y) = npos v - ind (at_ 0 v i) + ind y.
Proof.
  intros Hi. unfold npos, upd. rewrite map_replace_nth.
  unfold len in Hi. rewrite zsum_replace_nth by (rewrite length_map; lia).
  unfold at_. rewrite (nth_map_in ind 0 0) by lia. reflexivity.
Qed.

Lemma npos_at_pos (v : list Z) (i : Z) :
  0 <= i < len v -> 0 < at_ 0 v i -> 1 <= npos v.
Proof.
  intros Hi Hpos. pose proof (npos_upd v i 0 Hi) as H.
  pose proof (npos_bounds (upd v i 0)). rewrite (ind_pos _ Hpos) in H.
  rewrite (ind_nonpos 0) in H by lia. lia.
Qed.

(** ** Loops over [any] *)

Lemma py_any_spec (l : list Z) (f : Z -> res bool) (g : Z -> bool) :
  (forall i, In i l -> f i = Ok (g i)) -> py_any l f = Ok (existsb g l).
Proof.
  induction l as [|h t IH]; intros H; [reflexivity|].
  cbn [py_any existsb]. rewrite (H h) by (left; reflexivity). cbn [bind].
  destruct (g h); [reflexivity|]. apply IH. intros i Hi. apply H. now right.
Qed.

Lemma lcm_cond_spec (p : TransportationSolver) (w : work) :
  wf p -> len (d w) = n p ->
  lcm_cond p w =
  Ok (existsb (fun j => 0 <? at_ 0 (d w) j) (range (real_cols p))).
Proof.
  intros Hwf Hld. unfold lcm_cond. fold (real_cols p).
  apply py_any_spec. intros j Hj. apply range_In in Hj.
  assert (real_cols p <= n p) by (unfold real_cols; destruct (0 <=? dummy_col p); lia).
  rewrite (getitem_in 0 (d w)) by lia. reflexivity.
Qed.

Lemma existsb_range_true (g : Z -> bool) (k : Z) :
  existsb g (range k) = true <-> exists j, 0 <= j < k /\ g j = true.
Proof.
  rewrite existsb_exists. split; intros [j [Hj Hg]]; exists j;
    (split; [now apply range_In|exact Hg]).
Qed.

Lemma existsb_range_false (g : Z -> bool) (k : Z) :
  existsb g (range k) = false <-> forall j, 0 <= j < k -> g j = false.
Proof.
  split.
  - intros H j Hj. destruct (g j) eqn:E; [|reflexivity].
    assert (Ht : existsb g (range k) = true)
      by (apply existsb_range_true; eauto).
    congruence.
  - intros H. destruct (existsb g (range k)) eqn:E; [|reflexivity].
    apply existsb_range_true in E. destruct E as [j [Hj Hg]].
    rewrite (H j Hj) in Hg. discriminate.
Qed.

(** ** Least Cost: the main loop *)

Lemma eligible_available (p : TransportationSolver) (sv dv : list Z) (ex : Z)
  (i j : Z) :
  nonneg sv -> nonneg dv -> len sv = m p -> len dv = n p ->
  (eligible p sv dv ex i j <-> available p sv dv ex i j).
Proof.
  intros Hs Hd Hls Hld. unfold eligible, available.
  split; intros (Hi & Hj & Hsi & Hdj & Hex); repeat split; try lia.
  - pose proof (proj1 (Forall_at 0 _ sv) Hs i). lia.
  - pose proof (proj1 (Forall_at 0 _ dv) Hd j). lia.
Qed.

Lemma first_least_ext (p : TransportationSolver) (cand cand' : Z -> Z -> Prop)
  (i j : Z) :
  (forall i' j', cand i' j' <-> cand' i' j') ->
  first_least p cand i j -> first_least p cand' i j.
Proof.
  intros Hext [Hc Hmin]. split; [now apply Hext|].
  intros i' j' Hc'. apply Hmin. now apply Hext.
Qed.

(** An allocation on an available cell has a positive quantity and leaves
    fewer positive entries. *)
Lemma allocated_positive (p : TransportationSolver) (w : work) (i j : Z) :
  problem p -> tracked p w ->
  0 <= i < m p -> 0 <= j < n p ->
  0 < at_ 0 (s w) i -> 0 < at_ 0 (d w) j ->
  cell (alloc w) i j = 0 /\
  0 < Z.min (at_ 0 (s w) i) (at_ 0 (d w) j) /\
  npos (s (allocated w i j)) + npos (d (allocated w i j)) <
  npos (s w) + npos (d w).
Proof.
  intros Hp Ht Hi Hj Hsi Hdj. pose proof (tracked_sound p w Hp Ht) as Hs.
  destruct Hs as [_ _ Hls Hld _ _ _ _ _ _ Hused]. cbn [snap_of fst snd] in *.
  split; [|split; [lia|]].
  - destruct (Z.eq_dec (cell (alloc w) i j) 0) as [E|E]; [exact E|].
    destruct (Hused i j Hi Hj E); lia.
  - unfold allocated. cbn [s d]. rewrite !npos_upd by lia.
    rewrite (ind_pos _ Hsi), (ind_pos _ Hdj).
    destruct (Z.le_ge_cases (at_ 0 (s w) i) (at_ 0 (d w) j)) as [Hle|Hge].
    + rewrite Z.min_l by lia. rewrite (ind_nonpos (_ - _)) by lia.
      pose proof (ind_range (at_ 0 (d w) j - at_ 0 (s w) i)). lia.
    + rewrite Z.min_r by lia. rewrite (ind_nonpos (at_ 0 (d w) j - _)) by lia.
      pose proof (ind_range (at_ 0 (s w) i - at_ 0 (d w) j)). lia.
Qed.

Lemma lcm_body_spec (p : TransportationSolver) (w : work) :
  problem p -> lcm_inv p w ->
  (lcm_body p w = Ok None /\
   forall i j, ~ available p (s w) (d w) (dummy_col p) i j) \/
  (exists i j,
     lcm_body p w = Ok (Some (allocated w i j)) /\
     first_least p (available p (s w) (d w) (dummy_col p)) i j).
Proof.
  intros Hp (Ht & Hpick & Hpos). pose proof Hp as (Hwf & _).
  pose proof (tracked_sound p w Hp Ht) as Hs.
  destruct Hs as [_ _ Hls Hld _ Hsn Hdn _ _ _ Hused]. cbn [snap_of fst snd] in *.
  pose proof (eligible_available p (s w) (d w) (dummy_col p)) as Hea.
  destruct (find_min_cost_spec p (s w) (d w) (dummy_col p) Hwf Hls Hld)
    as [best [E [[-> Hnone]|(i & j & -> & Hfl)]]]; unfold lcm_body; rewrite E;
    cbn [bind].
  - left. split; [reflexivity|]. intros i j Hav. apply (Hnone i j).
    now apply Hea.
  - right. exists i, j.
    apply (first_least_ext p _ (available p (s w) (d w) (dummy_col p))) in Hfl;
      [|intros; now apply Hea].
    split; [|exact Hfl].
    destruct Hfl as [(Hi & Hj & Hsi & Hdj & _) _].
    destruct (i =? -1) eqn:Ei; [apply Z.eqb_eq in Ei; lia|].
    destruct (allocated_positive p w i j Hp Ht Hi Hj Hsi Hdj) as [Hcell _].
    destruct (allocate_tracked p w i j Hp Ht Hi Hj Hcell) as [-> _].
    reflexivity.
Qed.

Lemma lcm_step_inv (p : TransportationSolver) (w : work) :
  problem p -> lcm_inv p w ->
  exists b, lcm_cond p w = Ok b /\
    (b = true ->
       exists r, lcm_body p w = Ok r /\
         forall w', r = Some w' ->
           lcm_inv p w' /\ (lcm_measure w' < lcm_measure w)%nat).
Proof.
  intros Hp Hinv. pose proof Hp as (Hwf & _).
  pose proof Hinv as (Ht & Hpick & Hpos).
  pose proof (tracked_sound p w Hp Ht) as Hs.
  destruct Hs as [_ _ Hls Hld _ Hsn Hdn _ _ _ Hused]. cbn [snap_of fst snd] in *.
  eexists. split; [apply (lcm_cond_spec p w Hwf Hld)|]. intros Hb.
  apply existsb_range_true in Hb. destruct Hb as [j0 [Hj0 Hd0]].
  apply Z.ltb_lt in Hd0.
  destruct (lcm_body_spec p w Hp Hinv) as [[E _]|(i & j & E & Hfl)].
  - exists None. split; [exact E|]. intros w' Hw'. discriminate.
  - eexists. split; [exact E|]. intros w' Hw'. injection Hw' as <-.
    pose proof Hfl as [(Hi & Hj & Hsi & Hdj & _) _].
    destruct (allocated_positive p w i j Hp Ht Hi Hj Hsi Hdj)
      as (Hcell & Hx & Hlt).
    destruct (allocate_tracked p w i j Hp Ht Hi Hj Hcell) as [_ Ht'].
    split.
    + split; [exact Ht'|]. destruct Ht as [_ Hf].
      unfold allocated. cbn [out]. split.
      * apply chain_snoc. split; [exact Hpick|]. rewrite Hf.
        split; cbn [snap_of fst snd step_i step_j]; eauto.
      * apply Forall_app. split; [exact Hpos|].
        constructor; [exact Hx|constructor].
    + unfold lcm_measure.
      pose proof (npos_bounds (s (allocated w i j))).
      pose proof (npos_bounds (d (allocated w i j))). lia.
Qed.

(** ** Least Cost: the dummy column *)

Lemma zsum_single (v : list Z) (j : Z) :
  0 <= j < len v ->
  (forall k, 0 <= k < len v -> k <> j -> at_ 0 v k = 0) ->
  zsum v = at_ 0 v j.
Proof.
  intros Hj H. pose proof (zsum_upd v j 0 Hj) as Hu.
  assert (Hz : zsum (upd v j 0) = 0).
  { apply zsum_all_zero. apply (Forall_at 0). rewrite len_upd. intros k Hk.
    destruct (Z.eq_dec j k) as [<-|Hne].
    - now rewrite at_upd_same.
    - rewrite at_upd_other by lia. apply H; [lia|congruence]. }
  lia.
Qed.

Lemma rows_increase_snoc (l : list step_record) (r : step_record) (i : Z) :
  forall i0,
    rows_increase i0 l -> Forall (fun r' => step_i r' < i) l ->
    i0 <= step_i r -> i <= step_i r -> rows_increase i0 (l ++ [r]).
Proof.
  induction l as [|h t IH]; intros i0 Hinc Hlt H0 Hi; simpl.
  - auto.
  - destruct Hinc as [Hh Ht]. inversion Hlt as [|? ? Hh' Ht']; subst.
    split; [exact Hh|]. apply IH; auto. lia.
Qed.

Lemma dummy_col_cases (p : TransportationSolver) :
  wf p ->
  (dummy_col p = -1 /\ real_cols p = n p) \/
  (dummy_col p = n p - 1 /\ real_cols p = n p - 1).
Proof.
  intros (_ & Hn & _). unfold real_cols, dummy_col.
  destruct (dummy_type p) as [[|]|].
  - left. cbn. split; lia.
  - right. destruct (0 <=? n p - 1) eqn:E.
    + split; reflexivity.
    + apply Z.leb_gt in E. lia.
  - left. cbn. split; lia.
Qed.

Lemma lcm_drain_step (p : TransportationSolver) (w0 w : work) (i : Z) :
  problem p -> tracked p w0 -> dummy_col p = n p - 1 ->
  0 <= i < m p -> drain_inv p w0 i w ->
  exists w',
    (si <- getitem (s w) i ;;
     if 0 <? si then
       dd <- getitem (d w) (dummy_col p) ;;
       if 0 <? dd then allocate w i (dummy_col p) else Ok w
     else Ok w) = Ok w' /\
    drain_inv p w0 (i + 1) w'.
Proof.
  intros Hp Ht0 Hdc Hi (Ht & Hpos & Hreal & Hdone & l2 & Hout & Hch & Hinc & Hlt).
  pose proof Hp as ((_ & Hn & _) & _).
  pose proof (tracked_sound p w Hp Ht) as Hs.
  destruct Hs as [_ _ Hls Hld _ Hsn Hdn Hbal _ _ _]. cbn [snap_of fst snd] in *.
  rewrite Hdc.
  assert (Hj : 0 <= n p - 1 < n p) by lia.
  rewrite (getitem_in 0 (s w)) by lia. cbn [bind].
  assert (Hsi : 0 <= at_ 0 (s w) i).
  { apply (proj1 (Forall_at 0 _ _) Hsn). lia. }
  destruct (0 <? at_ 0 (s w) i) eqn:Epos.
  - apply Z.ltb_lt in Epos.
    rewrite (getitem_in 0 (d w)) by lia. cbn [bind].
    assert (Hdd : at_ 0 (s w) i <= at_ 0 (d w) (n p - 1)).
    { rewrite <- (zsum_single (d w) (n p - 1)), <- Hbal; try lia.
      - apply zsum_ge_at; [exact Hsn|lia].
      - intros k Hk Hne. apply Hreal. lia. }
    assert (Hddpos : 0 < at_ 0 (d w) (n p - 1)) by lia.
    apply Z.ltb_lt in Hddpos. rewrite Hddpos. apply Z.ltb_lt in Hddpos.
    destruct (allocated_positive p w i (n p - 1) Hp Ht Hi Hj Epos Hddpos)
      as (Hcell & Hx & _).
    destruct (allocate_tracked p w i (n p - 1) Hp Ht Hi Hj Hcell) as [Ea Ht'].
    exists (allocated w i (n p - 1)). split; [exact Ea|].
    split; [exact Ht'|]. unfold allocated. cbn [out s d].
    rewrite Z.min_l in * by lia.
    split; [|split; [|split]].
    + apply Forall_app. split; [exact Hpos|].
      constructor; [cbn [step_x]; lia|constructor].
    + intros j Hjr. rewrite at_upd_other by lia. now apply Hreal.
    + intros i' Hi'. destruct (Z.eq_dec i i') as [<-|Hne].
      * rewrite at_upd_same by lia. lia.
      * rewrite at_upd_other by lia. apply Hdone. lia.
    + eexists. split; [rewrite Hout, <- app_assoc; reflexivity|].
      split; [|split].
      * apply chain_snoc. split; [exact Hch|].
        assert (Hfin : final (snap_of w0) l2 = snap_of w).
        { destruct Ht0 as [_ Hf0]. destruct Ht as [_ Hf].
          rewrite <- Hf0, <- final_app, <- Hout. exact Hf. }
        rewrite Hfin. unfold drain_pick, snap_of.
        cbn [fst snd step_i step_j]. repeat split; auto; lia.
      * apply (rows_increase_snoc l2 _ i); auto; cbn [step_i]; lia.
      * apply Forall_app. split.
        -- apply (Forall_impl _ (P := fun r => step_i r < i)); [|exact Hlt].
           intros r Hr. lia.
        -- constructor; [cbn [step_i]; lia|constructor].
  - apply Z.ltb_ge in Epos. exists w. split; [reflexivity|].
    split; [exact Ht|]. split; [exact Hpos|]. split; [exact Hreal|]. split.
    + intros i' Hi'. destruct (Z.eq_dec i i') as [<-|Hne]; [lia|].
      apply Hdone. lia.
    + exists l2. refine (conj Hout (conj Hch (conj Hinc _))).
      apply (Forall_impl _ (P := fun r => step_i r < i)); [|exact Hlt].
      intros r Hr. lia.
Qed.

Lemma lcm_drain_spec (p : TransportationSolver) (w0 : work) :
  problem p -> tracked p w0 -> positive_steps (out w0) ->
  (forall j, 0 <= j < real_cols p -> at_ 0 (d w0) j = 0) ->
  exists w l2,
    lcm_drain p w0 = Ok w /\
    tracked p w /\ positive_steps (out w) /\ all_zero (s w) /\
    out w = out w0 ++ l2 /\
    chain (drain_pick p) (snap_of w0) l2 /\
    rows_increase 0 l2 /\
    (dummy_col p < 0 -> l2 = []).
Proof.
  intros Hp Ht0 Hpos0 Hreal. pose proof Hp as (Hwf & _).
  pose proof Hwf as (Hm & Hn & _).
  pose proof (tracked_sound p w0 Hp Ht0) as Hs0.
  unfold lcm_drain.
  destruct (dummy_col_cases p Hwf) as [[Hdc Hrc]|[Hdc Hrc]].
  - rewrite Hdc. cbn. exists w0, []. rewrite app_nil_r.
    refine (conj eq_refl (conj Ht0 (conj Hpos0 (conj _ (conj eq_refl
              (conj I (conj I (fun _ => eq_refl)))))))).
    destruct (sound_exhausted p _ Hp Hs0) as (Hz & _); [|exact Hz].
    right. apply all_zero_below. intros k Hk. apply Hreal.
    rewrite Hrc. rewrite <- (snd_len_d p _ Hs0). exact Hk.
  - assert (E : (0 <=? dummy_col p) = true) by (apply Z.leb_le; lia).
    rewrite E.
    match goal with |- exists _ _, for_each _ ?body _ = _ /\ _ =>
      destruct (for_range_rule (drain_inv p w0) body (m p) w0)
        as [w [Ew Hinv]]
    end.
    + lia.
    + split; [exact Ht0|]. split; [exact Hpos0|]. split.
      * intros j Hj. apply Hreal. lia.
      * split; [intros i' Hi'; lia|]. exists []. rewrite app_nil_r.
        refine (conj eq_refl (conj I (conj I _))). constructor.
    + intros i w Hi Hinv. now apply (lcm_drain_step p w0 w i).
    + destruct Hinv as (Ht & Hpos & _ & Hdone & l2 & Hout & Hch & Hinc & _).
      exists w, l2.
      refine (conj Ew (conj Ht (conj Hpos (conj _ (conj Hout (conj Hch
                (conj Hinc _))))))); [|lia].
      apply all_zero_below. intros k Hk. apply Hdone.
      pose proof (tracked_sound p w Hp Ht) as Hs.
      rewrite <- (snd_len_s p _ Hs). exact Hk.
Qed.

(** ** Least Cost: the solve *)

Lemma lcm_measure_start (p : TransportationSolver) (fuel : nat) :
  wf p -> enough p fuel -> (lcm_measure (start p) < fuel)%nat.
Proof.
  intros (_ & _ & Hls & Hld & _) Hf. unfold enough in Hf.
  unfold lcm_measure, start. cbn [s d].
  pose proof (npos_bounds (supply p)). pose proof (npos_bounds (demand p)).
  lia.
Qed.

(** When the main loop stops, no real destination has demand left. *)
Lemma lcm_exit_real (p : TransportationSolver) (w : work) :
  problem p -> lcm_inv p w ->
  lcm_cond p w = Ok false \/ (lcm_cond p w = Ok true /\ lcm_body p w = Ok None) ->
  forall j, 0 <= j < real_cols p -> at_ 0 (d w) j = 0.
Proof.
  intros Hp Hinv Hexit. pose proof Hp as (Hwf & _).
  pose proof Hinv as (Ht & _).
  pose proof (tracked_sound p w Hp Ht) as Hs.
  pose proof Hs as [_ _ Hls Hld _ Hsn Hdn _ _ _ _]. cbn [snap_of fst snd] in *.
  assert (Hrc : real_cols p <= n p).
  { destruct (dummy_col_cases p Hwf) as [[_ ->]|[_ ->]]; lia. }
  rewrite (lcm_cond_spec p w Hwf Hld) in Hexit.
  destruct Hexit as [Hc|[Hc Hb]]; injection Hc as Hc.
  - intros j Hj. pose proof (proj1 (existsb_range_false _ _) Hc j Hj) as Hz.
    apply Z.ltb_ge in Hz.
    pose proof (proj1 (Forall_at 0 _ _) Hdn j). lia.
  - apply existsb_range_true in Hc. destruct Hc as (j0 & Hj0 & Hd0).
    apply Z.ltb_lt in Hd0.
    destruct (lcm_body_spec p w Hp Hinv) as [[_ Hnone]|(i & j & E & _)];
      [|rewrite E in Hb; discriminate].
    assert (Hs0 : all_zero (s w)).
    { apply all_zero_below. intros i Hi.
      pose proof (proj1 (Forall_at 0 _ _) Hsn i Hi) as H0. cbv beta in H0.
      destruct (Z.eq_dec (at_ 0 (s w) i) 0) as [Ez|Ez]; [exact Ez|].
      exfalso. apply (Hnone i j0). unfold available.
      destruct (dummy_col_cases p Hwf) as [[Hdc Hrc']|[Hdc Hrc']];
        repeat split; try lia. }
    destruct (sound_exhausted p _ Hp Hs (or_introl Hs0)) as (_ & Hd0' & _).
    intros j Hj. now apply all_zero_at.
Qed.

Lemma lcm_solved (p : TransportationSolver) :
  problem p ->
  exists sol main drain,
    (forall fuel, enough p fuel -> solve_least_cost fuel p = Ok sol) /\
    solved p sol /\
    positive_steps (steps sol) /\
    steps sol = main ++ drain /\
    chain (lcm_pick p) (snap0 p) main /\
    (forall j, 0 <= j < real_cols p ->
               at_ 0 (snd (final (snap0 p) main)) j = 0) /\
    chain (drain_pick p) (final (snap0 p) main) drain /\
    rows_increase 0 drain /\
    (dummy_col p < 0 -> drain = []).
Proof.
  intros Hp. pose proof Hp as (Hwf & _).
  destruct (while_total (lcm_inv p) lcm_measure (lcm_cond p) (lcm_body p)
              (start p)) as [w0 [Hrun [Hinv Hexit]]].
  - intros w. now apply lcm_step_inv.
  - split; [apply start_tracked|]. split; [exact I|constructor].
  - pose proof Hinv as (Ht0 & Hpick & Hpos0).
    pose proof (lcm_exit_real p w0 Hp Hinv Hexit) as Hreal.
    destruct (lcm_drain_spec p w0 Hp Ht0 Hpos0 Hreal)
      as (w & l2 & Edrain & Ht & Hpos & Hz & Hout & Hch & Hinc & Hnil).
    pose proof (tracked_sound p w Hp Ht) as Hs.
    pose proof (finish_ok p w Hwf (sound_shaped p _ Hs)) as Efin.
    destruct (sound_exhausted p _ Hp Hs (or_introl Hz)) as (_ & Hd0 & _).
    destruct Ht0 as [_ Hf0].
    eexists. exists (out w0), l2.
    split; [|split; [|split; [|split; [|split; [|split; [|split; [|split]]]]]]].
    + intros fuel Hf. unfold solve_least_cost.
      rewrite Hrun by (now apply lcm_measure_start).
      cbn [bind]. rewrite Edrain. cbn [bind]. exact Efin.
    + destruct Ht as [Hc Hf]. cbn [steps final_alloc equation].
      split; [exact Hc|]. split; [|reflexivity].
      exists (s w), (d w). auto.
    + exact Hpos.
    + exact Hout.
    + exact Hpick.
    + rewrite Hf0. exact Hreal.
    + rewrite Hf0. exact Hch.
    + exact Hinc.
    + exact Hnil.
Qed.

(** ** Sorting the candidate costs *)

Lemma insert_perm (c : Q) (l : list Q) : Permutation (insert c l) (c :: l).
Proof.
  induction l as [|h t IH]; simpl; [apply Permutation_refl|].
  destruct (Qle_bool c h); [apply Permutation_refl|].
  apply perm_trans with (h :: c :: t); [now apply perm_skip|apply perm_swap].
Qed.

Lemma sort_perm (l : list Q) : Permutation (sort l) l.
Proof.
  induction l as [|h t IH]; simpl; [apply perm_nil|].
  apply perm_trans with (h :: sort t); [apply insert_perm|now apply perm_skip].
Qed.

Lemma insert_ascending (c : Q) (l : list Q) :
  ascending l -> ascending (insert c l).
Proof.
  induction l as [|h t IH]; intros Hasc; simpl.
  - split; [constructor|exact I].
  - destruct Hasc as [Hh Ht]. destruct (Qle_bool c h) eqn:E.
    + apply Qle_bool_iff in E. split; [|split; assumption].
      constructor; [exact E|].
      apply (Forall_impl _ (P := fun x => (h <= x)%Q)); [|exact Hh].
      intros x Hx. apply (Qle_trans _ h); assumption.
    + assert (Hhc : (h <= c)%Q).
      { destruct (Qlt_le_dec h c) as [Hlt|Hle]; [now apply Qlt_le_weak|].
        apply Qle_bool_iff in Hle. congruence. }
      split; [|now apply IH].
      eapply Permutation_Forall.
      * apply Permutation_sym, insert_perm.
      * constructor; assumption.
Qed.

Lemma sort_ascending (l : list Q) : ascending (sort l).
Proof.
  induction l as [|h t IH]; simpl; [exact I|]. now apply insert_ascending.
Qed.

Lemma sort_len (l : list Q) : len (sort l) = len l.
Proof. unfold len. now rewrite (Permutation_length (sort_perm l)). Qed.

(** ** Floats *)

Lemma half_even_nonneg (num den : Z) :
  0 <= num -> 0 < den -> 0 <= half_even num den.
Proof.
  intros Hn Hd. unfold half_even.
  pose proof (Z.div_pos num den Hn Hd).
  repeat match goal with |- context [if ?b then _ else _] => destruct b end;
    lia.
Qed.

Lemma nearest_nonneg (n d : positive) : 0 <= fst (nearest n d).
Proof.
  unfold nearest. cbn [fst].
  destruct (0 <=? Z.max (floor_log2 n d - 52) (-1074)) eqn:E.
  - apply half_even_nonneg; [lia|]. apply Z.leb_le in E.
    apply Z.mul_pos_pos; [lia|]. now apply Z.pow_pos_nonneg.
  - apply half_even_nonneg; [|lia]. apply Z.leb_gt in E.
    apply Z.mul_nonneg_nonneg; [lia|]. apply Z.pow_nonneg. lia.
Qed.

Lemma dyadic_nonneg (k e : Z) : 0 <= k -> (0 <= dyadic k e)%Q.
Proof.
  intros Hk. unfold dyadic. destruct (0 <=? e) eqn:E.
  - apply Z.leb_le in E. rewrite <- (Zle_Qle 0).
    apply Z.mul_nonneg_nonneg; [exact Hk|]. now apply Z.pow_nonneg.
  - rewrite Qred_correct. unfold Qle. cbn. lia.
Qed.

(** The order of the floats, case by case. *)
Ltac float_cases :=
  unfold flt, fle, fltb in *;
  repeat match goal with
         | x : float |- _ => destruct x as [?|[|]]
         end;
  cbn [negb andb] in *;
  repeat match goal with
         | H : Qltb _ _ = true |- _ => apply Qltb_true in H
         | H : Qltb _ _ = false |- _ => apply Qltb_false in H
         | |- Qltb _ _ = true => apply Qltb_true
         | |- Qltb _ _ = false => apply Qltb_false
         end;
  try discriminate; try reflexivity; try lra.

Lemma fle_refl (a : float) : fle a a.
Proof. float_cases. Qed.

Lemma flt_le (a b : float) : flt a b -> fle a b.
Proof. intros H. float_cases. Qed.

Lemma flt_trans (a b c : float) : flt a b -> flt b c -> flt a c.
Proof. intros H1 H2. float_cases. Qed.

Lemma fle_trans (a b c : float) : fle a b -> fle b c -> fle a c.
Proof. intros H1 H2. float_cases. Qed.

Lemma fle_lt_trans (a b c : float) : fle a b -> flt b c -> flt a c.
Proof. intros H1 H2. float_cases. Qed.

Lemma flt_le_trans (a b c : float) : flt a b -> fle b c -> flt a c.
Proof. intros H1 H2. float_cases. Qed.

Lemma flt_irrefl (a : float) : ~ flt a a.
Proof. intros H. float_cases. Qed.

Lemma fle_not_lt (a b : float) : fle a b -> ~ flt b a.
Proof. unfold fle, flt. intros H1 H2. congruence. Qed.

Lemma round64_nonneg (q : Q) : (0 <= q)%Q -> fle (Finite 0) (round64 q).
Proof.
  intros Hq. unfold round64. destruct q as [[|n|n] d]; cbn [Qnum Qden].
  - apply fle_refl.
  - pose proof (nearest_nonneg n d) as Hk.
    destruct (nearest n d) as [k e]. cbn [fst] in Hk.
    destruct ((0 <=? e) && (2 ^ 1024 <=? k * 2 ^ e)); [reflexivity|].
    pose proof (dyadic_nonneg k e Hk). unfold fle, fltb.
    now apply Qltb_false.
  - unfold Qle in Hq. cbn in Hq. lia.
Qed.

Lemma fsub_nonneg (a b : Q) : (a <= b)%Q -> fle (Finite 0) (fsub b a).
Proof. intros H. apply round64_nonneg. lra. Qed.

Lemma sentinel_below_zero : flt (Finite (-1)) (Finite 0).
Proof. reflexivity. Qed.

(** Order facts on floats, from the hypotheses at hand. *)
(** ** Whole numbers and floats *)

Lemma half_even_exact (num den : Z) :
  0 < den -> half_even (num * den) den = num.
Proof.
  intros Hd. unfold half_even.
  rewrite Z.div_mul by lia. rewrite Z.mod_mul by lia.
  assert (E : (2 * 0 <? den) = true) by (apply Z.ltb_lt; lia).
  now rewrite E.
Qed.

Lemma Qred_inject_Z (z : Z) : Qred (inject_Z z) = inject_Z z.
Proof.
  unfold Qred, inject_Z.
  pose proof (Z.ggcd_gcd z 1) as Hg.
  pose proof (Z.ggcd_correct_divisors z 1) as Hd.
  destruct (Z.ggcd z 1) as [g [aa bb]]. cbn [fst snd] in *.
  rewrite Z.gcd_1_r in Hg. subst g. destruct Hd as [Ha Hb].
  rewrite Z.mul_1_l in Ha, Hb. subst. reflexivity.
Qed.

Lemma Qred_whole (z : Z) (d : positive) :
  Qred (z * Zpos d # d) = inject_Z z.
Proof.
  rewrite <- (Qred_inject_Z z).
  apply Qred_complete. unfold Qeq, inject_Z. cbn [Qnum Qden]. lia.
Qed.

Lemma half_even_one (x : Z) : half_even x 1 = x.
Proof.
  rewrite <- (Z.mul_1_r x) at 1. apply half_even_exact. lia.
Qed.

(** A whole number of at most 53 bits is a float. *)
Lemma nearest_whole (n : positive) :
  Zpos n <= 2 ^ 53 ->
  dyadic (fst (nearest n 1)) (snd (nearest n 1)) = inject_Z (Zpos n) /\
  (0 <=? snd (nearest n 1)) &&
    (2 ^ 1024 <=? fst (nearest n 1) * 2 ^ snd (nearest n 1)) = false.
Proof.
  intros Hn.
  assert (Hl0 : 0 <= Z.log2 (Zpos n)) by apply Z.log2_nonneg.
  assert (Hl1 : Z.log2 (Zpos n) <= 53).
  { rewrite <- (Z.log2_pow2 53) by lia. now apply Z.log2_le_mono. }
  assert (Hfl : floor_log2 n 1 = Z.log2 (Zpos n)).
  { unfold floor_log2. change (Z.log2 1) with 0. rewrite Z.sub_0_r.
    assert (E0 : (0 <=? Z.log2 (Zpos n)) = true) by now apply Z.leb_le.
    rewrite E0.
    assert (E1 : (1 * 2 ^ Z.log2 (Zpos n) <=? Zpos n) = true).
    { apply Z.leb_le. pose proof (Z.log2_spec (Zpos n)). lia. }
    now rewrite E1. }
  destruct (Z.eq_dec (Z.log2 (Zpos n)) 53) as [Htop|Htop].
  - assert (Hn' : n = Z.to_pos (2 ^ 53)).
    { pose proof (Z.log2_spec (Zpos n)) as H. rewrite Htop in H.
      assert (E : Zpos n = 2 ^ 53) by lia. rewrite <- E. reflexivity. }
    rewrite Hn'. vm_compute. split; reflexivity.
  - unfold nearest. cbn [fst snd]. rewrite Hfl.
    set (l := Z.log2 (Zpos n)) in *.
    replace (Z.max (l - 52) (-1074)) with (l - 52) by lia.
    destruct (0 <=? l - 52) eqn:E.
    + apply Z.leb_le in E. replace (l - 52) with 0 by lia.
      change (1 * 2 ^ 0) with 1. rewrite half_even_one.
      unfold dyadic. change (0 <=? 0) with true. cbn [andb].
      change (2 ^ 0) with 1. rewrite Z.mul_1_r.
      split; [reflexivity|]. apply Z.leb_gt.
      assert (2 ^ 53 < 2 ^ 1024) by (apply Z.pow_lt_mono_r; lia). lia.
    + cbn [andb]. split; [|reflexivity].
      rewrite half_even_one. unfold dyadic. rewrite E.
      assert (Hpos : 0 < 2 ^ (- (l - 52)))
        by (apply Z.pow_pos_nonneg; lia).
      rewrite <- (Z2Pos.id (2 ^ (- (l - 52)))) at 1 by exact Hpos.
      apply Qred_whole.
Qed.

Lemma round64_whole (z : Z) :
  Z.abs z <= 2 ^ 53 -> round64 (inject_Z z) = Finite (inject_Z z).
Proof.
  intros Hz. unfold round64.
  change (Qnum (inject_Z z)) with z.
  change (Qden (inject_Z z)) with 1%positive.
  destruct z as [|n|n]; [reflexivity| |];
    (destruct (nearest_whole n) as [Hd Ho]; [exact Hz|];
     destruct (nearest n 1) as [k e]; cbn [fst snd] in *;
     destruct ((0 <=? e) && (2 ^ 1024 <=? k * 2 ^ e)); [discriminate|];
     now rewrite Hd).
Qed.

Lemma float_of_int_whole (z : Z) :
  Z.abs z <= 2 ^ 53 -> float_of_int z = Returns (inject_Z z).
Proof. intros Hz. unfold float_of_int. now rewrite round64_whole. Qed.

Lemma fadd_whole (a b : Z) :
  Z.abs (a + b) <= 2 ^ 53 ->
  fadd (Finite (inject_Z a)) (inject_Z b) = Finite (inject_Z (a + b)).
Proof.
  intros H. unfold fadd.
  replace (inject_Z a + inject_Z b)%Q with (inject_Z (a + b)).
  - now apply round64_whole.
  - unfold Qplus, inject_Z. cbn [Qnum Qden]. f_equal. lia.
Qed.

Lemma fsub_whole (a b : Z) :
  Z.abs (b - a) <= 2 ^ 53 ->
  fsub (inject_Z b) (inject_Z a) = Finite (inject_Z (b - a)).
Proof.
  intros H. unfold fsub.
  replace (inject_Z b - inject_Z a)%Q with (inject_Z (b - a)).
  - now apply round64_whole.
  - unfold Qminus, Qplus, Qopp, inject_Z. cbn [Qnum Qden]. f_equal. lia.
Qed.

(** ** Penalties *)

Lemma penalty_nil : penalty [] = Finite (-1).
Proof. reflexivity. Qed.

Lemma penalty_nonneg (costs : list Q) :
  costs <> [] -> fle (Finite 0) (penalty costs).
Proof.
  intros Hne. unfold penalty.
  pose proof (sort_ascending costs) as Hasc.
  pose proof (sort_perm costs) as Hperm.
  destruct (sort costs) as [|c0 [|c1 rest]].
  - apply Permutation_nil in Hperm. contradiction.
  - apply fle_refl.
  - destruct Hasc as [Hc0 _]. inversion Hc0 as [|? ? Hle _]; subst.
    now apply fsub_nonneg.
Qed.




Lemma line_penalty_live (skip : bool) (costs : list Q) :
  flt (Finite (-1)) (line_penalty skip costs) -> skip = false /\ costs <> [].
Proof.
  unfold line_penalty. destruct skip; [intros H; discriminate|].
  intros H. split; [reflexivity|]. intros ->. rewrite penalty_nil in H.
  discriminate.
Qed.

Lemma line_penalty_nonneg (costs : list Q) :
  costs <> [] -> fle (Finite 0) (line_penalty false costs).
Proof. apply penalty_nonneg. Qed.

(** ** Vogel: the penalties *)

Lemma upd_same {A : Type} (dflt : A) (l : list A) (i : Z) :
  0 <= i < len l -> upd l i (at_ dflt l i) = l.
Proof.
  intros Hi. apply (list_ext_at dflt); [apply len_upd|].
  rewrite len_upd. intros k Hk. destruct (Z.eq_dec i k) as [<-|Hne].
  - now rewrite at_upd_same.
  - now rewrite at_upd_other by lia.
Qed.

Lemma comprehension_spec {A : Type} (l : list Z) (keep : Z -> res bool)
  (f : Z -> res A) (kb : Z -> bool) (g : Z -> A) :
  (forall j, In j l -> keep j = Ok (kb j)) ->
  (forall j, In j l -> f j = Ok (g j)) ->
  comprehension l keep f = Ok (map g (filter kb l)).
Proof.
  induction l as [|h t IH]; intros Hk Hf; [reflexivity|].
  cbn [comprehension filter]. rewrite (Hk h) by (left; reflexivity).
  cbn [bind].
  assert (IH' : comprehension t keep f = Ok (map g (filter kb t))).
  { apply IH; intros j Hj; [apply Hk|apply Hf]; now right. }
  destruct (kb h).
  - rewrite (Hf h) by (left; reflexivity). cbn [bind]. rewrite IH'.
    reflexivity.
  - exact IH'.
Qed.

Lemma live_spec (flags : list bool) (v : list Z) (k : Z) :
  0 <= k < len flags -> 0 <= k < len v ->
  live flags v k = Ok (liveb flags v k).
Proof.
  intros Hf Hv. unfold live, liveb.
  rewrite (getitem_in false flags) by assumption. cbn [bind].
  destruct (at_ false flags k); [|reflexivity].
  rewrite (getitem_in 0 v) by assumption. reflexivity.
Qed.

Lemma skipped_spec (flags : list bool) (v : list Z) (k : Z) :
  0 <= k < len flags -> 0 <= k < len v ->
  skipped flags v k = Ok (skippedb flags v k).
Proof.
  intros Hf Hv. unfold skipped, skippedb.
  rewrite (getitem_in false flags) by assumption. cbn [bind].
  destruct (at_ false flags k); cbn [negb orb]; [|reflexivity].
  rewrite (getitem_in 0 v) by assumption. reflexivity.
Qed.

Lemma write_penalty_spec (pen : list float) (k : Z) (costs : list Q) :
  0 <= k < len pen -> at_ (Finite 0) pen k = Finite (-1) ->
  write_penalty pen k costs = Ok (upd pen k (penalty costs)).
Proof.
  intros Hk Hsent. unfold write_penalty, penalty.
  rewrite <- (sort_len costs).
  destruct (sort costs) as [|c0 [|c1 rest]].
  - cbn. rewrite <- Hsent. now rewrite upd_same.
  - cbn. now apply setitem_in.
  - assert (H2 : (2 <=? len (c0 :: c1 :: rest)) = true).
    { apply Z.leb_le. rewrite !len_cons. pose proof (len_nonneg rest). lia. }
    rewrite H2.
    rewrite (getitem_in 0%Q (c0 :: c1 :: rest) 1)
      by (rewrite !len_cons; pose proof (len_nonneg rest); lia).
    cbn [bind].
    rewrite (getitem_in 0%Q (c0 :: c1 :: rest) 0)
      by (rewrite !len_cons; pose proof (len_nonneg rest); lia).
    cbn [bind]. now apply setitem_in.
Qed.

(** The loop that fills a penalty vector: position [k] receives the
    penalty of line [k], and is left at the sentinel when the line is
    skipped. *)
Lemma penalty_loop (count : Z) (skip : Z -> res bool)
  (costs : Z -> res (list Q)) (skipb : Z -> bool) (costl : Z -> list Q) :
  0 <= count ->
  (forall k, 0 <= k < count -> skip k = Ok (skipb k)) ->
  (forall k, 0 <= k < count -> costs k = Ok (costl k)) ->
  exists pen,
    for_each (range count) (fun k pen =>
      b <- skip k ;;
      if b then Ok pen
      else cs <- costs k ;; write_penalty pen k cs)
      (times (Finite (-1)) count) = Ok pen /\
    len pen = count /\
    forall k, 0 <= k < count ->
              at_ (Finite 0) pen k = line_penalty (skipb k) (costl k).
Proof.
  intros Hc Hskip Hcosts.
  match goal with |- exists _, for_each _ ?body _ = _ /\ _ =>
    destruct (for_range_rule
      (fun k pen => len pen = count /\
         (forall k', 0 <= k' < k ->
                     at_ (Finite 0) pen k' = line_penalty (skipb k') (costl k')) /\
         (forall k', k <= k' < count -> at_ (Finite 0) pen k' = Finite (-1)))
      body count (times (Finite (-1)) count) Hc) as [pen [E (Hl & Hdone & _)]]
  end.
  - split; [now apply len_times|]. split; [intros k' Hk'; lia|].
    intros k' Hk'. apply at_times. lia.
  - intros k pen Hk (Hl & Hdone & Hrest).
    rewrite (Hskip k Hk). cbn [bind]. destruct (skipb k) eqn:Eskip.
    + eexists. split; [reflexivity|]. split; [exact Hl|]. split.
      * intros k' Hk'. destruct (Z.eq_dec k' k) as [->|Hne].
        -- rewrite Eskip. cbn [line_penalty]. apply Hrest. lia.
        -- apply Hdone. lia.
      * intros k' Hk'. apply Hrest. lia.
    + rewrite (Hcosts k Hk). cbn [bind].
      rewrite write_penalty_spec by (try apply Hrest; lia).
      eexists. split; [reflexivity|]. split; [now rewrite len_upd|]. split.
      * intros k' Hk'. destruct (Z.eq_dec k k') as [<-|Hne].
        -- rewrite at_upd_same by lia. now rewrite Eskip.
        -- rewrite at_upd_other by lia. apply Hdone. lia.
      * intros k' Hk'. rewrite at_upd_other by lia. apply Hrest. lia.
  - exists pen. auto.
Qed.

Lemma vam_row_pen_spec (p : TransportationSolver) (st : vam_state) :
  wf p -> vam_shape p st ->
  exists row_pen,
    vam_row_pen p st = Ok row_pen /\ len row_pen = m p /\
    forall i, 0 <= i < m p ->
      at_ (Finite 0) row_pen i =
      line_penalty (skippedb (active_rows st) (s (vam_work st)) i)
                   (row_costs p st i).
Proof.
  intros Hwf (Hls & Hld & _ & Hlr & Hlc). pose proof Hwf as (Hm & Hn & _).
  unfold vam_row_pen. apply penalty_loop; [lia| |].
  - intros i Hi. apply skipped_spec; lia.
  - intros i Hi. unfold row_costs. apply comprehension_spec.
    + intros j Hj. apply range_In in Hj. apply live_spec; lia.
    + intros j Hj. apply range_In in Hj. now apply cost_at_in.
Qed.

Lemma vam_col_pen_spec (p : TransportationSolver) (st : vam_state) :
  wf p -> vam_shape p st ->
  exists col_pen,
    vam_col_pen p st = Ok col_pen /\ len col_pen = n p /\
    forall j, 0 <= j < n p ->
      at_ (Finite 0) col_pen j =
      line_penalty (skippedb (active_cols st) (d (vam_work st)) j)
                   (col_costs p st j).
Proof.
  intros Hwf (Hls & Hld & _ & Hlr & Hlc). pose proof Hwf as (Hm & Hn & _).
  unfold vam_col_pen. apply penalty_loop; [lia| |].
  - intros j Hj. apply skipped_spec; lia.
  - intros j Hj. unfold col_costs. apply comprehension_spec.
    + intros i Hi. apply range_In in Hi. apply live_spec; lia.
    + intros i Hi. apply range_In in Hi. now apply cost_at_in.
Qed.

(** ** Vogel: the line of greatest penalty *)

Lemma vam_max_pen_spec (p : TransportationSolver) (row_pen col_pen : list float) :
  wf p -> len row_pen = m p -> len col_pen = n p ->
  exists sel, vam_max_pen p row_pen col_pen = Ok sel /\
              selected p row_pen col_pen sel.
Proof.
  intros Hwf Hlr Hlc. pose proof Hwf as (Hm & Hn & _).
  unfold vam_max_pen.
  match goal with |- exists _, (bind (for_each _ ?body _) _) = _ /\ _ =>
    destruct (for_range_rule
      (fun i (best : float * bool * Z) =>
         let '(mp, isr, idx) := best in
         (forall k, 0 <= k < i -> fle (at_ (Finite 0) row_pen k) mp) /\
         ((idx = -1 /\ isr = true /\ mp = Finite (-1)) \/
          (isr = true /\ 0 <= idx < i /\
           mp = at_ (Finite 0) row_pen idx /\ flt (Finite (-1)) mp /\
           forall k, 0 <= k < idx -> flt (at_ (Finite 0) row_pen k) mp)))
      body (m p) (Finite (-1), true, -1)) as [[[mp isr] idx] [E1 [Hr1 Hsel1]]]
  end.
  - lia.
  - split; [intros k Hk; lia|]. left. auto.
  - intros i [[mp isr] idx] Hi [Hle Hsel].
    rewrite (getitem_in (Finite 0) row_pen) by lia. cbn [bind fst].
    destruct (fltb mp (at_ (Finite 0) row_pen i)) eqn:E.
    + change (flt mp (at_ (Finite 0) row_pen i)) in E.
      eexists. split; [reflexivity|]. split.
      * intros k Hk. destruct (Z.eq_dec k i) as [->|Hne]; [apply fle_refl|].
        assert (Hk' : 0 <= k < i) by lia. specialize (Hle k Hk').
        apply flt_le. now apply (fle_lt_trans _ mp).
      * right. split; [reflexivity|]. split; [lia|]. split; [reflexivity|].
        split.
        -- destruct Hsel as [(_ & _ & ->)|(_ & _ & _ & Hgt & _)];
             [exact E|now apply (flt_trans _ mp)].
        -- intros k Hk. specialize (Hle k Hk).
           now apply (fle_lt_trans _ mp).
    + eexists. split; [reflexivity|]. split.
      * intros k Hk. destruct (Z.eq_dec k i) as [->|Hne]; [exact E|].
        apply Hle. lia.
      * destruct Hsel as [Hnone|(Hisr & Hidx & Hmp & Hgt & Hfirst)];
          [left; exact Hnone|right].
        repeat split; auto; lia.
  - rewrite E1. cbn [bind].
    match goal with |- exists _, for_each _ ?body _ = _ /\ _ =>
      destruct (for_range_rule
        (fun j (best : float * bool * Z) =>
           let '(mp, isr, idx) := best in
           (forall i, 0 <= i < m p -> fle (at_ (Finite 0) row_pen i) mp) /\
           (forall k, 0 <= k < j -> fle (at_ (Finite 0) col_pen k) mp) /\
           ((idx = -1 /\ isr = true /\ mp = Finite (-1)) \/
            (isr = true /\ 0 <= idx < m p /\
             mp = at_ (Finite 0) row_pen idx /\ flt (Finite (-1)) mp /\
             forall k, 0 <= k < idx -> flt (at_ (Finite 0) row_pen k) mp) \/
            (isr = false /\ 0 <= idx < j /\
             mp = at_ (Finite 0) col_pen idx /\ flt (Finite (-1)) mp /\
             (forall i, 0 <= i < m p -> flt (at_ (Finite 0) row_pen i) mp) /\
             forall k, 0 <= k < idx -> flt (at_ (Finite 0) col_pen k) mp)))
        body (n p) (mp, isr, idx)) as [[[mp2 isr2] idx2] [E2 (Hr2 & Hc2 & Hsel2)]]
    end.
    + lia.
    + split; [exact Hr1|]. split; [intros k Hk; lia|].
      destruct Hsel1 as [Hnone|Hrow]; [left; exact Hnone|right; left; exact Hrow].
    + intros j [[mp' isr'] idx'] Hj (Hr & Hc & Hsel).
      rewrite (getitem_in (Finite 0) col_pen) by lia. cbn [bind fst].
      destruct (fltb mp' (at_ (Finite 0) col_pen j)) eqn:E.
      * change (flt mp' (at_ (Finite 0) col_pen j)) in E.
        eexists. split; [reflexivity|].
        split; [|split].
        -- intros i Hi. specialize (Hr i Hi).
           apply flt_le. now apply (fle_lt_trans _ mp').
        -- intros k Hk. destruct (Z.eq_dec k j) as [->|Hne]; [apply fle_refl|].
           assert (Hk' : 0 <= k < j) by lia. specialize (Hc k Hk').
           apply flt_le. now apply (fle_lt_trans _ mp').
        -- right. right. split; [reflexivity|]. split; [lia|].
           split; [reflexivity|]. split; [|split].
           ++ destruct Hsel as [(_ & _ & ->)|[(_ & _ & _ & Hgt & _)|
                                 (_ & _ & _ & Hgt & _)]];
                [exact E|now apply (flt_trans _ mp')..].
           ++ intros i Hi. specialize (Hr i Hi).
              now apply (fle_lt_trans _ mp').
           ++ intros k Hk. specialize (Hc k Hk).
              now apply (fle_lt_trans _ mp').
      * eexists. split; [reflexivity|].
        split; [exact Hr|]. split.
        -- intros k Hk. destruct (Z.eq_dec k j) as [->|Hne]; [exact E|].
           apply Hc. lia.
        -- destruct Hsel as [Hnone|[Hrow|(Hisr & Hidx & Hmp & Hgt & Hrows & Hfirst)]];
             [left; exact Hnone|right; left; exact Hrow|right; right].
           repeat split; auto; lia.
    + exists (mp2, isr2, idx2). split; [exact E2|].
      unfold selected. split; [exact Hr2|]. split; [exact Hc2|]. exact Hsel2.
Qed.

(** ** Vogel: the cell of least cost in the selected line *)

Lemma vam_min_cell_spec (p : TransportationSolver) (st : vam_state)
  (is_row : bool) (idx : Z) :
  wf p -> vam_shape p st ->
  (if is_row then 0 <= idx < m p else 0 <= idx < n p) ->
  exists best,
    vam_min_cell p st is_row idx = Ok best /\
    ((best = (-1, -1, None) /\
      forall i j, ~ line_cells p st is_row idx i j) \/
     (exists i j, best = (i, j, Some (cost p i j)) /\
                  first_least p (line_cells p st is_row idx) i j)).
Proof.
  intros Hwf (Hls & Hld & _ & Hlr & Hlc) Hidx. pose proof Hwf as (Hm & Hn & _).
  unfold vam_min_cell. destruct is_row.
  - set (cand := line_cells p st true idx).
    match goal with |- exists _, for_each _ ?body _ = _ /\ _ =>
      destruct (for_range_rule (fun j best => min_scanned p cand (idx, j) best)
                  body (n p) (-1, -1, None)) as [best [E H]]
    end.
    + lia.
    + left. split; [reflexivity|]. intros i' j' (-> & Hj' & _).
      unfold before. cbn [fst snd]. lia.
    + intros j best Hj Hinv. rewrite live_spec by lia. cbn [bind].
      destruct (liveb (active_cols st) (d (vam_work st)) j) eqn:El.
      * rewrite (cost_at_in p idx j Hwf Hidx Hj). cbn [bind]. rewrite if_Ok.
        eexists. split; [reflexivity|].
        apply (min_scanned_visit p cand (idx, j) (idx, j + 1)); auto.
        -- cbn [fst snd]. unfold cand, line_cells. auto.
        -- unfold before. cbn [fst snd]. lia.
        -- intros i' j' (-> & Hj' & _). unfold before. cbn [fst snd].
           intros Hb. destruct (Z.eq_dec j' j) as [->|Hne]; [now right|].
           left. lia.
      * eexists. split; [reflexivity|].
        apply (min_scanned_skip p cand (idx, j)); auto.
        -- unfold before. cbn [fst snd]. lia.
        -- intros i' j' (-> & Hj' & Hl'). unfold before. cbn [fst snd].
           intros Hb. assert (j' <> j) by congruence. lia.
    + exists best. split; [exact E|].
      apply (min_scanned_done p cand (idx, n p)); auto.
      intros i' j' (-> & Hj' & _). unfold before. cbn [fst snd]. lia.
  - set (cand := line_cells p st false idx).
    match goal with |- exists _, for_each _ ?body _ = _ /\ _ =>
      destruct (for_range_rule (fun i best => min_scanned p cand (i, idx) best)
                  body (m p) (-1, -1, None)) as [best [E H]]
    end.
    + lia.
    + left. split; [reflexivity|]. intros i' j' (-> & Hi' & _).
      unfold before. cbn [fst snd]. lia.
    + intros i best Hi Hinv. rewrite live_spec by lia. cbn [bind].
      destruct (liveb (active_rows st) (s (vam_work st)) i) eqn:El.
      * rewrite (cost_at_in p i idx Hwf Hi Hidx). cbn [bind]. rewrite if_Ok.
        eexists. split; [reflexivity|].
        apply (min_scanned_visit p cand (i, idx) (i + 1, idx)); auto.
        -- cbn [fst snd]. unfold cand, line_cells. auto.
        -- unfold before. cbn [fst snd]. lia.
        -- intros i' j' (-> & Hi' & _). unfold before. cbn [fst snd].
           intros Hb. destruct (Z.eq_dec i' i) as [->|Hne]; [now right|].
           left. lia.
      * eexists. split; [reflexivity|].
        apply (min_scanned_skip p cand (i, idx)); auto.
        -- unfold before. cbn [fst snd]. lia.
        -- intros i' j' (-> & Hi' & Hl'). unfold before. cbn [fst snd].
           intros Hb. assert (i' <> i) by congruence. lia.
    + exists best. split; [exact E|].
      apply (min_scanned_done p cand (m p, idx)); auto.
      intros i' j' (-> & Hi' & _). unfold before. cbn [fst snd]. lia.
Qed.

(** ** Vogel: one iteration *)

Lemma vam_allocate_in (p : TransportationSolver) (st : vam_state)
  (min_i min_j : Z) :
  vam_shape p st -> 0 <= min_i < m p -> 0 <= min_j < n p ->
  vam_allocate st min_i min_j = Ok (vam_allocated st min_i min_j).
Proof.
  intros (Hls & Hld & [Hla Hrows] & Hlr & Hlc) Hi Hj.
  unfold vam_allocate, vam_allocated.
  rewrite allocate_in; try lia.
  2:{ rewrite (proj1 (Forall_at [] _ _) Hrows) by lia. exact Hj. }
  cbn [bind]. set (w' := allocated (vam_work st) min_i min_j).
  assert (Hls' : len (s w') = m p) by (unfold w', allocated; cbn [s]; now rewrite len_upd).
  assert (Hld' : len (d w') = n p) by (unfold w', allocated; cbn [d]; now rewrite len_upd).
  rewrite (getitem_in 0 (s w')) by lia. cbn [bind].
  destruct (at_ 0 (s w') min_i =? 0).
  - rewrite setitem_in by lia. cbn [bind].
    rewrite (getitem_in 0 (d w')) by lia. cbn [bind].
    destruct (at_ 0 (d w') min_j =? 0); [rewrite setitem_in by lia|];
      reflexivity.
  - cbn [bind]. rewrite (getitem_in 0 (d w')) by lia. cbn [bind].
    destruct (at_ 0 (d w') min_j =? 0); [rewrite setitem_in by lia|];
      reflexivity.
Qed.

Lemma map_filter_nonempty {A : Type} (f : Z -> A) (kb : Z -> bool) (k : Z) :
  map f (filter kb (range k)) <> [] <->
  exists j, 0 <= j < k /\ kb j = true.
Proof.
  split.
  - intros Hne. destruct (filter kb (range k)) as [|j t] eqn:E;
      [contradiction|].
    assert (Hin : In j (filter kb (range k))) by (rewrite E; now left).
    apply filter_In in Hin. destruct Hin as [Hr Hk]. apply range_In in Hr.
    eauto.
  - intros (j & Hj & Hk) Hnil. apply map_eq_nil in Hnil.
    assert (Hin : In j (filter kb (range k))).
    { apply filter_In. split; [now apply range_In|exact Hk]. }
    rewrite Hnil in Hin. contradiction.
Qed.

(** One iteration on a state of the right shape: the penalties, the
    selected line, the cell, and the allocation made there. *)
Lemma vam_body_spec (p : TransportationSolver) (st : vam_state) :
  wf p -> vam_shape p st ->
  exists row_pen col_pen max_pen is_row idx,
    vam_row_pen p st = Ok row_pen /\ len row_pen = m p /\
    (forall i, 0 <= i < m p ->
       at_ (Finite 0) row_pen i =
       line_penalty (skippedb (active_rows st) (s (vam_work st)) i)
                    (row_costs p st i)) /\
    vam_col_pen p st = Ok col_pen /\ len col_pen = n p /\
    (forall j, 0 <= j < n p ->
       at_ (Finite 0) col_pen j =
       line_penalty (skippedb (active_cols st) (d (vam_work st)) j)
                    (col_costs p st j)) /\
    vam_max_pen p row_pen col_pen = Ok (max_pen, is_row, idx) /\
    selected p row_pen col_pen (max_pen, is_row, idx) /\
    (idx = -1 -> vam_body p st = Ok None) /\
    (idx <> -1 ->
       line_open st is_row idx /\
       exists min_i min_j,
         vam_min_cell p st is_row idx =
           Ok (min_i, min_j, Some (cost p min_i min_j)) /\
         first_least p (line_cells p st is_row idx) min_i min_j /\
         vam_body p st = Ok (Some (vam_allocated st min_i min_j))).
Proof.
  intros Hwf Hsh. pose proof Hwf as (Hm & Hn & _).
  destruct (vam_row_pen_spec p st Hwf Hsh) as (rp & Erp & Hlrp & Hrp).
  destruct (vam_col_pen_spec p st Hwf Hsh) as (cp & Ecp & Hlcp & Hcp).
  destruct (vam_max_pen_spec p rp cp Hwf Hlrp Hlcp) as ([[mp isr] idx] & Esel & Hsel).
  exists rp, cp, mp, isr, idx.
  refine (conj Erp (conj Hlrp (conj Hrp (conj Ecp (conj Hlcp (conj Hcp
            (conj Esel (conj Hsel _)))))))).
  unfold vam_body. rewrite Erp, Ecp. cbn [bind]. rewrite Esel. cbn [bind].
  split.
  - intros ->. reflexivity.
  - intros Hidx. destruct (idx =? -1) eqn:Eidx;
      [apply Z.eqb_eq in Eidx; contradiction|].
    destruct Hsel as (_ & _ & [(Hnone & _)|[Hrow|Hcol]]); [contradiction| |].
    + destruct Hrow as (-> & Hir & Hmp & Hgt & _).
      rewrite Hmp, (Hrp idx Hir) in Hgt.
      destruct (line_penalty_live _ _ Hgt) as [Hskip Hne].
      split; [exact Hskip|].
      apply map_filter_nonempty in Hne. destruct Hne as (j0 & Hj0 & Hl0).
      destruct (vam_min_cell_spec p st true idx Hwf Hsh Hir)
        as (best & Ebest & [[_ Hno]|(mi & mj & -> & Hfl)]).
      * exfalso. apply (Hno idx j0). unfold line_cells. auto.
      * exists mi, mj. split; [exact Ebest|]. split; [exact Hfl|].
        rewrite Ebest. cbn [bind].
        destruct Hfl as [(-> & Hmj & _) _].
        destruct (idx =? -1) eqn:E; [apply Z.eqb_eq in E; lia|].
        rewrite (vam_allocate_in p st idx mj Hsh Hir Hmj). reflexivity.
    + destruct Hcol as (-> & Hic & Hmp & Hgt & _).
      rewrite Hmp, (Hcp idx Hic) in Hgt.
      destruct (line_penalty_live _ _ Hgt) as [Hskip Hne].
      split; [exact Hskip|].
      apply map_filter_nonempty in Hne. destruct Hne as (i0 & Hi0 & Hl0).
      destruct (vam_min_cell_spec p st false idx Hwf Hsh Hic)
        as (best & Ebest & [[_ Hno]|(mi & mj & -> & Hfl)]).
      * exfalso. apply (Hno i0 idx). unfold line_cells. auto.
      * exists mi, mj. split; [exact Ebest|]. split; [exact Hfl|].
        rewrite Ebest. cbn [bind].
        destruct Hfl as [(-> & Hmi & _) _].
        destruct (mi =? -1) eqn:E; [apply Z.eqb_eq in E; lia|].
        rewrite (vam_allocate_in p st mi idx Hsh Hmi Hic). reflexivity.
Qed.

Lemma vam_cond_spec (p : TransportationSolver) (st : vam_state) :
  wf p -> vam_shape p st ->
  vam_cond p st =
  Ok (existsb (liveb (active_rows st) (s (vam_work st))) (range (m p)) &&
      existsb (liveb (active_cols st) (d (vam_work st))) (range (n p))).
Proof.
  intros Hwf (Hls & Hld & _ & Hlr & Hlc). unfold vam_cond.
  rewrite (py_any_spec _ _ (liveb (active_rows st) (s (vam_work st)))).
  - cbn [bind].
    destruct (existsb (liveb (active_rows st) (s (vam_work st))) (range (m p)));
      [|reflexivity].
    cbn [andb]. apply py_any_spec. intros j Hj. apply range_In in Hj.
    rewrite (getitem_in 0 (d (vam_work st))) by lia. cbn [bind].
    unfold liveb. destruct (0 <? at_ 0 (d (vam_work st)) j).
    + rewrite (getitem_in false (active_cols st)) by lia.
      now rewrite andb_true_r.
    + now rewrite andb_false_r.
  - intros i Hi. apply range_In in Hi.
    rewrite (getitem_in 0 (s (vam_work st))) by lia. cbn [bind].
    unfold liveb. destruct (0 <? at_ 0 (s (vam_work st)) i).
    + rewrite (getitem_in false (active_rows st)) by lia.
      now rewrite andb_true_r.
    + now rewrite andb_false_r.
Qed.

(** ** Vogel: the loop *)

Lemma liveb_true (flags : list bool) (v : list Z) (k : Z) :
  liveb flags v k = true <-> at_ false flags k = true /\ 0 < at_ 0 v k.
Proof.
  unfold liveb. rewrite andb_true_iff, Z.ltb_lt. tauto.
Qed.

Lemma skippedb_false (flags : list bool) (v : list Z) (k : Z) :
  skippedb flags v k = false <-> at_ false flags k = true /\ at_ 0 v k <> 0.
Proof.
  unfold skippedb. rewrite orb_false_iff, negb_false_iff, Z.eqb_neq. tauto.
Qed.

(** While a row and a column are live, an iteration allocates a positive
    quantity on a cell with supply and demand left. *)
Lemma vam_body_live (p : TransportationSolver) (st : vam_state) :
  problem p -> vam_inv p st ->
  (exists i, 0 <= i < m p /\
             liveb (active_rows st) (s (vam_work st)) i = true) ->
  (exists j, 0 <= j < n p /\
             liveb (active_cols st) (d (vam_work st)) j = true) ->
  exists min_i min_j,
    vam_body p st = Ok (Some (vam_allocated st min_i min_j)) /\
    0 <= min_i < m p /\ 0 <= min_j < n p /\
    0 < at_ 0 (s (vam_work st)) min_i /\ 0 < at_ 0 (d (vam_work st)) min_j.
Proof.
  intros Hp (Ht & Hpos & Hsh & Hrows & Hcols) (i0 & Hi0 & Hl0) (j0 & Hj0 & Hc0).
  pose proof Hp as (Hwf & _).
  pose proof (tracked_sound p _ Hp Ht) as Hs.
  destruct Hs as [_ _ Hls Hld _ Hsn Hdn _ _ _ _]. cbn [snap_of fst snd] in *.
  destruct (vam_body_spec p st Hwf Hsh)
    as (rp & cp & mp & isr & idx & _ & _ & Hrp & _ & _ & Hcp & _ & Hsel & _ & Hsome).
  assert (Hidx : idx <> -1).
  { intros ->. destruct Hsel as (Hr & _ & [(_ & _ & ->)|[Hrow|Hcol]]).
    - specialize (Hr i0 Hi0). rewrite (Hrp i0 Hi0) in Hr.
      apply liveb_true in Hl0. destruct Hl0 as [Ha Hs0].
      assert (Hsk : skippedb (active_rows st) (s (vam_work st)) i0 = false).
      { apply skippedb_false. split; [exact Ha|lia]. }
      rewrite Hsk in Hr.
      assert (Hne : row_costs p st i0 <> []).
      { apply map_filter_nonempty. eauto. }
      pose proof (line_penalty_nonneg _ Hne) as Hnn.
      apply (fle_not_lt _ _ Hr).
      now apply (flt_le_trans _ (Finite 0)).
    - destruct Hrow as (_ & Hbad & _). lia.
    - destruct Hcol as (_ & Hbad & _). lia. }
  destruct (Hsome Hidx) as (Hopen & mi & mj & _ & Hfl & Ebody).
  exists mi, mj. split; [exact Ebody|].
  destruct Hfl as [Hcell _]. unfold line_cells, line_open in *.
  destruct isr.
  - destruct Hcell as (-> & Hmj & Hlive).
    apply liveb_true in Hlive. destruct Hlive as [_ Hdpos].
    apply skippedb_false in Hopen. destruct Hopen as [_ Hsne].
    destruct Hsel as (_ & _ & [(Hbad & _)|[(_ & Hr & _)|(Hbad & _)]]);
      try contradiction; try discriminate.
    pose proof (proj1 (Forall_at 0 _ _) Hsn idx) as H0. cbv beta in H0.
    repeat split; try lia.
  - destruct Hcell as (-> & Hmi & Hlive).
    apply liveb_true in Hlive. destruct Hlive as [_ Hspos].
    apply skippedb_false in Hopen. destruct Hopen as [_ Hdne].
    destruct Hsel as (_ & _ & [(Hbad & _)|[(Hbad & _)|(_ & Hc & _)]]);
      try contradiction; try discriminate.
    pose proof (proj1 (Forall_at 0 _ _) Hdn idx) as H0. cbv beta in H0.
    repeat split; try lia.
Qed.

Lemma vam_allocated_inv (p : TransportationSolver) (st : vam_state)
  (min_i min_j : Z) :
  problem p -> vam_inv p st ->
  0 <= min_i < m p -> 0 <= min_j < n p ->
  0 < at_ 0 (s (vam_work st)) min_i -> 0 < at_ 0 (d (vam_work st)) min_j ->
  vam_inv p (vam_allocated st min_i min_j) /\
  (vam_measure (vam_allocated st min_i min_j) < vam_measure st)%nat.
Proof.
  intros Hp (Ht & Hpos & Hsh & Hrows & Hcols) Hi Hj Hsi Hdj.
  destruct (allocated_positive p _ min_i min_j Hp Ht Hi Hj Hsi Hdj)
    as (Hcell & Hx & Hlt).
  destruct (allocate_tracked p _ min_i min_j Hp Ht Hi Hj Hcell) as [_ Ht'].
  pose proof (tracked_sound p _ Hp Ht) as Hs.
  pose proof (tracked_sound p _ Hp Ht') as Hs'.
  destruct Hs as [_ _ Hls Hld _ Hsn Hdn _ _ _ _].
  destruct Hsh as (_ & _ & _ & Hlr & Hlc). cbn [snap_of fst snd] in *.
  split.
  - unfold vam_inv, vam_allocated. cbn [vam_work active_rows active_cols].
    set (w' := allocated (vam_work st) min_i min_j) in *.
    split; [exact Ht'|]. split.
    { unfold w', allocated. cbn [out]. apply Forall_app.
      split; [exact Hpos|]. constructor; [exact Hx|constructor]. }
    split.
    { unfold vam_shape. cbn [vam_work active_rows active_cols].
      split; [apply (snd_len_s p _ Hs')|]. split; [apply (snd_len_d p _ Hs')|].
      split; [apply (sound_shaped p _ Hs')|].
      split; [destruct (at_ 0 (s w') min_i =? 0)|
              destruct (at_ 0 (d w') min_j =? 0)];
        rewrite ?len_upd; assumption. }
    split.
    + intros i Hir Hspos. destruct (Z.eq_dec min_i i) as [<-|Hne].
      * destruct (at_ 0 (s w') min_i =? 0) eqn:E;
          [apply Z.eqb_eq in E; lia|].
        apply Hrows; [exact Hi|exact Hsi].
      * assert (Hsame : at_ 0 (s w') i = at_ 0 (s (vam_work st)) i).
        { unfold w', allocated. cbn [s]. apply at_upd_other; lia. }
        rewrite Hsame in Hspos.
        destruct (at_ 0 (s w') min_i =? 0);
          [rewrite at_upd_other by lia|]; now apply Hrows.
    + intros j Hjr Hdpos. destruct (Z.eq_dec min_j j) as [<-|Hne].
      * destruct (at_ 0 (d w') min_j =? 0) eqn:E;
          [apply Z.eqb_eq in E; lia|].
        apply Hcols; [exact Hj|exact Hdj].
      * assert (Hsame : at_ 0 (d w') j = at_ 0 (d (vam_work st)) j).
        { unfold w', allocated. cbn [d]. apply at_upd_other; lia. }
        rewrite Hsame in Hdpos.
        destruct (at_ 0 (d w') min_j =? 0);
          [rewrite at_upd_other by lia|]; now apply Hcols.
  - unfold vam_measure, lcm_measure, vam_allocated. cbn [vam_work].
    pose proof (npos_bounds (s (allocated (vam_work st) min_i min_j))).
    pose proof (npos_bounds (d (allocated (vam_work st) min_i min_j))). lia.
Qed.

Lemma vam_step_inv (p : TransportationSolver) (st : vam_state) :
  problem p -> vam_inv p st ->
  exists b, vam_cond p st = Ok b /\
    (b = true ->
       exists r, vam_body p st = Ok r /\
         (r <> None) /\
         forall st', r = Some st' ->
           vam_inv p st' /\ (vam_measure st' < vam_measure st)%nat).
Proof.
  intros Hp Hinv. pose proof Hp as (Hwf & _).
  pose proof Hinv as (_ & _ & Hsh & _).
  eexists. split; [apply (vam_cond_spec p st Hwf Hsh)|]. intros Hb.
  apply andb_true_iff in Hb. destruct Hb as [Hr Hc].
  apply existsb_range_true in Hr, Hc.
  destruct (vam_body_live p st Hp Hinv Hr Hc)
    as (mi & mj & E & Hi & Hj & Hsi & Hdj).
  eexists. split; [exact E|]. split; [discriminate|].
  intros st' Hst'. injection Hst' as <-.
  now apply vam_allocated_inv.
Qed.

Lemma vam_start_inv (p : TransportationSolver) : problem p -> vam_inv p (vam_start p).
Proof.
  intros Hp. pose proof Hp as ((Hm & Hn & Hls & Hld & _) & _).
  pose proof (start_sound p Hp) as Hs.
  unfold vam_inv, vam_start. cbn [vam_work active_rows active_cols].
  split; [apply start_tracked|]. split; [constructor|]. split.
  - unfold vam_shape. cbn [vam_work active_rows active_cols].
    split; [exact Hls|]. split; [exact Hld|].
    split; [apply (sound_shaped p _ Hs)|].
    split; apply len_times; lia.
  - split; intros k Hk _; apply at_times; exact Hk.
Qed.

Lemma vam_solved (p : TransportationSolver) :
  problem p ->
  exists sol,
    (forall fuel, enough p fuel -> solve_vam fuel p = Ok sol) /\
    solved p sol /\ positive_steps (steps sol).
Proof.
  intros Hp. pose proof Hp as (Hwf & _).
  destruct (while_total (vam_inv p) vam_measure (vam_cond p) (vam_body p)
              (vam_start p)) as [st [Hrun [Hinv Hexit]]].
  - intros st Hinv. destruct (vam_step_inv p st Hp Hinv) as [b [Ec Hb]].
    exists b. split; [exact Ec|]. intros Hbt.
    destruct (Hb Hbt) as (r & Er & _ & Hr). eauto.
  - now apply vam_start_inv.
  - pose proof Hinv as (Ht & Hpos & Hsh & Hrows & Hcols).
    pose proof (tracked_sound p _ Hp Ht) as Hs.
    pose proof (finish_ok p _ Hwf (sound_shaped p _ Hs)) as Efin.
    assert (Hz : all_zero (s (vam_work st)) \/ all_zero (d (vam_work st))).
    { pose proof Hs as [_ _ Hls Hld _ Hsn Hdn _ _ _ _].
      cbn [snap_of fst snd] in *.
      destruct Hexit as [Hc|[Hc Hb]].
      - rewrite (vam_cond_spec p st Hwf Hsh) in Hc. injection Hc as Hc.
        apply andb_false_iff in Hc.
        destruct Hc as [Hc|Hc]; [left|right]; apply all_zero_below;
          intros k Hk; pose proof (proj1 (existsb_range_false _ _) Hc k) as Hf.
        + pose proof (proj1 (Forall_at 0 _ _) Hsn k Hk) as H0. cbv beta in H0.
          destruct (Z.eq_dec (at_ 0 (s (vam_work st)) k) 0) as [E|E]; [exact E|].
          exfalso. assert (Hl : liveb (active_rows st) (s (vam_work st)) k = true).
          { apply liveb_true. split; [apply Hrows|]; lia. }
          rewrite Hf in Hl by lia. discriminate.
        + pose proof (proj1 (Forall_at 0 _ _) Hdn k Hk) as H0. cbv beta in H0.
          destruct (Z.eq_dec (at_ 0 (d (vam_work st)) k) 0) as [E|E]; [exact E|].
          exfalso. assert (Hl : liveb (active_cols st) (d (vam_work st)) k = true).
          { apply liveb_true. split; [apply Hcols|]; lia. }
          rewrite Hf in Hl by lia. discriminate.
      - exfalso. destruct (vam_step_inv p st Hp Hinv) as [b [Ec Hbt]].
        rewrite Hc in Ec. injection Ec as <-.
        destruct (Hbt eq_refl) as (r & Er & Hne & _).
        rewrite Hb in Er. injection Er as <-. now apply Hne. }
    destruct (sound_exhausted p _ Hp Hs Hz) as (Hs0 & Hd0 & _).
    eexists. split; [|split].
    + intros fuel Hf. unfold solve_vam. rewrite Hrun.
      * cbn [bind]. exact Efin.
      * unfold vam_measure, vam_start. cbn [vam_work].
        now apply lcm_measure_start.
    + destruct Ht as [Hc Hf]. cbn [steps final_alloc equation].
      split; [exact Hc|]. split; [|reflexivity].
      exists (s (vam_work st)), (d (vam_work st)). auto.
    + exact Hpos.
Qed.

(** ** What every solve has *)

Lemma solved_sound (p : TransportationSolver) (sol : solution) :
  problem p -> solved p sol -> sound p (final (snap0 p) (steps sol)).
Proof. intros Hp (Hc & _). now apply chain_sound. Qed.

Lemma solved_feasible (p : TransportationSolver) (sol : solution) :
  problem p -> solved p sol -> feasible p (final_alloc sol).
Proof.
  intros Hp Hsol. pose proof (solved_sound p sol Hp Hsol) as Hs.
  destruct Hsol as (_ & (sv & dv & Hf & Hs0 & Hd0) & _).
  rewrite Hf in Hs.
  destruct (sound_exhausted p _ Hp Hs (or_introl Hs0)) as (_ & _ & Hfeas).
  exact Hfeas.
Qed.

Lemma step_potential (p : TransportationSolver) (prev : snapshot)
  (r : step_record) :
  sound p prev -> allocation_step p prev r ->
  ind (step_x r) + potential (after r) <= potential prev.
Proof.
  destruct prev as [[a sv] dv]. intros Hs Hstep.
  destruct Hs as [_ _ Hls Hld _ Hsn Hdn _ _ _ _]. cbn [fst snd] in *.
  destruct Hstep as (Hi & Hj & _ & Hx & _ & Hs' & Hd').
  unfold potential, after. cbn [fst snd]. rewrite Hs', Hd'.
  rewrite !npos_upd by lia.
  set (si := at_ 0 sv (step_i r)) in *. set (dj := at_ 0 dv (step_j r)) in *.
  assert (Hsi : 0 <= si) by (apply (proj1 (Forall_at 0 _ _) Hsn); lia).
  assert (Hdj : 0 <= dj) by (apply (proj1 (Forall_at 0 _ _) Hdn); lia).
  pose proof (npos_bounds sv). pose proof (npos_bounds dv).
  destruct (Z.eq_dec (step_x r) 0) as [E0|Hne].
  - rewrite E0, !Z.sub_0_r, (ind_nonpos 0) by lia. lia.
  - assert (Hsp : 0 < si) by lia. assert (Hdp : 0 < dj) by lia.
    assert (H1 : 1 <= npos sv) by (apply (npos_at_pos sv (step_i r)); [lia|exact Hsp]).
    assert (H2 : 1 <= npos dv) by (apply (npos_at_pos dv (step_j r)); [lia|exact Hdp]).
    rewrite (ind_pos (step_x r)) by lia.
    rewrite (ind_pos si), (ind_pos dj) by assumption.
    pose proof (ind_range (si - step_x r)). pose proof (ind_range (dj - step_x r)).
    assert (Hone : ind (si - step_x r) = 0 \/ ind (dj - step_x r) = 0).
    { destruct (Z.le_ge_cases si dj); [left|right]; apply ind_nonpos; lia. }
    lia.
Qed.

Lemma chain_effective (p : TransportationSolver) (l : list step_record) :
  forall prev,
    sound p prev -> chain (allocation_step p) prev l ->
    effective l + potential (final prev l) <= potential prev.
Proof.
  induction l as [|r l IH]; intros prev Hs Hc.
  - unfold effective. cbn. lia.
  - destruct Hc as [Hr Hc]. rewrite final_cons.
    pose proof (step_potential p prev r Hs Hr).
    pose proof (IH (after r) (step_sound p prev r Hs Hr) Hc).
    unfold effective in *. cbn [map]. rewrite zsum_cons. lia.
Qed.

Lemma solved_effective (p : TransportationSolver) (sol : solution) :
  problem p -> solved p sol -> effective (steps sol) <= m p + n p - 1.
Proof.
  intros Hp (Hc & _). pose proof Hp as ((Hm & Hn & Hls & Hld & _) & _).
  pose proof (chain_effective p _ _ (start_sound p Hp) Hc) as H.
  unfold potential in H at 2. cbn [snap0 fst snd] in H.
  pose proof (npos_bounds (supply p)). pose proof (npos_bounds (demand p)).
  unfold potential in H. lia.
Qed.

Lemma Forall2_refl {A : Type} (R : A -> A -> Prop) (l : list A) :
  (forall x, R x x) -> Forall2 R l l.
Proof. intros Hr. induction l; constructor; auto. Qed.

Lemma Forall2_replace_l {A : Type} (R : A -> A -> Prop) (l : list A)
  (k : nat) (v : A) :
  (forall x, R x x) -> R v (nth k l v) -> Forall2 R (replace_nth k l v) l.
Proof.
  intros Hr. revert k. induction l as [|h t IH]; intros [|k] Hv; simpl in *;
    constructor; auto using Forall2_refl.
Qed.

Lemma Forall2_replace_r {A : Type} (R : A -> A -> Prop) (l : list A)
  (k : nat) (v : A) :
  (forall x, R x x) -> R (nth k l v) v -> Forall2 R l (replace_nth k l v).
Proof.
  intros Hr. revert k. induction l as [|h t IH]; intros [|k] Hv; simpl in *;
    constructor; auto using Forall2_refl.
Qed.

Lemma le_vec_refl (v : list Z) : le_vec v v.
Proof. apply Forall2_refl. intros x. lia. Qed.

Lemma le_vec_upd_below (v : list Z) (i y : Z) :
  0 <= i < len v -> y <= at_ 0 v i -> le_vec (upd v i y) v.
Proof.
  intros Hi Hy. unfold le_vec, upd. apply Forall2_replace_l; [intros; lia|].
  unfold at_ in Hy. rewrite (nth_indep v y 0); [exact Hy|].
  unfold len in Hi. lia.
Qed.

Lemma le_vec_upd_above (v : list Z) (i y : Z) :
  0 <= i < len v -> at_ 0 v i <= y -> le_vec v (upd v i y).
Proof.
  intros Hi Hy. unfold le_vec, upd. apply Forall2_replace_r; [intros; lia|].
  unfold at_ in Hy. rewrite (nth_indep v y 0); [exact Hy|].
  unfold len in Hi. lia.
Qed.

Lemma le_mat_upd2 (a : list (list Z)) (i j x : Z) :
  0 <= i < len a -> 0 <= j < len (at_ [] a i) -> cell a i j <= x ->
  le_mat a (upd2 a i j x).
Proof.
  intros Hi Hj Hx. unfold le_mat, upd2, upd at 1.
  apply Forall2_replace_r; [apply le_vec_refl|].
  rewrite (nth_indep a _ []) by (unfold len in Hi; lia).
  now apply le_vec_upd_above.
Qed.

Lemma step_facts (p : TransportationSolver) (prev : snapshot)
  (r : step_record) :
  sound p prev -> allocation_step p prev r ->
  sound p (after r) /\ (step_nonneg prev r /\ step_grows prev r).
Proof.
  intros Hs Hstep. pose proof (step_sound p prev r Hs Hstep) as Hs'.
  split; [exact Hs'|].
  destruct prev as [[a sv] dv].
  destruct Hs as [Hla Hrows Hls Hld _ Hsn Hdn _ _ _ _].
  destruct Hs' as [_ _ _ _ Han' Hsn' Hdn' _ _ _ _].
  cbn [fst snd after] in *.
  destruct Hstep as (Hi & Hj & Hfresh & Hx & Ha & Hs1 & Hd1).
  assert (Hsi : 0 <= at_ 0 sv (step_i r))
    by (apply (proj1 (Forall_at 0 _ _) Hsn); lia).
  assert (Hdj : 0 <= at_ 0 dv (step_j r))
    by (apply (proj1 (Forall_at 0 _ _) Hdn); lia).
  assert (Hrow : len (at_ [] a (step_i r)) = n p)
    by (apply (proj1 (Forall_at [] _ _) Hrows); lia).
  unfold step_nonneg, step_grows. cbn [fst snd].
  repeat split; auto; try lia.
  - rewrite Hs1. apply le_vec_upd_below; lia.
  - rewrite Hd1. apply le_vec_upd_below; lia.
  - rewrite Ha. apply le_mat_upd2; lia.
Qed.

Lemma solved_steps (p : TransportationSolver) (sol : solution) :
  problem p -> solved p sol ->
  chain step_nonneg (snap0 p) (steps sol) /\
  chain step_grows (snap0 p) (steps sol).
Proof.
  intros Hp (Hc & _).
  destruct (chain_invariant (allocation_step p)
              (fun prev r => step_nonneg prev r /\ step_grows prev r)
              (sound p) (steps sol) (step_facts p) (snap0 p)
              (start_sound p Hp) Hc) as [Hboth _].
  split.
  - apply (chain_invariant _ step_nonneg (fun _ => True) (steps sol))
      with (prev := snap0 p) in Hboth; [tauto| |exact I].
    intros prev r _ [H _]. auto.
  - apply (chain_invariant _ step_grows (fun _ => True) (steps sol))
      with (prev := snap0 p) in Hboth; [tauto| |exact I].
    intros prev r _ [_ H]. auto.
Qed.



(** The three solves of a problem, each with one result for all
    sufficient fuel. *)
Lemma three_solved (p : TransportationSolver) :
  problem p ->
  exists nwc lcm vam,
    (forall fuel, enough p fuel ->
       solve_nwc fuel p = Ok nwc /\
       solve_least_cost fuel p = Ok lcm /\
       solve_vam fuel p = Ok vam) /\
    solved p nwc /\ solved p lcm /\ solved p vam.
Proof.
  intros Hp.
  destruct (nwc_solved p Hp) as (nwc & Hn & Hsn & _).
  destruct (lcm_solved p Hp) as (lcm & _ & _ & Hl & Hsl & _).
  destruct (vam_solved p Hp) as (vam & Hv & Hsv & _).
  exists nwc, lcm, vam. split.
  - intros fuel Hf. split; [now apply Hn|]. split; [now apply Hl|now apply Hv].
  - split; [exact Hsn|]. split; [exact Hsl|exact Hsv].
Qed.

(** ** Vogel: the shape of the states *)





(** ** North-West Corner never looks at the costs *)

Lemma while_ext {S : Type} (cond cond' : S -> res bool)
  (body body' : S -> res (option S)) :
  (forall st, cond st = cond' st) -> (forall st, body st = body' st) ->
  forall fuel st, while fuel cond body st = while fuel cond' body' st.
Proof.
  intros Hc Hb. induction fuel as [|fuel IH]; intros st; simpl;
    rewrite Hc; destruct (cond' st) as [[|]| |]; simpl; auto.
  rewrite Hb. destruct (body' st) as [[st'|]| |]; simpl; auto.
Qed.

Lemma nwc_loop_costs (p p' : TransportationSolver) (fuel : nat) :
  supply p' = supply p -> demand p' = demand p ->
  m p' = m p -> n p' = n p ->
  while fuel (nwc_cond p') (nwc_body p') (start p', 0, 0) =
  while fuel (nwc_cond p) (nwc_body p) (start p, 0, 0).
Proof.
  intros Hs Hd Hm Hn.
  assert (E : start p' = start p) by (unfold start; now rewrite Hs, Hd, Hm, Hn).
  rewrite E. apply while_ext.
  - intros [[w i] j]. unfold nwc_cond. now rewrite Hm, Hn.
  - intros [[w i] j]. unfold nwc_body. now rewrite Hn.
Qed.

Lemma finish_fields (p : TransportationSolver) (w : work) (sol : solution) :
  finish p w = Ok sol -> final_alloc sol = alloc w /\ steps sol = out w.
Proof.
  unfold finish. destruct (_print_cost_equation p (alloc w)) as [eq| |];
    cbn [bind]; try discriminate.
  intros H. injection H as <-. auto.
Qed.

(** ** What the reported total contains *)

Lemma zsum_map_ext (f g : Z -> Z) (l : list Z) :
  (forall k, In k l -> f k = g k) -> zsum (map f l) = zsum (map g l).
Proof. intros H. f_equal. now apply map_ext_in. Qed.

Lemma at_app_l {A : Type} (dflt : A) (l1 l2 : list A) (i : Z) :
  0 <= i < len l1 -> at_ dflt (l1 ++ l2) i = at_ dflt l1 i.
Proof.
  intros Hi. unfold at_. apply app_nth1. unfold len in Hi. lia.
Qed.

Lemma at_app_last {A : Type} (dflt : A) (l : list A) (v : A) :
  at_ dflt (l ++ [v]) (len l) = v.
Proof.
  unfold at_, len. rewrite Nat2Z.id, app_nth2 by lia.
  now rewrite Nat.sub_diag.
Qed.

Lemma at_map {A B : Type} (f : A -> B) (da : A) (db : B) (l : list A) (i : Z) :
  0 <= i < len l -> at_ db (map f l) i = f (at_ da l i).
Proof.
  intros Hi. unfold at_. apply nth_map_in. unfold len in Hi. lia.
Qed.

Lemma py_int_zero : py_int 0%Q = 0.
Proof. reflexivity. Qed.

(** On a non-negative quantity the test [q > 0] of the evaluator changes
    nothing. *)
Lemma cost_term_nonneg (p : TransportationSolver) (a : list (list Z)) (i j : Z) :
  0 <= cell a i j ->
  cost_term p a i j =
  if is_dummy p j then 0 else py_int (cost p i j) * cell a i j.
Proof.
  intros Hq. unfold cost_term. destruct (is_dummy p j);
    [now rewrite andb_false_r|].
  rewrite andb_true_r. destruct (0 <? cell a i j) eqn:E; [reflexivity|].
  apply Z.ltb_ge in E. replace (cell a i j) with 0 by lia. lia.
Qed.

Lemma cell_nonneg (a : list (list Z)) (rows cols i j : Z) :
  len a = rows -> Forall (fun row => len row = cols) a -> Forall nonneg a ->
  0 <= i < rows -> 0 <= j < cols -> 0 <= cell a i j.
Proof.
  intros Hla Hrows Hnn Hi Hj. unfold cell.
  pose proof (proj1 (Forall_at [] _ _) Hnn i) as Hr.
  pose proof (proj1 (Forall_at [] _ _) Hrows i) as Hl. cbv beta in Hr, Hl.
  apply (proj1 (Forall_at 0 _ _) (Hr ltac:(lia))). lia.
Qed.

(** The total reported for a problem built by the constructor is the sum,
    over the cells of the original matrix only, of the truncated unit cost
    times the quantity: the dummy column is left out by the evaluator, the
    dummy row adds nothing because its costs are 0. *)
Lemma reported_total_real (cost0 : list (list Q)) (sup dem : list Z)
  (a : list (list Z)) :
  valid_input cost0 sup dem ->
  shaped (new cost0 sup dem) a -> Forall nonneg a ->
  reported_total (new cost0 sup dem) a =
  zsum (map (fun i =>
          zsum (map (fun j => py_int (at_ 0%Q (at_ [] cost0 i) j) * cell a i j)
                    (range (len dem))))
          (range (len sup))).
Proof.
  intros (Hm & Hn & Hlc & Hrows & _ & _) [Hla Hra] Hnn.
  unfold reported_total.
  destruct (new_cases cost0 sup dem) as [[_ E]|[[_ E]|[_ E]]];
    rewrite E in *; clear E;
    cbn [m n cost_matrix dummy_type supply demand] in *.
  - apply zsum_map_ext. intros i Hi. apply range_In in Hi.
    rewrite range_succ, map_app, zsum_app by lia. cbn [map].
    rewrite zsum_cons, zsum_nil.
    rewrite (cost_term_nonneg _ a i (len dem))
      by (apply (cell_nonneg a (len sup) (len dem + 1)); auto; lia).
    unfold is_dummy at 1. cbn [dummy_type n].
    replace (len dem =? len dem + 1 - 1) with true by (symmetry; apply Z.eqb_eq; lia).
    cbv iota.
    match goal with |- ?x + _ = ?y => enough (Hxy : x = y) by lia end.
    apply zsum_map_ext.
    intros j Hj. apply range_In in Hj.
    rewrite cost_term_nonneg
      by (apply (cell_nonneg a (len sup) (len dem + 1)); auto; lia).
    unfold is_dummy. cbn [dummy_type n].
    replace (j =? len dem + 1 - 1) with false by (symmetry; apply Z.eqb_neq; lia).
    cbv iota. unfold cost. cbn [cost_matrix].
    rewrite (at_map _ [] []) by lia.
    rewrite at_app_l; [reflexivity|].
    rewrite (proj1 (Forall_at [] _ _) Hrows) by lia. exact Hj.
  - rewrite range_succ, map_app, zsum_app by lia. cbn [map].
    rewrite zsum_cons, zsum_nil.
    assert (Hlast : zsum (map (cost_term
              {| cost_matrix := cost0 ++ [times 0%Q (len dem)];
                 supply := sup ++ [zsum dem - zsum sup]; demand := dem;
                 m := len sup + 1; n := len dem;
                 total_supply := zsum sup; total_demand := zsum dem;
                 dummy_type := Some dummy_supply |} a (len sup))
              (range (len dem))) = 0).
    { apply zsum_all_zero. apply Forall_map. apply Forall_forall.
      intros j Hj. apply range_In in Hj.
      rewrite cost_term_nonneg
        by (apply (cell_nonneg a (len sup + 1) (len dem)); auto; lia).
      unfold is_dummy, cost. cbn [dummy_type cost_matrix].
      rewrite <- Hlc, at_app_last, at_times by lia.
      rewrite py_int_zero. lia. }
    rewrite Hlast.
    match goal with |- ?x + _ = ?y => enough (Hxy : x = y) by lia end.
    apply zsum_map_ext.
    intros i Hi. apply range_In in Hi. apply zsum_map_ext.
    intros j Hj. apply range_In in Hj.
    rewrite cost_term_nonneg
      by (apply (cell_nonneg a (len sup + 1) (len dem)); auto; lia).
    unfold is_dummy, cost. cbn [dummy_type cost_matrix].
    rewrite at_app_l by lia. reflexivity.
  - apply zsum_map_ext. intros i Hi. apply range_In in Hi.
    apply zsum_map_ext. intros j Hj. apply range_In in Hj.
    rewrite cost_term_nonneg
      by (apply (cell_nonneg a (len sup) (len dem)); auto; lia).
    reflexivity.
Qed.

(** A whole-number cost is not changed by the truncation. *)
Lemma py_int_whole (z : Z) : py_int (inject_Z z) = z.
Proof. unfold py_int, inject_Z. cbn [Qnum Qden]. apply Z.quot_1_r. Qed.

(** ** The worked example is a problem *)

Lemma example_input : valid_input example_cost example_supply example_demand.
Proof.
  unfold valid_input, nonneg, example_cost, example_supply, example_demand.
  repeat split; try (vm_compute; congruence);
    repeat constructor; vm_compute; congruence.
Defined.

Lemma example_problem : problem example.
Proof.
  unfold problem, wf, balanced, nonneg.
  repeat split; try (vm_compute; congruence);
    repeat constructor; vm_compute; congruence.
Defined.

(** * The claims *)

(** A claim about the three methods starts from their three results. *)
Ltac three_results p Hp :=
  let nwc := fresh "nwc" in
  let lcm := fresh "lcm" in
  let vam := fresh "vam" in
  let Hrun := fresh "Hrun" in
  destruct (three_solved p Hp) as (nwc & lcm & vam & Hrun & ? & ? & ?);
  exists nwc, lcm, vam; split; [exact Hrun|].




(** C7. On a balanced problem with non-negative supplies and demands each
    of the three solve loops terminates, and it makes at most [m + n - 1]
    allocations of a positive quantity. *)
Theorem termination_bound (p : TransportationSolver) :
  problem p ->
  exists nwc lcm vam,
    (forall fuel, enough p fuel ->
       solve_nwc fuel p = Ok nwc /\
       solve_least_cost fuel p = Ok lcm /\
       solve_vam fuel p = Ok vam) /\
    effective (steps nwc) <= m p + n p - 1 /\
    effective (steps lcm) <= m p + n p - 1 /\
    effective (steps vam) <= m p + n p - 1.
Proof.
  intros Hp. three_results p Hp.
  split; [|split]; now apply solved_effective.
Qed.

Lemma termination_bound_witness :
  problem example /\
  exists nwc lcm vam,
    (forall fuel, enough example fuel ->
       solve_nwc fuel example = Ok nwc /\
       solve_least_cost fuel example = Ok lcm /\
       solve_vam fuel example = Ok vam) /\
    effective (steps nwc) <= m example + n example - 1 /\
    effective (steps lcm) <= m example + n example - 1 /\
    effective (steps vam) <= m example + n example - 1.
Proof.
  split; [exact example_problem|exact (termination_bound example example_problem)].
Defined.

(** C8. Throughout every solve on non-negative balanced input every
    allocated quantity is non-negative, every entry of the remaining
    supply and demand is non-negative after every step, and both vectors
    are component-wise non-increasing from one step to the next. *)
Theorem nonnegative_nonincreasing (p : TransportationSolver) :
  problem p ->
  exists nwc lcm vam,
    (forall fuel, enough p fuel ->
       solve_nwc fuel p = Ok nwc /\
       solve_least_cost fuel p = Ok lcm /\
       solve_vam fuel p = Ok vam) /\
    chain step_nonneg (snap0 p) (steps nwc) /\
    chain step_nonneg (snap0 p) (steps lcm) /\
    chain step_nonneg (snap0 p) (steps vam).
Proof.
  intros Hp. three_results p Hp.
  split; [|split]; now apply solved_steps.
Qed.

Lemma nonnegative_nonincreasing_witness :
  problem example /\
  exists nwc lcm vam,
    (forall fuel, enough example fuel ->
       solve_nwc fuel example = Ok nwc /\
       solve_least_cost fuel example = Ok lcm /\
       solve_vam fuel example = Ok vam) /\
    chain step_nonneg (snap0 example) (steps nwc) /\
    chain step_nonneg (snap0 example) (steps lcm) /\
    chain step_nonneg (snap0 example) (steps vam).
Proof.
  split; [exact example_problem|
          exact (nonnegative_nonincreasing example example_problem)].
Defined.



(** C10. On every valid problem every step of Least Cost and of Vogel has
    a strictly positive quantity, whereas North-West Corner, on some valid
    input with a zero demand entry, records a step of quantity 0. *)
Theorem positive_quantities (p : TransportationSolver) :
  problem p ->
  (exists lcm vam,
     (forall fuel, enough p fuel ->
        solve_least_cost fuel p = Ok lcm /\ solve_vam fuel p = Ok vam) /\
     positive_steps (steps lcm) /\ positive_steps (steps vam)) /\
  (exists cost sup dem,
     valid_input cost sup dem /\ (In 0 sup \/ In 0 dem) /\
     exists nwc,
       (forall fuel, enough (new cost sup dem) fuel ->
          solve_nwc fuel (new cost sup dem) = Ok nwc) /\
       exists r, In r (steps nwc) /\ step_x r = 0).
Proof.
  intros Hp. split.
  - destruct (lcm_solved p Hp) as (lcm & _ & _ & Hl & _ & Hpl & _).
    destruct (vam_solved p Hp) as (vam & Hv & _ & Hpv).
    exists lcm, vam. split; [|split; assumption].
    intros fuel Hf. split; [now apply Hl|now apply Hv].
  - exists [[1%Q; 1%Q]], [5], [0; 5].
    assert (Hin : valid_input [[1%Q; 1%Q]] [5] [0; 5]).
    { unfold valid_input, nonneg.
      repeat split; try (vm_compute; congruence);
        repeat constructor; vm_compute; congruence. }
    split; [exact Hin|]. split; [right; left; reflexivity|].
    destruct (nwc_solved _ (new_problem _ _ _ Hin)) as (nwc & Hrun & _).
    exists nwc. split; [exact Hrun|].
    assert (Hf : enough (new [[1%Q; 1%Q]] [5] [0; 5]) 4)
      by (unfold enough; vm_compute; lia).
    specialize (Hrun 4%nat Hf). vm_compute in Hrun.
    injection Hrun as <-. cbn [steps].
    eexists. split; [left; reflexivity|]. reflexivity.
Qed.

Lemma positive_quantities_witness :
  problem example /\
  (exists lcm vam,
     (forall fuel, enough example fuel ->
        solve_least_cost fuel example = Ok lcm /\
        solve_vam fuel example = Ok vam) /\
     positive_steps (steps lcm) /\ positive_steps (steps vam)).
Proof.
  split; [exact example_problem|
          exact (proj1 (positive_quantities example example_problem))].
Defined.

(** C5. In North-West Corner the cursor starts at (0,0); each step
    allocates the smaller of the remaining supply and demand at the
    cursor, which then moves by the rule [nwc_advance]; the loop runs
    while the cursor is inside the matrix and stops when it reaches row
    [m] or column [n]; and the steps do not depend on the costs. *)
Theorem nwc_traversal (p : TransportationSolver) :
  problem p ->
  exists sol,
    (forall fuel, enough p fuel -> solve_nwc fuel p = Ok sol) /\
    chain (allocation_step p) (snap0 p) (steps sol) /\
    nwc_visits p 0 0 (steps sol) /\
    (fst (nwc_cursor p 0 0 (steps sol)) = m p \/
     snd (nwc_cursor p 0 0 (steps sol)) = n p) /\
    (forall p' fuel sol',
       supply p' = supply p -> demand p' = demand p ->
       m p' = m p -> n p' = n p ->
       solve_nwc fuel p' = Ok sol' ->
       steps sol' = steps sol /\ final_alloc sol' = final_alloc sol).
Proof.
  intros Hp. destruct (nwc_solved p Hp) as (sol & Hrun & (Hc & _) & Hvis & Hend).
  exists sol. split; [exact Hrun|]. split; [exact Hc|].
  split; [exact Hvis|]. split; [exact Hend|].
  intros p' fuel sol' Hs Hd Hm Hn Hsol'.
  unfold solve_nwc in Hsol'. rewrite (nwc_loop_costs p p' fuel Hs Hd Hm Hn) in Hsol'.
  destruct (while fuel (nwc_cond p) (nwc_body p) (start p, 0, 0))
    as [[[w i] j]| |] eqn:Ew; cbn [bind] in Hsol'; try discriminate.
  destruct (finish_fields p' w sol' Hsol') as [Ha' Hs'].
  set (big := Nat.max fuel (Datatypes.S (Z.to_nat (m p + n p)))).
  assert (Hbig : enough p big) by (unfold enough, big; lia).
  pose proof (Hrun big Hbig) as Hsol. unfold solve_nwc in Hsol.
  rewrite (while_mono _ _ fuel big _ _ Ew) in Hsol by (unfold big; lia).
  cbn [bind] in Hsol. destruct (finish_fields p w sol Hsol) as [Ha Hst].
  split; congruence.
Qed.

Lemma nwc_traversal_witness :
  problem example /\
  exists sol,
    (forall fuel, enough example fuel -> solve_nwc fuel example = Ok sol) /\
    chain (allocation_step example) (snap0 example) (steps sol) /\
    nwc_visits example 0 0 (steps sol) /\
    (fst (nwc_cursor example 0 0 (steps sol)) = m example \/
     snd (nwc_cursor example 0 0 (steps sol)) = n example) /\
    (forall p' fuel sol',
       supply p' = supply example -> demand p' = demand example ->
       m p' = m example -> n p' = n example ->
       solve_nwc fuel p' = Ok sol' ->
       steps sol' = steps sol /\ final_alloc sol' = final_alloc sol).
Proof.
  split; [exact example_problem|exact (nwc_traversal example example_problem)].
Defined.

(** C4. In Least Cost, while a real destination has demand left, every
    allocation is made at the first cell, in row-major order, of least
    cost among the cells with supply and demand left outside the dummy
    column; when that loop stops no real destination has demand left, and
    only then the sources with supply left are drained into the dummy
    column, in one pass in increasing order of the sources, after which
    no source has supply left and no destination has demand left. *)
Theorem least_cost_order (p : TransportationSolver) :
  problem p ->
  exists sol main drain,
    (forall fuel, enough p fuel -> solve_least_cost fuel p = Ok sol) /\
    steps sol = main ++ drain /\
    chain (allocation_step p) (snap0 p) (steps sol) /\
    chain (lcm_pick p) (snap0 p) main /\
    (forall j, 0 <= j < real_cols p ->
               at_ 0 (snd (final (snap0 p) main)) j = 0) /\
    chain (drain_pick p) (final (snap0 p) main) drain /\
    rows_increase 0 drain /\
    (dummy_col p < 0 -> drain = []) /\
    exhausted p sol.
Proof.
  intros Hp.
  destruct (lcm_solved p Hp)
    as (sol & main & drain & Hrun & (Hc & Hex & _) & _ & Hsplit & Hmain &
        Hreal & Hdrain & Hinc & Hnil).
  exists sol, main, drain. repeat split; auto.
Qed.

Lemma least_cost_order_witness :
  problem example /\
  exists sol main drain,
    (forall fuel, enough example fuel ->
       solve_least_cost fuel example = Ok sol) /\
    steps sol = main ++ drain /\
    chain (allocation_step example) (snap0 example) (steps sol) /\
    chain (lcm_pick example) (snap0 example) main /\
    (forall j, 0 <= j < real_cols example ->
               at_ 0 (snd (final (snap0 example) main)) j = 0) /\
    chain (drain_pick example) (final (snap0 example) main) drain /\
    rows_increase 0 drain /\
    (dummy_col example < 0 -> drain = []) /\
    exhausted example sol.
Proof.
  split; [exact example_problem|exact (least_cost_order example example_problem)].
Defined.




(** C6 fails on a fractional cost: the evaluator multiplies the quantity
    by [int(cost)].  With the single cost 3/2 and two units shipped, every
    method reports the total 2.0, while cost times quantity is 3. *)
Theorem cost_equation_truncates :
  let p := new [[3 # 2]] [2] [2] in
  dummy_type p = None /\
  (exists nwc, solve_nwc 3 p = Ok nwc /\
               final_alloc nwc = [[2]] /\
               equation nwc = Returns ([(1, 2)], Finite 2)) /\
  (exists lcm, solve_least_cost 3 p = Ok lcm /\
               final_alloc lcm = [[2]] /\
               equation lcm = Returns ([(1, 2)], Finite 2)) /\
  (exists vam, solve_vam 3 p = Ok vam /\
               final_alloc vam = [[2]] /\
               equation vam = Returns ([(1, 2)], Finite 2)) /\
  _print_cost_equation p [[2]] = Ok (Returns ([(1, 2)], Finite 2)) /\
  (cost p 0 0 * inject_Z (cell [[2%Z]] 0%Z 0%Z) == 3)%Q /\
  ~ (inject_Z 2%Z == 3)%Q.
Proof.
  cbv zeta. split; [reflexivity|].
  split; [eexists; split; [vm_compute; reflexivity|split; reflexivity]|].
  split; [eexists; split; [vm_compute; reflexivity|split; reflexivity]|].
  split; [eexists; split; [vm_compute; reflexivity|split; reflexivity]|].
  split; [vm_compute; reflexivity|].
  split; [vm_compute; reflexivity|].
  intros H. vm_compute in H. discriminate.
Qed.

(** * Further properties of the solver *)

(** ** The solve methods *)



Lemma nwc_path (p : TransportationSolver) (l : list step_record) :
  forall prev i j,
    sound p prev -> chain (allocation_step p) prev l ->
    nwc_visits p i j l -> 0 <= i -> 0 <= j ->
    staircase i j l /\
    fst (nwc_cursor p i j l) + snd (nwc_cursor p i j l) = i + j + len l /\
    (l <> [] -> len l <= m p + n p - 1 - (i + j)).
Proof.
  induction l as [|r l IH]; intros prev i j Hs Hc Hv Hi Hj.
  - cbn. split; [exact I|]. split; [lia|]. intros H. contradiction.
  - destruct Hc as [Hr Hc]. destruct Hv as (Him & Hjn & Hri & Hrj & Hv).
    pose proof (step_sound p prev r Hs Hr) as Hs'.
    assert (Hex : at_ 0 (step_s r) i = 0 \/ at_ 0 (step_d r) j = 0).
    { destruct prev as [[a sv] dv].
      destruct Hs as [_ _ Hls Hld _ _ _ _ _ _ _]. cbn [fst snd] in *.
      destruct Hr as (_ & _ & _ & Hx & _ & Hsr & Hdr).
      rewrite Hri, Hrj in *. rewrite Hsr, Hdr.
      rewrite !at_upd_same by lia. lia. }
    cbn [nwc_cursor]. rewrite len_cons.
    destruct (nwc_advance_moves p _ _ i j Hex) as [[E _]|[E _]];
      rewrite E in *.
    + destruct (IH (after r) (i + 1) j Hs' Hc Hv) as (Hst & Hsum & Hlen);
        try lia.
      split; [cbn; auto|]. split; [lia|]. intros _.
      destruct l as [|r' l']; [cbn; lia|].
      assert (Hne : r' :: l' <> []) by discriminate.
      specialize (Hlen Hne). rewrite len_cons in *. lia.
    + destruct (IH (after r) i (j + 1) Hs' Hc Hv) as (Hst & Hsum & Hlen);
        try lia.
      split; [cbn; auto|]. split; [lia|]. intros _.
      destruct l as [|r' l']; [cbn; lia|].
      assert (Hne : r' :: l' <> []) by discriminate.
      specialize (Hlen Hne). rewrite len_cons in *. lia.
Qed.

Lemma nwc_corner (p : TransportationSolver) (l : list step_record) :
  forall prev i j,
    sound p prev -> chain (allocation_step p) prev l ->
    nwc_visits p i j l -> 0 <= i < m p -> 0 <= j < n p ->
    (forall i', 0 <= i' < i -> at_ 0 (snd (fst prev)) i' = 0) ->
    (forall j', 0 <= j' < j -> at_ 0 (snd prev) j' = 0) ->
    (fst (nwc_cursor p i j l) < m p /\ snd (nwc_cursor p i j l) < n p) \/
    (nwc_cursor p i j l = (m p, n p - 1) /\
     exists l0 r, l = l0 ++ [r] /\ step_i r = m p - 1 /\ step_j r = n p - 1).
Proof.
  induction l as [|r l IH]; intros prev i j Hs Hc Hv Hi Hj Hrows Hcols.
  - left. cbn. lia.
  - destruct Hc as [Hr Hc]. destruct Hv as (_ & _ & Hri & Hrj & Hv).
    pose proof (step_sound p prev r Hs Hr) as Hs'.
    pose proof (snd_len_s p _ Hs) as Hls. pose proof (snd_len_d p _ Hs) as Hld.
    pose proof (snd_len_s p _ Hs') as Hls'.
    pose proof (snd_len_d p _ Hs') as Hld'.
    pose proof (snd_s_nonneg p _ Hs') as Hsn.
    pose proof (snd_d_nonneg p _ Hs') as Hdn.
    pose proof (snd_bal p _ Hs') as Hbal.
    destruct prev as [[a sv] dv]. cbn [after fst snd] in *.
    destruct Hr as (_ & _ & _ & Hx & _ & Hsr & Hdr).
    rewrite Hri, Hrj in *.
    assert (Hex : at_ 0 (step_s r) i = 0 \/ at_ 0 (step_d r) j = 0).
    { rewrite Hsr, Hdr. rewrite !at_upd_same by lia. lia. }
    assert (Hrows' : forall i', 0 <= i' < i -> at_ 0 (step_s r) i' = 0).
    { intros i' Hi'. rewrite Hsr, at_upd_other by lia. now apply Hrows. }
    assert (Hcols' : forall j', 0 <= j' < j -> at_ 0 (step_d r) j' = 0).
    { intros j' Hj'. rewrite Hdr, at_upd_other by lia. now apply Hcols. }
    assert (Hdown : at_ 0 (step_s r) i = 0 -> at_ 0 (step_d r) j <> 0 ->
                    i + 1 < m p).
    { intros Hz Hnz. destruct (Z.eq_dec (i + 1) (m p)) as [E|E]; [|lia].
      exfalso.
      assert (H0 : zsum (step_s r) = 0).
      { apply zsum_all_zero, all_zero_below. intros k Hk.
        destruct (Z.eq_dec k i) as [->|Hne]; [exact Hz|].
        apply Hrows'. lia. }
      pose proof (zsum_ge_at (step_d r) j Hdn ltac:(lia)) as Hge.
      pose proof (proj1 (Forall_at 0 _ _) Hdn j ltac:(lia)) as Hpos.
      cbv beta in Hpos. lia. }
    assert (Hright : at_ 0 (step_d r) j = 0 -> at_ 0 (step_s r) i <> 0 ->
                     j + 1 < n p).
    { intros Hz Hnz. destruct (Z.eq_dec (j + 1) (n p)) as [E|E]; [|lia].
      exfalso.
      assert (H0 : zsum (step_d r) = 0).
      { apply zsum_all_zero, all_zero_below. intros k Hk.
        destruct (Z.eq_dec k j) as [->|Hne]; [exact Hz|].
        apply Hcols'. lia. }
      pose proof (zsum_ge_at (step_s r) i Hsn ltac:(lia)) as Hge.
      pose proof (proj1 (Forall_at 0 _ _) Hsn i ltac:(lia)) as Hpos.
      cbv beta in Hpos. lia. }
    cbn [nwc_cursor]. unfold nwc_advance in Hv |- *.
    assert (Hnext : forall i2 j2,
              nwc_visits p i2 j2 l -> 0 <= i2 < m p -> 0 <= j2 < n p ->
              (forall i', 0 <= i' < i2 -> at_ 0 (step_s r) i' = 0) ->
              (forall j', 0 <= j' < j2 -> at_ 0 (step_d r) j' = 0) ->
              (fst (nwc_cursor p i2 j2 l) < m p /\
               snd (nwc_cursor p i2 j2 l) < n p) \/
              (nwc_cursor p i2 j2 l = (m p, n p - 1) /\
               exists l0 r0, r :: l = l0 ++ [r0] /\
                             step_i r0 = m p - 1 /\ step_j r0 = n p - 1)).
    { intros i2 j2 Hv2 Hi2 Hj2 Hr2 Hc2.
      destruct (IH (after r) i2 j2) as [H|(H & l0 & r0 & -> & H1 & H2)];
        auto.
      right. split; [exact H|]. exists (r :: l0), r0. auto. }
    destruct (at_ 0 (step_s r) i =? 0) eqn:Es;
      destruct (at_ 0 (step_d r) j =? 0) eqn:Ed; cbn [andb] in Hv |- *.
    + apply Z.eqb_eq in Es, Ed. destruct (j + 1 <? n p) eqn:Ej.
      * apply Z.ltb_lt in Ej. apply Hnext; auto; try lia.
        intros j' Hj'. destruct (Z.eq_dec j' j) as [->|Hne]; [exact Ed|].
        apply Hcols'. lia.
      * apply Z.ltb_ge in Ej.
        destruct (Z.eq_dec (i + 1) (m p)) as [E|E].
        -- right. destruct l as [|r' l'].
           ++ cbn [nwc_cursor]. split; [f_equal; lia|].
              exists [], r. cbn [app]. split; [reflexivity|]. lia.
           ++ destruct Hv as (Hlt & _). lia.
        -- apply Hnext; auto; try lia.
           intros i' Hi'. destruct (Z.eq_dec i' i) as [->|Hne]; [exact Es|].
           apply Hrows'. lia.
    + apply Z.eqb_eq in Es. apply Z.eqb_neq in Ed.
      specialize (Hdown Es Ed). apply Hnext; auto; try lia.
      intros i' Hi'. destruct (Z.eq_dec i' i) as [->|Hne]; [exact Es|].
      apply Hrows'. lia.
    + apply Z.eqb_neq in Es. apply Z.eqb_eq in Ed.
      specialize (Hright Ed Es). apply Hnext; auto; try lia.
      intros j' Hj'. destruct (Z.eq_dec j' j) as [->|Hne]; [exact Ed|].
      apply Hcols'. lia.
    + apply Z.eqb_neq in Es, Ed. lia.
Qed.

(** X2. North-West Corner never stalls and always ends in the south-east
    corner: from (0,0) every step moves the cursor by exactly one row or
    one column, so the steps form a staircase; on a valid problem there
    are exactly [m + n - 1] of them, those of quantity 0 included, and
    the last one is made in cell [(m - 1, n - 1)]. *)
Theorem nwc_staircase (p : TransportationSolver) :
  problem p ->
  exists sol,
    (forall fuel, enough p fuel -> solve_nwc fuel p = Ok sol) /\
    staircase 0 0 (steps sol) /\
    len (steps sol) = m p + n p - 1 /\
    exists l r, steps sol = l ++ [r] /\
                step_i r = m p - 1 /\ step_j r = n p - 1.
Proof.
  intros Hp. pose proof Hp as ((Hm & Hn & _) & _).
  destruct (nwc_solved p Hp) as (sol & Hrun & (Hc & _) & Hvis & Hend).
  exists sol. split; [exact Hrun|].
  destruct (nwc_path p (steps sol) (snap0 p) 0 0 (start_sound p Hp) Hc Hvis)
    as (Hst & Hsum & _); try lia.
  split; [exact Hst|].
  destruct (nwc_corner p (steps sol) (snap0 p) 0 0 (start_sound p Hp) Hc Hvis)
    as [Hin|[Hcur Hlast]]; try lia.
  rewrite Hcur in Hsum. cbn [fst snd] in Hsum. split; [lia|exact Hlast].
Qed.

Lemma nwc_staircase_witness :
  problem example /\
  exists sol,
    (forall fuel, enough example fuel -> solve_nwc fuel example = Ok sol) /\
    staircase 0 0 (steps sol) /\
    len (steps sol) = 7 /\
    exists l r, steps sol = l ++ [r] /\ step_i r = 2 /\ step_j r = 4.
Proof.
  split; [exact example_problem|exact (nwc_staircase example example_problem)].
Defined.

Lemma positive_cells_upd2 (a : list (list Z)) (i j x : Z) :
  0 <= i < len a -> 0 <= j < len (at_ [] a i) ->
  positive_cells (upd2 a i j x) =
  positive_cells a - ind (cell a i j) + ind x.
Proof.
  intros Hi Hj. unfold positive_cells, upd2, upd at 1.
  rewrite map_replace_nth. unfold len in Hi.
  rewrite zsum_replace_nth by (rewrite length_map; lia).
  rewrite (nth_map_in npos [] 0) by lia.
  fold (at_ [] a i). rewrite npos_upd by assumption. unfold cell. lia.
Qed.

Lemma positive_cells_start (p : TransportationSolver) :
  positive_cells (alloc (start p)) = 0.
Proof.
  unfold positive_cells. apply zsum_all_zero. apply Forall_map.
  apply Forall_forall. intros row Hin. rewrite (start_rows p row Hin).
  unfold npos. apply zsum_all_zero. apply Forall_map. now apply Forall_times.
Qed.

Lemma chain_positive_cells (p : TransportationSolver) (l : list step_record) :
  forall prev,
    sound p prev -> chain (allocation_step p) prev l ->
    positive_cells (fst (fst (final prev l))) =
    positive_cells (fst (fst prev)) + effective l.
Proof.
  induction l as [|r l IH]; intros prev Hs Hc.
  - unfold effective. cbn. lia.
  - destruct Hc as [Hr Hc]. rewrite final_cons.
    rewrite (IH (after r) (step_sound p prev r Hs Hr) Hc).
    unfold effective. cbn [map]. rewrite zsum_cons.
    destruct prev as [[a sv] dv].
    destruct Hs as [Hla Hrows _ _ _ _ _ _ _ _ _]. cbn [fst snd after] in *.
    destruct Hr as (Hi & Hj & Hfresh & _ & Ha & _). rewrite Ha.
    rewrite positive_cells_upd2.
    + rewrite Hfresh, (ind_nonpos 0) by lia. lia.
    + lia.
    + rewrite (proj1 (Forall_at [] _ _) Hrows) by lia. exact Hj.
Qed.

Lemma solved_positive_cells (p : TransportationSolver) (sol : solution) :
  problem p -> solved p sol ->
  positive_cells (final_alloc sol) <= m p + n p - 1.
Proof.
  intros Hp Hsol. pose proof (solved_effective p sol Hp Hsol) as Heff.
  destruct Hsol as (Hc & (sv & dv & Hf & _) & _).
  pose proof (chain_positive_cells p _ _ (start_sound p Hp) Hc) as H.
  rewrite Hf in H. cbn [fst snd snap0] in H.
  rewrite positive_cells_start in H. lia.
Qed.

(** X3. The final allocation of each of the three methods has at most
    [m + n - 1] positive cells. *)
Theorem basic_cells_bound (p : TransportationSolver) :
  problem p ->
  exists nwc lcm vam,
    (forall fuel, enough p fuel ->
       solve_nwc fuel p = Ok nwc /\
       solve_least_cost fuel p = Ok lcm /\
       solve_vam fuel p = Ok vam) /\
    positive_cells (final_alloc nwc) <= m p + n p - 1 /\
    positive_cells (final_alloc lcm) <= m p + n p - 1 /\
    positive_cells (final_alloc vam) <= m p + n p - 1.
Proof.
  intros Hp. three_results p Hp.
  split; [|split]; now apply solved_positive_cells.
Qed.

Lemma basic_cells_bound_witness :
  problem example /\
  exists nwc lcm vam,
    (forall fuel, enough example fuel ->
       solve_nwc fuel example = Ok nwc /\
       solve_least_cost fuel example = Ok lcm /\
       solve_vam fuel example = Ok vam) /\
    positive_cells (final_alloc nwc) <= m example + n example - 1 /\
    positive_cells (final_alloc lcm) <= m example + n example - 1 /\
    positive_cells (final_alloc vam) <= m example + n example - 1.
Proof.
  split; [exact example_problem|exact (basic_cells_bound example example_problem)].
Defined.

Lemma npos_all_zero (v : list Z) : all_zero v -> npos v = 0.
Proof.
  intros H. unfold npos. apply zsum_all_zero. apply Forall_map.
  apply (Forall_impl _ (P := fun x => x = 0)); [|exact H].
  intros x ->. reflexivity.
Qed.

Lemma effective_nonneg (l : list step_record) : 0 <= effective l.
Proof.
  unfold effective. induction l as [|r l IH]; [cbn; lia|].
  cbn [map]. rewrite zsum_cons. pose proof (ind_range (step_x r)). lia.
Qed.

Lemma effective_zero (l : list step_record) :
  effective l = 0 -> Forall (fun r => step_x r <= 0) l.
Proof.
  unfold effective. induction l as [|r l IH]; intros H; [constructor|].
  cbn [map] in H. rewrite zsum_cons in H.
  pose proof (ind_range (step_x r)). pose proof (effective_nonneg l) as Hl.
  unfold effective in Hl. constructor; [|apply IH; lia].
  unfold ind in *. destruct (0 <? step_x r) eqn:E; [lia|].
  now apply Z.ltb_ge in E.
Qed.

Lemma zero_problem_steps (p : TransportationSolver) (sol : solution) :
  problem p -> zsum (supply p) = 0 -> solved p sol ->
  Forall (fun r => step_x r = 0) (steps sol) /\
  (positive_steps (steps sol) -> steps sol = []) /\
  forall i j, 0 <= i < m p -> 0 <= j < n p -> cell (final_alloc sol) i j = 0.
Proof.
  intros Hp Hzero Hsol. pose proof Hp as (Hwf & Hbal & Hsn & Hdn).
  assert (Hs0 : all_zero (supply p)) by now apply zsum_zero_all.
  assert (Hd0 : all_zero (demand p)).
  { apply zsum_zero_all; [exact Hdn|]. unfold balanced in Hbal. lia. }
  pose proof (solved_steps p sol Hp Hsol) as [Hnn _].
  pose proof (solved_sound p sol Hp Hsol) as Hs.
  pose proof (solved_feasible p sol Hp Hsol) as (Hrow & _).
  destruct Hsol as (Hc & (sv & dv & Hf & _) & _).
  pose proof (chain_effective p _ _ (start_sound p Hp) Hc) as Heff.
  unfold potential in Heff. cbn [snap0 fst snd] in Heff.
  rewrite (npos_all_zero _ Hs0), (npos_all_zero _ Hd0) in Heff.
  pose proof (effective_nonneg (steps sol)) as H0.
  assert (Hz : effective (steps sol) = 0) by lia.
  pose proof (effective_zero _ Hz) as Hle.
  assert (Hx : Forall (fun r => step_x r = 0) (steps sol)).
  { clear - Hle Hnn. revert Hnn Hle. generalize (snap0 p) as prev.
    induction (steps sol) as [|r l IH]; intros prev Hnn Hle; [constructor|].
    destruct Hnn as [(Hr & _) Hnn]. inversion Hle as [|? ? Hr' Hl']; subst.
    constructor; [lia|]. now apply (IH (after r)). }
  split; [exact Hx|]. split.
  - intros Hpos. destruct (steps sol) as [|r l]; [reflexivity|].
    inversion Hpos as [|? ? Hr _]; subst.
    inversion Hx as [|? ? Hr' _]; subst. lia.
  - intros i j Hi Hj. rewrite Hf in Hs.
    destruct Hs as [Hla Hrows _ _ Han _ _ _ _ _ _]. cbn [fst snd] in *.
    specialize (Hrow i Hi). rewrite (all_zero_at _ i Hs0) in Hrow.
    unfold rowsum in Hrow.
    assert (Hrn : nonneg (at_ [] (final_alloc sol) i)).
    { apply (proj1 (Forall_at [] _ _) Han). lia. }
    pose proof (zsum_zero_all _ Hrn Hrow) as Hall.
    unfold cell. now apply all_zero_at.
Qed.

(** X5. On a valid problem in which nothing is to be shipped (all
    supplies, hence all demands, are 0), Least Cost and Vogel record no
    step, North-West Corner records steps of quantity 0 only, and every
    method returns the zero matrix. *)
Theorem nothing_to_ship (p : TransportationSolver) :
  problem p -> zsum (supply p) = 0 ->
  exists nwc lcm vam,
    (forall fuel, enough p fuel ->
       solve_nwc fuel p = Ok nwc /\
       solve_least_cost fuel p = Ok lcm /\
       solve_vam fuel p = Ok vam) /\
    Forall (fun r => step_x r = 0) (steps nwc) /\
    steps lcm = [] /\ steps vam = [] /\
    (forall i j, 0 <= i < m p -> 0 <= j < n p ->
       cell (final_alloc nwc) i j = 0 /\
       cell (final_alloc lcm) i j = 0 /\
       cell (final_alloc vam) i j = 0).
Proof.
  intros Hp Hzero.
  destruct (nwc_solved p Hp) as (nwc & Hn & Hsn & _).
  destruct (lcm_solved p Hp) as (lcm & _ & _ & Hl & Hsl & Hpl & _).
  destruct (vam_solved p Hp) as (vam & Hv & Hsv & Hpv).
  destruct (zero_problem_steps p nwc Hp Hzero Hsn) as (Hxn & _ & Hcn).
  destruct (zero_problem_steps p lcm Hp Hzero Hsl) as (_ & Hel & Hcl).
  destruct (zero_problem_steps p vam Hp Hzero Hsv) as (_ & Hev & Hcv).
  exists nwc, lcm, vam. split.
  { intros fuel Hf. split; [now apply Hn|]. split; [now apply Hl|now apply Hv]. }
  split; [exact Hxn|]. split; [now apply Hel|]. split; [now apply Hev|].
  intros i j Hi Hj. split; [now apply Hcn|]. split; [now apply Hcl|now apply Hcv].
Qed.

Lemma nothing_to_ship_witness :
  let p := new [[7%Q]] [0] [0] in
  problem p /\ zsum (supply p) = 0 /\
  exists nwc lcm vam,
    (forall fuel, enough p fuel ->
       solve_nwc fuel p = Ok nwc /\
       solve_least_cost fuel p = Ok lcm /\
       solve_vam fuel p = Ok vam) /\
    Forall (fun r => step_x r = 0) (steps nwc) /\
    steps lcm = [] /\ steps vam = [] /\
    (forall i j, 0 <= i < m p -> 0 <= j < n p ->
       cell (final_alloc nwc) i j = 0 /\
       cell (final_alloc lcm) i j = 0 /\
       cell (final_alloc vam) i j = 0).
Proof.
  cbv zeta.
  assert (Hp : problem (new [[7%Q]] [0] [0])).
  { unfold problem, wf, balanced, nonneg.
    repeat split; try (vm_compute; congruence);
      repeat constructor; vm_compute; congruence. }
  split; [exact Hp|]. split; [reflexivity|].
  exact (nothing_to_ship (new [[7%Q]] [0] [0]) Hp eq_refl).
Defined.

(** ** Subscripts out of range *)

Lemma getitem_fuelled {A : Type} (l : list A) (i : Z) : fuelled (getitem l i).
Proof.
  unfold fuelled, getitem. destruct (norm_index l i) as [k|]; [|discriminate].
  destruct (nth_error l k); discriminate.
Qed.

Lemma bind_fuelled {A B : Type} (r : res A) (k : A -> res B) :
  fuelled r -> (forall a, fuelled (k a)) -> fuelled (bind r k).
Proof.
  intros Hr Hk. destruct r as [a| |]; cbn [bind]; [apply Hk|discriminate|].
  now destruct Hr.
Qed.

Lemma Ok_fuelled {A : Type} (a : A) : fuelled (Ok a).
Proof. discriminate. Qed.

Lemma for_each_fuelled {S : Type} (l : list Z) (body : Z -> S -> res S) :
  (forall i st, fuelled (body i st)) -> forall st, fuelled (for_each l body st).
Proof.
  intros Hb. induction l as [|i l IH]; intros st; cbn [for_each].
  - apply Ok_fuelled.
  - apply bind_fuelled; [apply Hb|exact IH].
Qed.

Lemma cost_at_fuelled (p : TransportationSolver) (i j : Z) :
  fuelled (cost_at p i j).
Proof.
  unfold cost_at. apply bind_fuelled; [apply getitem_fuelled|].
  intros row. apply getitem_fuelled.
Qed.

(** A loop one of whose iterations raises, whatever the state, raises. *)
Lemma for_each_raises {S : Type} (body : Z -> S -> res S) (l1 l2 : list Z)
  (k : Z) :
  (forall i st, fuelled (body i st)) ->
  (forall st, body k st = IndexError) ->
  forall st, for_each (l1 ++ k :: l2) body st = IndexError.
Proof.
  intros Hf Hk. induction l1 as [|i l1 IH]; intros st; cbn [for_each app].
  - now rewrite Hk.
  - pose proof (Hf i st) as Hi. destruct (body i st) as [st'| |];
      cbn [bind]; [apply IH|reflexivity|now destruct Hi].
Qed.

Lemma getitem_beyond {A : Type} (l : list A) (i : Z) :
  len l <= i -> getitem l i = IndexError.
Proof.
  intros Hi. unfold getitem, norm_index. pose proof (len_nonneg l).
  destruct (0 <=? i) eqn:E1; destruct (i <? len l) eqn:E2; cbn [andb];
    try (apply Z.ltb_lt in E2; lia).
  - destruct (- len l <=? i) eqn:E3; destruct (i <? 0) eqn:E4; cbn [andb];
      try reflexivity. apply Z.ltb_lt in E4. apply Z.leb_le in E1. lia.
  - apply Z.leb_gt in E1. lia.
Qed.

(** X9. [_find_min_cost] raises [IndexError] whenever the vector of
    remaining supply has fewer entries than the problem has sources: it
    never returns a cell found among the first rows only. *)
Theorem find_min_cost_short_supply (p : TransportationSolver)
  (sv dv : list Z) (ex : Z) :
  len sv < m p -> _find_min_cost p sv dv ex = IndexError.
Proof.
  intros Hlen. pose proof (len_nonneg sv) as H0.
  destruct (range_split (m p) (len sv)) as [post [E _]]; [lia|].
  unfold _find_min_cost. rewrite E. apply for_each_raises.
  - intros i st. apply bind_fuelled; [apply getitem_fuelled|].
    intros si. destruct (si =? 0); [apply Ok_fuelled|].
    apply for_each_fuelled. intros j best.
    apply bind_fuelled; [apply getitem_fuelled|]. intros dj.
    destruct ((dj =? 0) || (j =? ex)); [apply Ok_fuelled|].
    apply bind_fuelled; [apply cost_at_fuelled|]. intros c.
    destruct (lt_min c (snd best)); apply Ok_fuelled.
  - intros st. rewrite getitem_beyond by lia. reflexivity.
Qed.

Lemma find_min_cost_short_supply_witness :
  _find_min_cost example [2500; 1800] [1500; 1200; 1000; 800; 1000] 4
  = IndexError.
Proof.
  apply find_min_cost_short_supply. vm_compute. reflexivity.
Defined.

(** X11. On vectors of the lengths of the problem [_find_min_cost]
    returns without error.  It returns the sentinel [(-1, -1, inf)]
    exactly when no cell has a row and a column that are both not
    exhausted outside the excluded column; otherwise it returns such a
    cell with its cost, no such cell is cheaper, and every such cell
    before it in row-major order is strictly dearer. *)
Theorem find_min_cost_result (p : TransportationSolver) (sv dv : list Z)
  (ex : Z) :
  wf p -> len sv = m p -> len dv = n p ->
  exists best,
    _find_min_cost p sv dv ex = Ok best /\
    (best = (-1, -1, None) <-> forall i j, ~ eligible p sv dv ex i j) /\
    (best <> (-1, -1, None) ->
       exists i j, best = (i, j, Some (cost p i j)) /\
                   first_least p (eligible p sv dv ex) i j).
Proof.
  intros Hwf Hls Hld.
  destruct (find_min_cost_spec p sv dv ex Hwf Hls Hld)
    as [best [E [[-> Hnone]|(i & j & -> & Hfl)]]].
  - exists (-1, -1, None). split; [exact E|]. split; [tauto|].
    intros H. now destruct H.
  - exists (i, j, Some (cost p i j)). split; [exact E|]. split.
    + split; [discriminate|]. intros Hnone. exfalso.
      destruct Hfl as [Hc _]. now apply (Hnone i j).
    + intros _. eauto.
Qed.

Lemma find_min_cost_result_witness :
  wf example /\
  exists best,
    _find_min_cost example (supply example) (demand example) 4 = Ok best /\
    (best = (-1, -1, None) <->
     forall i j, ~ eligible example (supply example) (demand example) 4 i j) /\
    (best <> (-1, -1, None) ->
       exists i j, best = (i, j, Some (cost example i j)) /\
         first_least example
           (eligible example (supply example) (demand example) 4) i j).
Proof.
  assert (Hwf : wf example) by exact (proj1 example_problem).
  split; [exact Hwf|].
  exact (find_min_cost_result example (supply example) (demand example) 4
           Hwf eq_refl eq_refl).
Defined.

(** ** The tables *)

(** A loop that appends one element per iteration builds a [map]. *)
Lemma for_each_collect {A : Type} (body : Z -> list A -> res (list A))
  (g : Z -> A) (l : list Z) :
  (forall i acc, In i l -> body i acc = Ok (acc ++ [g i])) ->
  forall acc, for_each l body acc = Ok (acc ++ map g l).
Proof.
  induction l as [|i l IH]; intros Hb acc; cbn [for_each map].
  - now rewrite app_nil_r.
  - rewrite Hb by (left; reflexivity). cbn [bind].
    rewrite IH by (intros; apply Hb; now right).
    now rewrite <- app_assoc.
Qed.

(** The same for a loop that also leaves its variable behind. *)
Lemma for_each_collect_var {A : Type}
  (body : Z -> list A * option Z -> res (list A * option Z))
  (g : Z -> A) (h : Z -> Z) (l : list Z) :
  (forall i st, In i l -> body i st = Ok (fst st ++ [g i], Some (h i))) ->
  forall st,
    for_each l body st
    = Ok (fst st ++ map g l,
          match l with [] => snd st | _ => Some (h (last l 0)) end).
Proof.
  induction l as [|i l IH]; intros Hb st; cbn [for_each map].
  - rewrite app_nil_r. now destruct st.
  - rewrite Hb by (left; reflexivity). cbn [bind].
    rewrite IH by (intros; apply Hb; now right). cbn [fst snd].
    rewrite <- app_assoc. destruct l; reflexivity.
Qed.

Lemma range_last (k : Z) : 1 <= k -> last (range k) 0 = k - 1.
Proof.
  intros Hk. replace k with ((k - 1) + 1) at 1 by lia.
  rewrite range_succ by lia. apply last_last.
Qed.

Lemma range_nonempty (k : Z) : 1 <= k -> range k <> [].
Proof.
  intros Hk E. pose proof (range_len k ltac:(lia)) as H. rewrite E in H.
  cbn in H. lia.
Qed.

Lemma alloc_cell_in (p : TransportationSolver) (a : list (list Z)) (i j : Z) :
  wf p -> shaped p a -> 0 <= i < m p -> 0 <= j < n p ->
  alloc_cell p a i j = Ok (cell_text p a i j).
Proof.
  intros Hwf [Hla Hrows] Hi Hj. unfold alloc_cell, cell_text.
  pose proof (cell_in a i j (m p) (n p) Hla Hrows Hi Hj) as Hc.
  destruct (getitem a i) as [row| |]; cbn [bind] in Hc |- *; try discriminate.
  rewrite Hc. cbn [bind]. destruct (0 <? cell a i j); [|reflexivity].
  rewrite cost_at_in by assumption. reflexivity.
Qed.

Lemma alloc_row_in (p : TransportationSolver) (a : list (list Z)) (i : Z) :
  wf p -> shaped p a -> 0 <= i < m p ->
  alloc_row p a i
  = Ok (source_label i :: map (cell_text p a i) (range (n p))).
Proof.
  intros Hwf Hsh Hi. unfold alloc_row.
  rewrite (for_each_collect _ (cell_text p a i)); [reflexivity|].
  intros j acc Hj. apply range_In in Hj.
  rewrite alloc_cell_in by assumption. reflexivity.
Qed.

Lemma len_removelast {A : Type} (l : list A) :
  l <> [] -> len (removelast l) = len l - 1.
Proof.
  intros Hl. destruct (exists_last Hl) as [l' [x ->]].
  rewrite removelast_last, len_app. cbn. lia.
Qed.

Lemma make_headers_eq (p : TransportationSolver) :
  _make_headers p
  = String.EmptyString :: map (header p) (range (n p)) ++ ["Supply"%string].
Proof.
  unfold _make_headers.
  assert (H : forall l acc,
            fold_left (fun headers j => headers ++ [header p j]) l acc
            = acc ++ map (header p) l).
  { induction l as [|j l IH]; intros acc; cbn [fold_left map].
    - now rewrite app_nil_r.
    - rewrite IH. now rewrite <- app_assoc. }
  rewrite H. reflexivity.
Qed.

Lemma make_headers_len (p : TransportationSolver) :
  0 <= n p -> len (_make_headers p) = n p + 2.
Proof.
  intros Hn. rewrite make_headers_eq, len_cons, len_app, len_map, range_len
    by lia. cbn. lia.
Qed.

Lemma make_headers_removelast (p : TransportationSolver) :
  removelast (_make_headers p)
  = String.EmptyString :: map (header p) (range (n p)).
Proof.
  rewrite make_headers_eq.
  change (String.EmptyString :: map (header p) (range (n p)) ++ ["Supply"%string])
    with ((String.EmptyString :: map (header p) (range (n p))) ++ ["Supply"%string]).
  apply removelast_last.
Qed.

Lemma step_table_in (p : TransportationSolver) (k : Z)
  (method : String.string) (a : list (list Z)) (sv dv : list Z) :
  wf p -> shaped p a -> len sv = m p -> len dv = n p ->
  exists title,
    _print_step_table p k method a sv dv
    = Ok (title, _make_headers p,
          map (fun i => (source_label i :: map (cell_text p a i) (range (n p)))
                        ++ [Number (at_ 0 sv i)]) (range (m p))
          ++ [(Text "Demand"%string
               :: map (fun j => Number (at_ 0 dv j)) (range (n p)))
              ++ [Text String.EmptyString]]).
Proof.
  intros Hwf Hsh Hls Hld. unfold _print_step_table. eexists.
  rewrite (for_each_collect _
             (fun i => (source_label i :: map (cell_text p a i) (range (n p)))
                       ++ [Number (at_ 0 sv i)])).
  2:{ intros i acc Hi. apply range_In in Hi.
      rewrite alloc_row_in by assumption. cbn [bind].
      rewrite (getitem_in 0 sv) by lia. reflexivity. }
  cbn [bind app].
  rewrite (for_each_collect _ (fun j => Number (at_ 0 dv j))).
  2:{ intros j acc Hj. apply range_In in Hj.
      rewrite (getitem_in 0 dv) by lia. reflexivity. }
  cbn [bind app]. reflexivity.
Qed.

Lemma final_table_in (p : TransportationSolver) (a : list (list Z)) :
  wf p -> shaped p a ->
  _print_final_allocation p a
  = Ok (removelast (_make_headers p),
        map (fun i => source_label i :: map (cell_text p a i) (range (n p)))
            (range (m p))).
Proof.
  intros Hwf Hsh. unfold _print_final_allocation.
  rewrite (for_each_collect _
             (fun i => source_label i :: map (cell_text p a i) (range (n p)))).
  2:{ intros i acc Hi. apply range_In in Hi.
      rewrite alloc_row_in by assumption. reflexivity. }
  reflexivity.
Qed.

Lemma Forall_map_range {A : Type} (P : A -> Prop) (f : Z -> A) (k : Z) :
  (forall i, 0 <= i < k -> P (f i)) -> Forall P (map f (range k)).
Proof.
  intros H. apply Forall_forall. intros x Hx. apply in_map_iff in Hx.
  destruct Hx as [i [<- Hi]]. apply H. now apply range_In.
Qed.

Lemma sound_printable_step (p : TransportationSolver) (method : String.string)
  (k : Z) (sn : snapshot) :
  wf p -> sound p sn ->
  exists title rows,
    _print_step_table p k method (fst (fst sn)) (snd (fst sn)) (snd sn)
    = Ok (title, _make_headers p, rows) /\
    len rows = m p + 1 /\ rectangular (_make_headers p) rows.
Proof.
  intros Hwf Hs. pose proof Hwf as (Hm & Hn & _).
  destruct (step_table_in p k method (fst (fst sn)) (snd (fst sn)) (snd sn)
              Hwf (sound_shaped p sn Hs) (snd_len_s p sn Hs)
              (snd_len_d p sn Hs)) as [title E].
  eexists. eexists. split; [exact E|]. split.
  - rewrite len_app, len_map, range_len by lia. reflexivity.
  - unfold rectangular. rewrite make_headers_len by lia. apply Forall_app.
    split.
    + apply Forall_map_range. intros i _.
      rewrite len_app, len_cons, len_map, range_len by lia. cbn. lia.
    + constructor; [|constructor].
      rewrite len_app, len_cons, len_map, range_len by lia. cbn. lia.
Qed.

Lemma solved_printable (p : TransportationSolver) (method : String.string)
  (sol : solution) :
  problem p -> solved p sol -> printable p method sol.
Proof.
  intros Hp Hsol. pose proof (proj1 Hp) as Hwf.
  pose proof Hwf as (Hm & Hn & _). split.
  - destruct Hsol as (Hc & _).
    assert (H : forall l prev,
              sound p prev -> chain (allocation_step p) prev l ->
              Forall (fun r => sound p (after r)) l).
    { induction l as [|r l IH]; intros prev Hs Hch; [constructor|].
      destruct Hch as [Hr Hch].
      pose proof (step_sound p prev r Hs Hr) as Hs'.
      constructor; [exact Hs'|]. now apply (IH (after r)). }
    pose proof (H _ _ (start_sound p Hp) Hc) as Hall.
    eapply Forall_impl; [|exact Hall]. intros r Hs. cbv beta in Hs.
    exact (sound_printable_step p method (step_no r) (after r) Hwf Hs).
  - pose proof (solved_sound p sol Hp Hsol) as Hs.
    destruct Hsol as (_ & (sv & dv & Hf & _) & _). rewrite Hf in Hs.
    pose proof (sound_shaped p _ Hs) as Hsh. cbn [fst] in Hsh.
    eexists. split; [exact (final_table_in p _ Hwf Hsh)|]. split.
    + rewrite len_map, range_len by lia. reflexivity.
    + unfold rectangular. rewrite make_headers_removelast.
      apply Forall_map_range. intros i _.
      rewrite !len_cons, !len_map. reflexivity.
Qed.

(** X12. The tables of a solve can always be printed: for each of the
    three methods on a valid problem, every call of [_print_step_table]
    that the method makes and its call of [_print_final_allocation]
    return without an exception, and every row they build has one entry
    for every header. *)
Theorem solves_printable (p : TransportationSolver) :
  problem p ->
  exists nwc lcm vam,
    (forall fuel, enough p fuel ->
       solve_nwc fuel p = Ok nwc /\
       solve_least_cost fuel p = Ok lcm /\
       solve_vam fuel p = Ok vam) /\
    printable p "NWC"%string nwc /\
    printable p "LCM"%string lcm /\
    printable p "VAM"%string vam.
Proof.
  intros Hp. three_results p Hp.
  split; [|split]; now apply solved_printable.
Qed.

Lemma solves_printable_witness :
  problem example /\
  exists nwc lcm vam,
    (forall fuel, enough example fuel ->
       solve_nwc fuel example = Ok nwc /\
       solve_least_cost fuel example = Ok lcm /\
       solve_vam fuel example = Ok vam) /\
    printable example "NWC"%string nwc /\
    printable example "LCM"%string lcm /\
    printable example "VAM"%string vam.
Proof.
  split; [exact example_problem|exact (solves_printable example example_problem)].
Defined.

Lemma demand_cells_bound (l : list Z) (k v : Z) (dem : list Z) :
  getitem dem k = Ok v ->
  forall row,
    demand_cells l (Some k) dem row
    = Ok (Bound (row ++ map (fun _ => Number v) l)).
Proof.
  intros Hk. induction l as [|x l IH]; intros row; cbn [demand_cells map].
  - now rewrite app_nil_r.
  - rewrite Hk. cbn [bind]. rewrite IH, <- app_assoc. reflexivity.
Qed.

Lemma initial_rows_in (p : TransportationSolver) :
  wf p ->
  initial_rows p = Ok (map (cost_row p) (range (m p)), Some (n p - 1)).
Proof.
  intros Hwf. pose proof Hwf as (Hm & Hn & Hls & _). unfold initial_rows.
  rewrite (for_each_collect_var _ (cost_row p) (fun _ => n p - 1)).
  - cbn [fst snd app]. destruct (range (m p)) eqn:E; [|reflexivity].
    now destruct (range_nonempty (m p) Hm).
  - intros i st Hi. apply range_In in Hi.
    rewrite (for_each_collect_var _
               (fun j => Text (String.append "$"%string
                                 (str (py_int (cost p i j)))))
               (fun j => j)).
    + cbn [bind fst snd]. rewrite (getitem_in 0 (supply p)) by lia.
      cbn [bind]. rewrite range_last by lia.
      destruct (range (n p)) eqn:E; [now destruct (range_nonempty (n p) Hn)|].
      rewrite <- E. reflexivity.
    + intros j rj Hj. apply range_In in Hj.
      rewrite cost_at_in by assumption. reflexivity.
Qed.

(** X13. On a problem with at least one source and one destination
    [_print_initial_table] returns without an exception, with one row of
    truncated costs for every source; but its Demand row shows the demand
    of the LAST destination in every column (the loop reads the variable
    [j] left by the loop over the costs, not its own), followed by the
    stored total supply. *)
Theorem initial_table_demand_row (p : TransportationSolver) :
  wf p ->
  _print_initial_table p
  = Ok (Bound (_make_headers p,
               map (cost_row p) (range (m p))
               ++ [(Text "Demand"%string
                    :: map (fun _ => Number (at_ 0 (demand p) (n p - 1)))
                           (range (n p)))
                   ++ [Number (total_supply p)]],
               option_map dummy_message (dummy_type p))).
Proof.
  intros Hwf. pose proof Hwf as (Hm & Hn & _ & Hld & _).
  unfold _print_initial_table. rewrite initial_rows_in by assumption.
  cbn [bind].
  rewrite (demand_cells_bound _ (n p - 1) (at_ 0 (demand p) (n p - 1)))
    by (apply getitem_in; lia).
  reflexivity.
Qed.

Lemma initial_table_demand_row_witness :
  wf example /\
  _print_initial_table example
  = Ok (Bound (_make_headers example,
               map (cost_row example) (range 3)
               ++ [[Text "Demand"%string; Number 1000; Number 1000;
                    Number 1000; Number 1000; Number 1000; Number 5500]],
               Some (dummy_message dummy_demand))).
Proof.
  split; [exact (proj1 example_problem)|].
  exact (initial_table_demand_row example (proj1 example_problem)).
Defined.

(** X14. With no source and at least one destination
    [_print_initial_table] raises [UnboundLocalError]: the loop over the
    sources never assigns [j], which the Demand row then reads. *)
Theorem initial_table_no_source (p : TransportationSolver) :
  m p <= 0 -> 1 <= n p -> _print_initial_table p = Ok UnboundLocalError.
Proof.
  intros Hm Hn. unfold _print_initial_table, initial_rows.
  assert (E : range (m p) = []).
  { unfold range. replace (Z.to_nat (m p)) with 0%nat by lia. reflexivity. }
  rewrite E. cbn [for_each bind].
  destruct (range (n p)) eqn:En; [now destruct (range_nonempty (n p) Hn)|].
  reflexivity.
Qed.

Lemma initial_table_no_source_witness :
  _print_initial_table (new [] [] [0; 0]) = Ok UnboundLocalError.
Proof.
  apply initial_table_no_source; vm_compute; [|]; congruence.
Defined.

Lemma removelast_app_one {A : Type} (l : list A) (x : A) :
  removelast (l ++ [x]) = l.
Proof. apply removelast_last. Qed.

Lemma for_each_fail {S : Type} (l : list Z) (body : Z -> S -> res S)
  (T : Type) (k : S -> res T) (st : S) (t : T) :
  bind (for_each l body st) k = Ok t ->
  exists st', for_each l body st = Ok st' /\ k st' = Ok t.
Proof.
  destruct (for_each l body st) as [st'| |]; cbn [bind]; try discriminate.
  eauto.
Qed.

(** The rows of the step table and of the final table, built side by
    side. *)
Lemma step_rows_final (p : TransportationSolver) (a : list (list Z))
  (sv : list Z) (l : list Z) :
  forall data data',
    for_each l (fun i data =>
                  row <- alloc_row p a i ;;
                  si <- getitem sv i ;;
                  Ok (data ++ [row ++ [Number si]])) data = Ok data' ->
    for_each l (fun i data =>
                  row <- alloc_row p a i ;; Ok (data ++ [row]))
             (map (@removelast entry) data)
    = Ok (map (@removelast entry) data').
Proof.
  induction l as [|i l IH]; intros data data' H; cbn [for_each] in *.
  - now inversion H.
  - destruct (alloc_row p a i) as [row| |]; cbn [bind] in *; try discriminate.
    destruct (getitem sv i) as [si| |]; cbn [bind] in *; try discriminate.
    apply IH in H. rewrite map_app in H. cbn [map] in H.
    rewrite removelast_app_one in H. exact H.
Qed.

(** X15. The final table is the step table of the same matrix without its
    Supply column and its Demand row: whenever [_print_step_table]
    returns, [_print_final_allocation] returns on the same allocation,
    with the headers but the last and the rows of the sources but their
    last entry. *)
Theorem final_table_of_step_table (p : TransportationSolver) (k : Z)
  (method : String.string) (a : list (list Z)) (sv dv : list Z)
  (title : String.string) (headers : list String.string)
  (rows : list (list entry)) :
  _print_step_table p k method a sv dv = Ok (title, headers, rows) ->
  _print_final_allocation p a
  = Ok (removelast headers, map (@removelast entry) (removelast rows)).
Proof.
  unfold _print_step_table, _print_final_allocation. intros H.
  apply for_each_fail in H. destruct H as (data & Hdata & H).
  apply for_each_fail in H. destruct H as (dem_row & _ & H).
  inversion H; subst; clear H.
  apply step_rows_final in Hdata. cbn [map] in Hdata. rewrite Hdata.
  cbn [bind]. now rewrite removelast_app_one.
Qed.

Lemma final_table_of_step_table_witness :
  let p := new [[4%Q; 7%Q]] [3] [3; 0] in
  let title := String.append "Step 1 - NWC"%string line_feed in
  let rows :=
    [[Text "S1"%string;
      Text (String.append "4"%string (String.append times_sign "3"%string));
      Text minus_sign; Number 0];
     [Text "Demand"%string; Number 0; Number 0; Text String.EmptyString]] in
  _print_step_table p 1 "NWC"%string [[3; 0]] [0] [0; 0]
  = Ok (title, _make_headers p, rows) /\
  _print_final_allocation p [[3; 0]]
  = Ok (removelast (_make_headers p),
        map (@removelast entry) (removelast rows)).
Proof.
  intros p title rows.
  assert (H : _print_step_table p 1 "NWC"%string [[3; 0]] [0] [0; 0]
              = Ok (title, _make_headers p, rows))
    by (vm_compute; reflexivity).
  split; [exact H|].
  exact (final_table_of_step_table p 1 "NWC"%string [[3; 0]] [0] [0; 0]
           title (_make_headers p) rows H).
Defined.

(** ** The constructor *)

(** X16. Balancing is not idempotent.  A second call of
    [_balance_problem] on a constructed solver changes nothing exactly
    when the totals of the input were equal; otherwise it compares the
    stored totals, which are still those of the input, and appends the
    same dummy once more, so that the stored demand then exceeds the
    stored supply by the amount by which the supply of the input exceeded
    its demand. *)
Theorem balance_twice (cost : list (list Q)) (sup dem : list Z) :
  let p := new cost sup dem in
  let p' := _balance_problem p in
  (p' = p <-> zsum sup = zsum dem) /\
  total_supply p = zsum sup /\ total_demand p = zsum dem /\
  zsum (demand p') - zsum (supply p') = zsum sup - zsum dem /\
  (zsum dem < zsum sup ->
     supply p' = sup /\
     demand p' = dem ++ [zsum sup - zsum dem; zsum sup - zsum dem] /\
     n p' = len dem + 2) /\
  (zsum sup < zsum dem ->
     supply p' = sup ++ [zsum dem - zsum sup; zsum dem - zsum sup] /\
     demand p' = dem /\
     m p' = len sup + 2).
Proof.
  intros p p'. subst p' p.
  destruct (new_cases cost sup dem) as [[H ->]|[[H ->]|[H ->]]];
    unfold _balance_problem;
    cbn [total_supply total_demand cost_matrix supply demand m n dummy_type].
  - assert (E : (zsum dem <? zsum sup) = true) by now apply Z.ltb_lt.
    rewrite E.
    cbn [total_supply total_demand cost_matrix supply demand m n dummy_type].
    rewrite <- !app_assoc. cbn [app]. rewrite zsum_app, !zsum_cons, zsum_nil.
    split.
    { split; [|lia]. intros Heq.
      apply (f_equal n) in Heq. cbn [n] in Heq. lia. }
    repeat split; try lia.
  - assert (E1 : (zsum dem <? zsum sup) = false) by (apply Z.ltb_ge; lia).
    assert (E2 : (zsum sup <? zsum dem) = true) by now apply Z.ltb_lt.
    rewrite E1, E2.
    cbn [total_supply total_demand cost_matrix supply demand m n dummy_type].
    rewrite <- !app_assoc. cbn [app]. rewrite zsum_app, !zsum_cons, zsum_nil.
    split.
    { split; [|lia]. intros Heq.
      apply (f_equal m) in Heq. cbn [m] in Heq. lia. }
    repeat split; try lia.
  - assert (E1 : (zsum dem <? zsum sup) = false) by (apply Z.ltb_ge; lia).
    assert (E2 : (zsum sup <? zsum dem) = false) by (apply Z.ltb_ge; lia).
    rewrite E1, E2.
    cbn [total_supply total_demand cost_matrix supply demand m n dummy_type].
    repeat split; try lia; try reflexivity.
Qed.

(** ** Problems with one source or one destination *)







(** ** Numbering of the steps *)

Lemma bind_ok {A B : Type} (r : res A) (k : A -> res B) (b : B) :
  bind r k = Ok b -> exists a, r = Ok a /\ k a = Ok b.
Proof. destruct r as [a| |]; cbn [bind]; try discriminate. eauto. Qed.

(** What every successful iteration keeps holds when the loop returns. *)
Lemma while_keeps {S : Type} (I : S -> Prop) (cond : S -> res bool)
  (body : S -> res (option S)) :
  (forall st st', I st -> body st = Ok (Some st') -> I st') ->
  forall fuel st st', I st -> while fuel cond body st = Ok st' -> I st'.
Proof.
  intros Hb. induction fuel as [|fuel IH]; intros st st' Hi H; cbn [while] in H.
  - destruct (cond st) as [[|]| |]; cbn [bind] in H; try discriminate.
    now inversion H; subst.
  - destruct (cond st) as [[|]| |]; cbn [bind] in H; try discriminate.
    + destruct (body st) as [[st1|]| |] eqn:E; cbn [bind] in H;
        try discriminate.
      * apply (IH st1); [now apply (Hb st)|exact H].
      * now inversion H; subst.
    + now inversion H; subst.
Qed.

Lemma for_each_keeps {S : Type} (I : S -> Prop) (body : Z -> S -> res S)
  (l : list Z) :
  (forall i st st', I st -> body i st = Ok st' -> I st') ->
  forall st st', I st -> for_each l body st = Ok st' -> I st'.
Proof.
  intros Hb. induction l as [|i l IH]; intros st st' Hi H; cbn [for_each] in H.
  - now inversion H; subst.
  - apply bind_ok in H. destruct H as (st1 & E & H).
    apply (IH st1); [now apply (Hb i st)|exact H].
Qed.

Lemma numbered_app (l : list step_record) (r : step_record) :
  forall k, numbered k l -> step_no r = k + len l -> numbered k (l ++ [r]).
Proof.
  induction l as [|h t IH]; intros k Hl Hr; cbn [app numbered] in *.
  - split; [|exact I]. cbn in Hr. lia.
  - destruct Hl as [Hh Ht]. split; [exact Hh|]. apply IH; [exact Ht|].
    rewrite len_cons in Hr. lia.
Qed.

Lemma allocate_counted (w w' : work) (i j : Z) :
  allocate w i j = Ok w' -> counted w -> counted w'.
Proof.
  unfold allocate. intros H [Hn Hs].
  repeat (apply bind_ok in H; destruct H as (? & _ & H)).
  inversion H; subst; clear H. unfold counted. cbn [out step].
  split.
  - apply numbered_app; [exact Hn|]. cbn [step_no]. lia.
  - rewrite len_app. cbn. lia.
Qed.

Lemma start_counted (p : TransportationSolver) : counted (start p).
Proof. unfold counted, start. cbn. auto. Qed.

Lemma nwc_counted (p : TransportationSolver) (fuel : nat) (sol : solution) :
  solve_nwc fuel p = Ok sol -> numbered 1 (steps sol).
Proof.
  unfold solve_nwc. intros H. apply bind_ok in H.
  destruct H as ([[w i] j] & Hw & H). apply finish_fields in H.
  destruct H as [_ ->].
  apply (while_keeps (fun st => counted (fst (fst st)))) in Hw.
  - exact (proj1 Hw).
  - intros [[w0 i0] j0] [[w1 i1] j1] Hc Hb. cbn [fst] in *.
    unfold nwc_body in Hb. apply bind_ok in Hb.
    destruct Hb as (w2 & Ha & Hb). apply allocate_counted in Ha; [|exact Hc].
    repeat (apply bind_ok in Hb; destruct Hb as (? & _ & Hb)).
    repeat match type of Hb with
           | (if ?b then _ else _) = _ => destruct b
           end; inversion Hb; subst; exact Ha.
  - apply start_counted.
Qed.

Lemma lcm_counted (p : TransportationSolver) (fuel : nat) (sol : solution) :
  solve_least_cost fuel p = Ok sol -> numbered 1 (steps sol).
Proof.
  unfold solve_least_cost. intros H. apply bind_ok in H.
  destruct H as (w & Hw & H). apply bind_ok in H.
  destruct H as (w' & Hd & H). apply finish_fields in H. destruct H as [_ ->].
  apply (while_keeps counted) in Hw.
  - unfold lcm_drain in Hd. destruct (0 <=? dummy_col p).
    + apply (for_each_keeps counted) in Hd; [exact (proj1 Hd)| |exact Hw].
      intros i st st' Hc Hb. apply bind_ok in Hb. destruct Hb as (si & _ & Hb).
      destruct (0 <? si); [|now inversion Hb; subst].
      apply bind_ok in Hb. destruct Hb as (dd & _ & Hb).
      destruct (0 <? dd); [|now inversion Hb; subst].
      now apply (allocate_counted st st' i (dummy_col p)).
    + inversion Hd; subst. exact (proj1 Hw).
  - intros st st' Hc Hb. unfold lcm_body in Hb. apply bind_ok in Hb.
    destruct Hb as ([[i j] c] & _ & Hb). destruct (i =? -1); [discriminate|].
    apply bind_ok in Hb. destruct Hb as (w1 & Ha & Hb). inversion Hb; subst.
    now apply (allocate_counted st st' i j).
  - apply start_counted.
Qed.

Lemma vam_counted (p : TransportationSolver) (fuel : nat) (sol : solution) :
  solve_vam fuel p = Ok sol -> numbered 1 (steps sol).
Proof.
  unfold solve_vam. intros H. apply bind_ok in H.
  destruct H as (st & Hw & H). apply finish_fields in H. destruct H as [_ ->].
  apply (while_keeps (fun st => counted (vam_work st))) in Hw.
  - exact (proj1 Hw).
  - intros st0 st1 Hc Hb. unfold vam_body in Hb.
    apply bind_ok in Hb. destruct Hb as (rp & _ & Hb).
    apply bind_ok in Hb. destruct Hb as (cp & _ & Hb).
    apply bind_ok in Hb. destruct Hb as ([[mp is_row] idx] & _ & Hb).
    destruct (idx =? -1); [discriminate|].
    apply bind_ok in Hb. destruct Hb as ([[mi mj] mc] & _ & Hb).
    destruct (mi =? -1); [discriminate|].
    apply bind_ok in Hb. destruct Hb as (st2 & Ha & Hb). inversion Hb; subst.
    unfold vam_allocate in Ha. apply bind_ok in Ha.
    destruct Ha as (w' & Ha & Hr). apply allocate_counted in Ha; [|exact Hc].
    repeat (apply bind_ok in Hr; destruct Hr as (? & _ & Hr)).
    inversion Hr; subst. exact Ha.
  - apply start_counted.
Qed.

Lemma enough_fuel (p : TransportationSolver) :
  enough p (Datatypes.S (Z.to_nat (m p + n p))).
Proof. unfold enough. lia. Qed.

(** X18. The steps of a solve are numbered 1, 2, 3, ... in the order in
    which they are printed, for each of the three methods. *)
Theorem steps_numbered (p : TransportationSolver) :
  problem p ->
  exists nwc lcm vam,
    (forall fuel, enough p fuel ->
       solve_nwc fuel p = Ok nwc /\
       solve_least_cost fuel p = Ok lcm /\
       solve_vam fuel p = Ok vam) /\
    numbered 1 (steps nwc) /\ numbered 1 (steps lcm) /\ numbered 1 (steps vam).
Proof.
  intros Hp. three_results p Hp.
  destruct (Hrun _ (enough_fuel p)) as (Hn & Hl & Hv).
  split; [|split].
  - exact (nwc_counted p _ _ Hn).
  - exact (lcm_counted p _ _ Hl).
  - exact (vam_counted p _ _ Hv).
Qed.

Lemma steps_numbered_witness :
  problem example /\
  exists nwc lcm vam,
    (forall fuel, enough example fuel ->
       solve_nwc fuel example = Ok nwc /\
       solve_least_cost fuel example = Ok lcm /\
       solve_vam fuel example = Ok vam) /\
    numbered 1 (steps nwc) /\ numbered 1 (steps lcm) /\ numbered 1 (steps vam).
Proof.
  split; [exact example_problem|exact (steps_numbered example example_problem)].
Defined.

(** ** The cost equation *)

Lemma add_terms_returns (l : list (Z * Z)) :
  forall ts tot ts' tot',
    fold_left add_term l (Returns (ts, tot)) = Returns (ts', tot') ->
    ts' = ts ++ l.
Proof.
  induction l as [|t l IH]; intros ts tot ts' tot' H; cbn [fold_left] in H.
  - inversion H. now rewrite app_nil_r.
  - unfold add_term at 2 in H.
    destruct (float_of_int (fst t * snd t)) as [x|].
    + apply IH in H. rewrite H, <- app_assoc. reflexivity.
    + rewrite add_terms_raised in H. discriminate.
Qed.

Lemma int_total_returns (o : outcome (list (Z * Z) * float))
  (ts : list (Z * Z)) (tot : float) :
  int_total o = Returns (ts, tot) ->
  o = Returns (ts, tot) /\ exists t, tot = Finite t.
Proof.
  destruct o as [[ts0 [q|s]]|]; cbn [int_total]; intros H;
    try discriminate.
  inversion H; subst. eauto.
Qed.

Lemma evaluation_returns (p : TransportationSolver) (a : list (list Z))
  (ts : list (Z * Z)) (tot : float) :
  evaluation p a = Returns (ts, tot) ->
  ts = equation_terms p a /\ exists t, tot = Finite t.
Proof.
  unfold evaluation. intros H. apply int_total_returns in H.
  destruct H as [H Hfin]. apply add_terms_returns in H. auto.
Qed.

Lemma terms_weight_cons (t : Z * Z) (l : list (Z * Z)) :
  terms_weight (t :: l) = Z.abs (fst t * snd t) + terms_weight l.
Proof. unfold terms_weight. cbn [map]. now rewrite zsum_cons. Qed.

Lemma terms_weight_nonneg (l : list (Z * Z)) : 0 <= terms_weight l.
Proof.
  unfold terms_weight. apply zsum_nonneg. apply Forall_map.
  apply Forall_forall. intros t _. apply Z.abs_nonneg.
Qed.

Lemma terms_sum_cons (t : Z * Z) (l : list (Z * Z)) :
  terms_sum (t :: l) = fst t * snd t + terms_sum l.
Proof. unfold terms_sum. cbn [map]. now rewrite zsum_cons. Qed.

(** While the weight of the terms stays within [2 ^ 53] no addition
    rounds. *)
Lemma add_terms_exact (l : list (Z * Z)) :
  forall ts acc,
    Z.abs acc + terms_weight l <= 2 ^ 53 ->
    fold_left add_term l (Returns (ts, Finite (inject_Z acc)))
    = Returns (ts ++ l, Finite (inject_Z (acc + terms_sum l))).
Proof.
  induction l as [|t l IH]; intros ts acc H; cbn [fold_left].
  - unfold terms_sum. cbn. now rewrite app_nil_r, Z.add_0_r.
  - rewrite terms_weight_cons in H. pose proof (terms_weight_nonneg l).
    unfold add_term at 2.
    rewrite float_of_int_whole by lia.
    rewrite fadd_whole by lia.
    rewrite IH by lia.
    rewrite terms_sum_cons, <- app_assoc. cbn [app].
    now rewrite Z.add_assoc.
Qed.

Lemma evaluation_exact (p : TransportationSolver) (a : list (list Z)) :
  terms_weight (equation_terms p a) <= 2 ^ 53 ->
  evaluation p a
  = Returns (equation_terms p a,
             Finite (inject_Z (terms_sum (equation_terms p a)))).
Proof.
  intros H. unfold evaluation.
  change (Finite 0) with (Finite (inject_Z 0)).
  rewrite add_terms_exact by (cbn; lia). reflexivity.
Qed.

Lemma equation_terms_positive (p : TransportationSolver)
  (a : list (list Z)) :
  Forall (fun t => 0 < snd t) (equation_terms p a).
Proof.
  unfold equation_terms. apply Forall_flat_map. apply Forall_forall.
  intros i _. unfold row_terms. apply Forall_flat_map. apply Forall_forall.
  intros j _. unfold printed.
  destruct (0 <? cell a i j) eqn:E; cbn [andb]; [|constructor].
  apply Z.ltb_lt in E.
  destruct (negb (is_dummy p j)); constructor; [exact E|constructor].
Qed.

(** X6. On a matrix of the shape of the problem the cost equation reads
    every cell without [IndexError] and ends by returning or in
    [OverflowError].  When it returns, its terms are the positive cells
    outside the dummy column, in row-major order, each with its truncated
    unit cost, and the total is a finite float.  When the products of the
    terms, in absolute value, sum to at most [2 ^ 53], it returns, and
    the total is exactly the sum of the products. *)
Theorem cost_equation_terms (p : TransportationSolver) (a : list (list Z)) :
  wf p -> shaped p a ->
  exists o,
    _print_cost_equation p a = Ok o /\
    (forall terms total,
       o = Returns (terms, total) ->
       terms = equation_terms p a /\ exists t, total = Finite t) /\
    (terms_weight (equation_terms p a) <= 2 ^ 53 ->
     o = Returns (equation_terms p a,
                  Finite (inject_Z (terms_sum (equation_terms p a))))) /\
    Forall (fun t => 0 < snd t) (equation_terms p a).
Proof.
  intros Hwf Hsh. exists (evaluation p a).
  split; [now apply cost_equation_eval|].
  split; [intros terms total; apply evaluation_returns|].
  split; [apply evaluation_exact|apply equation_terms_positive].
Qed.

Lemma cost_equation_terms_witness :
  wf example /\
  shaped example [[1; 0; 0; 0; 2]; [0; 0; 0; 0; 0]; [0; 3; 0; 0; 0]] /\
  _print_cost_equation example
    [[1; 0; 0; 0; 2]; [0; 0; 0; 0; 0]; [0; 3; 0; 0; 0]]
  = Ok (Returns ([(12, 1); (12, 3)], Finite 48)).
Proof.
  assert (Hwf : wf example) by exact (proj1 example_problem).
  assert (Hsh : shaped example
                  [[1; 0; 0; 0; 2]; [0; 0; 0; 0; 0]; [0; 3; 0; 0; 0]]).
  { unfold shaped. split; [vm_compute; reflexivity|]. repeat constructor. }
  split; [exact Hwf|]. split; [exact Hsh|].
  destruct (cost_equation_terms example _ Hwf Hsh) as (o & E & _ & Hex & _).
  rewrite E, Hex; [reflexivity|]. vm_compute. discriminate.
Defined.

Lemma in_row_terms (p : TransportationSolver) (a : list (list Z)) (i j : Z)
  (cols : list Z) :
  In j cols -> printed p a i j = true ->
  In (py_int (cost p i j), cell a i j) (row_terms p a i cols).
Proof.
  intros Hj Hp. unfold row_terms. apply in_flat_map. exists j.
  split; [exact Hj|]. rewrite Hp. now left.
Qed.

Lemma flat_map_agree {A B : Type} (f g : A -> list B) (l : list A) :
  (forall x, In x l -> f x = g x) -> flat_map f l = flat_map g l.
Proof.
  induction l as [|h t IH]; intros H; [reflexivity|]. cbn [flat_map].
  rewrite (H h) by now left. rewrite IH; [reflexivity|].
  intros x Hx. apply H. now right.
Qed.

(** The terms of a matrix for a problem with a dummy. *)
Lemma equation_terms_dummy (cost0 : list (list Q)) (sup dem : list Z)
  (a : list (list Z)) :
  valid_input cost0 sup dem ->
  (zsum sup < zsum dem ->
     forall j, 0 <= j < len dem -> 0 < cell a (len sup) j ->
       In (0, cell a (len sup) j) (equation_terms (new cost0 sup dem) a)) /\
  (zsum dem < zsum sup ->
     equation_terms (new cost0 sup dem) a =
     flat_map (fun i =>
       flat_map (fun j => if 0 <? cell a i j
                          then [(py_int (at_ 0%Q (at_ [] cost0 i) j), cell a i j)]
                          else [])
                (range (len dem)))
       (range (len sup))).
Proof.
  intros (Hm & Hn & Hlc & Hrows & _ & _).
  destruct (new_cases cost0 sup dem) as [[Hlt E]|[[Hlt E]|[Heq E]]];
    rewrite E in *; clear E; (split; [intros Hlt'; try lia|intros Hlt'; try lia]).
  - unfold equation_terms. cbn [m n]. apply flat_map_agree.
    intros i Hi. apply range_In in Hi. unfold row_terms.
    rewrite range_succ, flat_map_app by lia. cbn [flat_map].
    match goal with |- _ ++ (if ?b then _ else _) ++ _ = _ =>
      assert (Hlast : b = false)
    end.
    { unfold printed, is_dummy. cbn [dummy_type n].
      replace (len dem =? len dem + 1 - 1) with true
        by (symmetry; apply Z.eqb_eq; lia).
      apply andb_false_r. }
    rewrite Hlast. cbn [app]. rewrite app_nil_r.
    apply flat_map_agree. intros j Hj. apply range_In in Hj.
    unfold printed, is_dummy, cost. cbn [dummy_type n cost_matrix].
    replace (j =? len dem + 1 - 1) with false
      by (symmetry; apply Z.eqb_neq; lia).
    rewrite andb_true_r, (at_map _ [] []) by lia.
    rewrite at_app_l; [reflexivity|].
    rewrite (proj1 (Forall_at [] _ _) Hrows) by lia. exact Hj.
  - intros j Hj Hpos. unfold equation_terms. cbn [m n].
    apply in_flat_map. exists (len sup). split; [apply range_In; lia|].
    match goal with |- In _ (row_terms ?P _ _ _) =>
      assert (Hc : py_int (cost P (len sup) j) = 0);
      [|rewrite <- Hc at 1; apply in_row_terms; [now apply range_In|]]
    end.
    + unfold cost. cbn [cost_matrix]. rewrite <- Hlc, at_app_last.
      rewrite at_times by exact Hj. reflexivity.
    + unfold printed, is_dummy. cbn [dummy_type].
      apply Z.ltb_lt in Hpos. now rewrite Hpos.
Qed.

(** X7. The two dummies are not treated alike in the cost equation.
    Whenever [_print_cost_equation] returns on a matrix of the shape of a
    constructed problem: if the constructor has added a dummy source,
    every positive cell of its row is among the printed terms, with unit
    cost 0; if it has added a dummy destination, the printed terms are
    those of the positive cells of the original columns only. *)
Theorem dummy_terms (cost0 : list (list Q)) (sup dem : list Z)
  (a : list (list Z)) (terms : list (Z * Z)) (total : float) :
  valid_input cost0 sup dem -> shaped (new cost0 sup dem) a ->
  _print_cost_equation (new cost0 sup dem) a = Ok (Returns (terms, total)) ->
  (zsum sup < zsum dem ->
     forall j, 0 <= j < len dem -> 0 < cell a (len sup) j ->
       In (0, cell a (len sup) j) terms) /\
  (zsum dem < zsum sup ->
     terms =
     flat_map (fun i =>
       flat_map (fun j => if 0 <? cell a i j
                          then [(py_int (at_ 0%Q (at_ [] cost0 i) j), cell a i j)]
                          else [])
                (range (len dem)))
       (range (len sup))).
Proof.
  intros Hin Hsh E.
  rewrite (cost_equation_eval _ a (proj1 (new_problem _ _ _ Hin)) Hsh) in E.
  injection E as E. apply evaluation_returns in E. destruct E as [-> _].
  now apply equation_terms_dummy.
Qed.

Lemma dummy_terms_witness :
  valid_input [[4%Q]] [1] [3] /\ shaped (new [[4%Q]] [1] [3]) [[1]; [2]] /\
  _print_cost_equation (new [[4%Q]] [1] [3]) [[1]; [2]]
  = Ok (Returns ([(4, 1); (0, 2)], Finite 4)) /\
  In (0, 2) [(4, 1); (0, 2)].
Proof.
  assert (Hin : valid_input [[4%Q]] [1] [3]).
  { unfold valid_input, nonneg.
    repeat split; try (vm_compute; congruence);
      repeat constructor; vm_compute; congruence. }
  assert (Hsh : shaped (new [[4%Q]] [1] [3]) [[1]; [2]]).
  { unfold shaped. split; [vm_compute; reflexivity|]. repeat constructor. }
  assert (E : _print_cost_equation (new [[4%Q]] [1] [3]) [[1]; [2]]
              = Ok (Returns ([(4, 1); (0, 2)], Finite 4)))
    by (vm_compute; reflexivity).
  split; [exact Hin|]. split; [exact Hsh|]. split; [exact E|].
  exact (proj1 (dummy_terms [[4%Q]] [1] [3] [[1]; [2]] _ _ Hin Hsh E)
           ltac:(vm_compute; reflexivity) 0
           ltac:(vm_compute; split; congruence)
           ltac:(vm_compute; reflexivity)).
Defined.

Lemma py_int_nonneg (c : Q) : (0 <= c)%Q -> 0 <= py_int c.
Proof.
  intros Hc. unfold py_int. apply Z.quot_pos; [|lia].
  unfold Qle in Hc. cbn in Hc. lia.
Qed.

Lemma in_equation_terms (p : TransportationSolver) (a : list (list Z))
  (t : Z * Z) :
  In t (equation_terms p a) ->
  exists i j, 0 <= i < m p /\ 0 <= j < n p /\ 0 < cell a i j /\
              t = (py_int (cost p i j), cell a i j).
Proof.
  unfold equation_terms, row_terms. intros H.
  apply in_flat_map in H. destruct H as (i & Hi & H).
  apply in_flat_map in H. destruct H as (j & Hj & H).
  apply range_In in Hi, Hj. unfold printed in H.
  destruct (0 <? cell a i j) eqn:E; cbn [andb] in H; [|contradiction].
  apply Z.ltb_lt in E.
  destruct (negb (is_dummy p j)); [|contradiction].
  destruct H as [<-|[]]. exists i, j. auto.
Qed.

Lemma inject_Z_nonneg (z : Z) : 0 <= z -> (0 <= inject_Z z)%Q.
Proof. intros H. now rewrite <- (Zle_Qle 0). Qed.

Lemma float_of_int_nonneg (z : Z) (x : Q) :
  0 <= z -> float_of_int z = Returns x -> (0 <= x)%Q.
Proof.
  intros Hz. unfold float_of_int.
  pose proof (round64_nonneg _ (inject_Z_nonneg z Hz)) as H.
  destruct (round64 (inject_Z z)) as [q|s]; [|discriminate].
  intros E. injection E as <-. unfold fle, fltb in H.
  now apply Qltb_false in H.
Qed.

Lemma fadd_nonneg (t : float) (x : Q) :
  fle (Finite 0) t -> (0 <= x)%Q -> fle (Finite 0) (fadd t x).
Proof.
  intros Ht Hx. destruct t as [q|s]; cbn [fadd]; [|exact Ht].
  apply round64_nonneg. unfold fle, fltb in Ht. apply Qltb_false in Ht. lra.
Qed.

Lemma add_terms_nonneg (l : list (Z * Z)) :
  Forall (fun t => 0 <= fst t * snd t) l ->
  forall ts tot ts' tot',
    fle (Finite 0) tot ->
    fold_left add_term l (Returns (ts, tot)) = Returns (ts', tot') ->
    fle (Finite 0) tot'.
Proof.
  induction l as [|t l IH]; intros Hl ts tot ts' tot' Htot H;
    cbn [fold_left] in H.
  - now inversion H; subst.
  - inversion Hl as [|? ? Ht Hl']; subst. unfold add_term at 2 in H.
    destruct (float_of_int (fst t * snd t)) as [x|] eqn:E.
    + apply (IH Hl' _ _ _ _ (fadd_nonneg _ _ Htot
                               (float_of_int_nonneg _ _ Ht E)) H).
    + rewrite add_terms_raised in H. discriminate.
Qed.

(** X8. When no unit cost is negative a total that the cost equation
    returns is never negative, whatever the entries of the matrix: a
    negative quantity is passed over, it is not subtracted.  On a matrix
    of the shape of the problem the equation ends without [IndexError],
    and it does return a total when the products of its terms sum to at
    most [2 ^ 53]. *)
Theorem total_never_negative (p : TransportationSolver) (a : list (list Z)) :
  wf p -> shaped p a ->
  (forall i j, 0 <= i < m p -> 0 <= j < n p -> (0 <= cost p i j)%Q) ->
  exists o,
    _print_cost_equation p a = Ok o /\
    (forall terms total,
       o = Returns (terms, total) ->
       exists t, total = Finite t /\ (0 <= t)%Q) /\
    (terms_weight (equation_terms p a) <= 2 ^ 53 ->
     exists terms t, o = Returns (terms, Finite t) /\ (0 <= t)%Q).
Proof.
  intros Hwf Hsh Hcost. exists (evaluation p a).
  split; [now apply cost_equation_eval|].
  assert (Hpos : forall terms total,
            evaluation p a = Returns (terms, total) ->
            exists t, total = Finite t /\ (0 <= t)%Q).
  { intros terms total E. unfold evaluation in E.
    apply int_total_returns in E. destruct E as [E [t ->]].
    exists t. split; [reflexivity|].
    apply add_terms_nonneg in E; [| |apply fle_refl].
    - unfold fle, fltb in E. now apply Qltb_false in E.
    - apply Forall_forall. intros x Hx. apply in_equation_terms in Hx.
      destruct Hx as (i & j & Hi & Hj & Hq & ->). cbn [fst snd].
      pose proof (py_int_nonneg _ (Hcost i j Hi Hj)). nia. }
  split; [exact Hpos|].
  intros Hw. pose proof (evaluation_exact p a Hw) as E.
  destruct (Hpos _ _ E) as (t & Et & Ht).
  exists (equation_terms p a), t. rewrite E, Et. split; [reflexivity|exact Ht].
Qed.

Lemma total_never_negative_witness :
  _print_cost_equation example
    [[-5; 0; 0; 0; 2]; [0; 0; 0; 0; 0]; [0; 3; 0; 0; 0]]
  = Ok (Returns ([(12, 3)], Finite 36)) /\
  exists t, Finite 36 = Finite t /\ (0 <= t)%Q.
Proof.
  assert (E : _print_cost_equation example
                [[-5; 0; 0; 0; 2]; [0; 0; 0; 0; 0]; [0; 3; 0; 0; 0]]
              = Ok (Returns ([(12, 3)], Finite 36)))
    by (vm_compute; reflexivity).
  split; [exact E|].
  destruct (total_never_negative example
              [[-5; 0; 0; 0; 2]; [0; 0; 0; 0; 0]; [0; 3; 0; 0; 0]])
    as (o & Eo & H & _).
  - exact (proj1 example_problem).
  - unfold shaped. split; [vm_compute; reflexivity|]. repeat constructor.
  - intros i j Hi Hj. change (m example) with 3 in Hi.
    change (n example) with 5 in Hj.
    assert (Hc : In (i, j) (list_prod (range 3) (range 5))).
    { apply in_prod; apply range_In; assumption. }
    vm_compute in Hc.
    repeat (destruct Hc as [Hc|Hc];
            [injection Hc as <- <-; vm_compute; discriminate|]).
    contradiction.
  - apply (H [(12, 3)]). rewrite E in Eo. now injection Eo as <-.
Defined.

(** A loop whose state [OverflowError] is final and one of whose
    iterations raises [IndexError] from every other state ends in one of
    the two. *)
Lemma for_each_absorbed {A : Type}
  (body : Z -> outcome A -> res (outcome A)) (l : list Z) :
  (forall i, body i OverflowError = Ok OverflowError) ->
  for_each l body OverflowError = Ok OverflowError.
Proof.
  intros H. induction l as [|i l IH]; cbn [for_each]; [reflexivity|].
  rewrite H. exact IH.
Qed.

Lemma for_each_raises_or {A : Type}
  (body : Z -> outcome A -> res (outcome A)) (l1 l2 : list Z) (k : Z) :
  (forall i st, fuelled (body i st)) ->
  (forall i, body i OverflowError = Ok OverflowError) ->
  (forall v, body k (Returns v) = IndexError) ->
  forall st,
    for_each (l1 ++ k :: l2) body st = IndexError \/
    for_each (l1 ++ k :: l2) body st = Ok OverflowError.
Proof.
  intros Hf Ha Hk. induction l1 as [|i l1 IH]; intros st;
    cbn [for_each app].
  - destruct st as [v|].
    + left. now rewrite Hk.
    + right. rewrite Ha. cbn [bind]. now apply for_each_absorbed.
  - pose proof (Hf i st) as Hi. destruct (body i st) as [st'| |];
      cbn [bind]; [apply IH|now left|now destruct Hi].
Qed.

(** X10. On a matrix with fewer rows than the problem has sources, and
    with at least one destination, [_print_cost_equation] never returns
    a total: it raises [IndexError] when it reaches the missing row,
    unless an [OverflowError] of the rows that are there comes first. *)
Theorem cost_equation_short_matrix (p : TransportationSolver)
  (a : list (list Z)) :
  len a < m p -> 1 <= n p ->
  _print_cost_equation p a = IndexError \/
  _print_cost_equation p a = Ok OverflowError.
Proof.
  intros Hlen Hn. pose proof (len_nonneg a) as H0.
  destruct (range_split (m p) (len a)) as [post [E _]]; [lia|].
  unfold _print_cost_equation. rewrite E.
  match goal with |- bind (for_each _ ?body ?st0) _ = _ \/ _ =>
    assert (Hor : for_each (range (len a) ++ len a :: post) body st0
                  = IndexError \/
                  for_each (range (len a) ++ len a :: post) body st0
                  = Ok OverflowError)
  end.
  { apply for_each_raises_or.
    - intros i st. apply for_each_fuelled.
      intros j [v|]; [|apply Ok_fuelled].
      apply bind_fuelled; [apply getitem_fuelled|]. intros row.
      apply bind_fuelled; [apply getitem_fuelled|]. intros q.
      destruct ((0 <? q) && negb (is_dummy p j)); [|apply Ok_fuelled].
      apply bind_fuelled; [apply cost_at_fuelled|]. intros c.
      apply Ok_fuelled.
    - intros i. apply for_each_absorbed. reflexivity.
    - intros v. destruct (range_split (n p) 0) as [post' [E' _]]; [lia|].
      rewrite E'. change (range 0) with (@nil Z). cbn [app for_each].
      rewrite getitem_beyond by lia. reflexivity. }
  destruct Hor as [H|H]; rewrite H; [now left|now right].
Qed.

Lemma cost_equation_short_matrix_witness :
  _print_cost_equation example [[1; 0; 0; 0; 2]; [0; 0; 0; 0; 0]]
  = IndexError /\
  _print_cost_equation example [[10 ^ 309; 0; 0; 0; 2]; [0; 0; 0; 0; 0]]
  = Ok OverflowError.
Proof.
  split.
  - destruct (cost_equation_short_matrix example
                [[1; 0; 0; 0; 2]; [0; 0; 0; 0; 0]]) as [H|H];
      [vm_compute; reflexivity|vm_compute; congruence|exact H|].
    vm_compute in H. discriminate.
  - destruct (cost_equation_short_matrix example
                [[10 ^ 309; 0; 0; 0; 2]; [0; 0; 0; 0; 0]]) as [H|H];
      [vm_compute; reflexivity|vm_compute; congruence| |exact H].
    vm_compute in H. discriminate.
Defined.

(** ** The total of a solve *)

Lemma terms_sum_app (l1 l2 : list (Z * Z)) :
  terms_sum (l1 ++ l2) = terms_sum l1 + terms_sum l2.
Proof. unfold terms_sum. now rewrite map_app, zsum_app. Qed.

Lemma terms_weight_app (l1 l2 : list (Z * Z)) :
  terms_weight (l1 ++ l2) = terms_weight l1 + terms_weight l2.
Proof. unfold terms_weight. now rewrite map_app, zsum_app. Qed.

Lemma terms_sum_row (p : TransportationSolver) (a : list (list Z)) (i : Z)
  (cols : list Z) :
  terms_sum (row_terms p a i cols) = zsum (map (cost_term p a i) cols).
Proof.
  induction cols as [|j cols IH]; [reflexivity|].
  unfold row_terms in *. cbn [flat_map map].
  rewrite terms_sum_app, zsum_cons, IH. f_equal.
  unfold cost_term, printed.
  destruct ((0 <? cell a i j) && negb (is_dummy p j)); [|reflexivity].
  unfold terms_sum. cbn. lia.
Qed.

Lemma terms_sum_reported (p : TransportationSolver) (a : list (list Z)) :
  terms_sum (equation_terms p a) = reported_total p a.
Proof.
  unfold equation_terms, reported_total.
  induction (range (m p)) as [|i l IH]; [reflexivity|].
  cbn [flat_map map]. rewrite terms_sum_app, zsum_cons, IH.
  now rewrite terms_sum_row.
Qed.

Lemma zsum_map_le (f g : Z -> Z) (l : list Z) :
  (forall x, In x l -> f x <= g x) -> zsum (map f l) <= zsum (map g l).
Proof.
  induction l as [|h t IH]; intros H; [cbn; lia|].
  cbn [map]. rewrite !zsum_cons.
  pose proof (H h (or_introl eq_refl)).
  assert (zsum (map f t) <= zsum (map g t))
    by (apply IH; intros x Hx; apply H; now right).
  lia.
Qed.

Lemma zsum_map_scale (c : Z) (f : Z -> Z) (l : list Z) :
  zsum (map (fun x => c * f x) l) = c * zsum (map f l).
Proof.
  induction l as [|h t IH]; [cbn; lia|].
  cbn [map]. rewrite !zsum_cons, IH. lia.
Qed.

Lemma map_at_range (l : list Z) : map (at_ 0 l) (range (len l)) = l.
Proof.
  pose proof (len_nonneg l) as H0.
  apply (list_ext_at 0).
  - now rewrite len_map, range_len.
  - rewrite len_map, range_len by lia. intros i Hi.
    rewrite (at_map _ 0 0) by (rewrite range_len; lia).
    now rewrite range_at.
Qed.

Lemma terms_weight_row (p : TransportationSolver) (a : list (list Z))
  (i cmax : Z) (cols : list Z) :
  0 <= cmax ->
  (forall j, In j cols ->
             0 <= cell a i j /\ Z.abs (py_int (cost p i j)) <= cmax) ->
  terms_weight (row_terms p a i cols)
  <= zsum (map (fun j => cmax * cell a i j) cols).
Proof.
  intros Hc. induction cols as [|j cols IH]; intros H; [cbn; lia|].
  unfold row_terms in *. cbn [flat_map map].
  rewrite terms_weight_app, zsum_cons.
  destruct (H j (or_introl eq_refl)) as [Hq Hcost].
  assert (terms_weight
            (flat_map (fun j => if printed p a i j
                                then [(py_int (cost p i j), cell a i j)]
                                else []) cols)
          <= zsum (map (fun j => cmax * cell a i j) cols))
    by (apply IH; intros x Hx; apply H; now right).
  assert (terms_weight (if printed p a i j
                        then [(py_int (cost p i j), cell a i j)] else [])
          <= cmax * cell a i j).
  { destruct (printed p a i j).
    - unfold terms_weight. cbn [map fst snd].
      rewrite zsum_cons, zsum_nil, Z.abs_mul. nia.
    - unfold terms_weight. cbn. nia. }
  lia.
Qed.

(** The weight of the terms of a feasible matrix is at most the greatest
    unit cost times the quantity shipped. *)
Lemma terms_weight_feasible (p : TransportationSolver) (a : list (list Z))
  (cmax : Z) :
  wf p -> shaped p a -> Forall nonneg a -> feasible p a ->
  costs_within p cmax ->
  terms_weight (equation_terms p a) <= cmax * zsum (supply p).
Proof.
  intros Hwf [Hla Hrows] Hnn (Hrow & _) Hcost.
  pose proof Hwf as (Hm & Hn & Hls & _).
  assert (Hc : 0 <= cmax).
  { pose proof (Hcost 0 0 ltac:(lia) ltac:(lia)).
    pose proof (Z.abs_nonneg (py_int (cost p 0 0))). lia. }
  assert (Hrowle : forall i, 0 <= i < m p ->
            terms_weight (row_terms p a i (range (n p)))
            <= cmax * at_ 0 (supply p) i).
  { intros i Hi.
    rewrite <- (Hrow i Hi). unfold rowsum.
    assert (Hlen : len (at_ [] a i) = n p)
      by (apply (proj1 (Forall_at [] _ _) Hrows); lia).
    rewrite <- (map_at_range (at_ [] a i)) at 1. rewrite Hlen.
    rewrite <- zsum_map_scale. apply terms_weight_row; [exact Hc|].
    intros j Hj. apply range_In in Hj. split.
    - now apply (cell_nonneg a (m p) (n p)).
    - now apply Hcost. }
  rewrite <- (map_at_range (supply p)) at 1. rewrite Hls.
  rewrite <- zsum_map_scale. unfold equation_terms.
  assert (Hall : forall l, (forall i, In i l -> 0 <= i < m p) ->
            terms_weight (flat_map (fun i => row_terms p a i (range (n p))) l)
            <= zsum (map (fun i => cmax * at_ 0 (supply p) i) l)).
  { induction l as [|i l IH]; intros Hl; [cbn; lia|].
    cbn [flat_map map]. rewrite terms_weight_app, zsum_cons.
    pose proof (Hrowle i (Hl i (or_introl eq_refl))).
    assert (terms_weight
              (flat_map (fun i => row_terms p a i (range (n p))) l)
            <= zsum (map (fun i => cmax * at_ 0 (supply p) i) l))
      by (apply IH; intros x Hx; apply Hl; now right).
    lia. }
  apply Hall. intros i Hi. now apply range_In.
Qed.

(** When the greatest unit cost times the quantity shipped is at most
    [2 ^ 53] the float total of a solve is exact. *)
Lemma solved_exact (p : TransportationSolver) (sol : solution) (cmax : Z) :
  problem p -> solved p sol ->
  costs_within p cmax -> cmax * zsum (supply p) <= 2 ^ 53 ->
  exact_total p sol (reported_total p (final_alloc sol)).
Proof.
  intros Hp Hsol Hcost Hb. pose proof (proj1 Hp) as Hwf.
  pose proof (solved_sound p sol Hp Hsol) as Hs.
  pose proof (solved_feasible p sol Hp Hsol) as Hfeas.
  destruct Hsol as (_ & (sv & dv & Hf & _) & Heq). rewrite Hf in Hs.
  pose proof (sound_shaped p _ Hs) as Hsh.
  pose proof (snd_a_nonneg p _ Hs) as Hnn. cbn [fst] in Hsh, Hnn.
  pose proof (terms_weight_feasible p _ cmax Hwf Hsh Hnn Hfeas Hcost) as Hw.
  unfold exact_total. rewrite Heq, evaluation_exact by lia.
  now rewrite terms_sum_reported.
Qed.

Lemma solved_total_real (cost0 : list (list Q)) (sup dem : list Z)
  (sol : solution) :
  valid_input cost0 sup dem -> solved (new cost0 sup dem) sol ->
  reported_total (new cost0 sup dem) (final_alloc sol)
  = real_cost cost0 sup dem (final_alloc sol).
Proof.
  intros Hin Hsol. pose proof (new_problem _ _ _ Hin) as Hp.
  pose proof (solved_sound _ sol Hp Hsol) as Hs.
  destruct Hsol as (_ & (sv & dv & Hf & _) & _). rewrite Hf in Hs.
  apply reported_total_real; [exact Hin| |].
  - apply (sound_shaped _ _ Hs).
  - apply (snd_a_nonneg _ _ Hs).
Qed.

(** X4. For a problem built by the constructor from valid input, when
    the greatest truncated unit cost times the balanced total supply is
    at most [2 ^ 53], the cost equation of each method ends without an
    exception, lists the terms of the final allocation, and its float
    total is exactly the sum, over the cells of the original matrix
    only, of the truncated unit cost times the final allocation: no cell
    of a dummy row or column adds to it. *)
Theorem solve_totals (cost0 : list (list Q)) (sup dem : list Z) (cmax : Z) :
  valid_input cost0 sup dem ->
  costs_within (new cost0 sup dem) cmax ->
  cmax * zsum (supply (new cost0 sup dem)) <= 2 ^ 53 ->
  exists nwc lcm vam,
    (forall fuel, enough (new cost0 sup dem) fuel ->
       solve_nwc fuel (new cost0 sup dem) = Ok nwc /\
       solve_least_cost fuel (new cost0 sup dem) = Ok lcm /\
       solve_vam fuel (new cost0 sup dem) = Ok vam) /\
    exact_total (new cost0 sup dem) nwc
      (real_cost cost0 sup dem (final_alloc nwc)) /\
    exact_total (new cost0 sup dem) lcm
      (real_cost cost0 sup dem (final_alloc lcm)) /\
    exact_total (new cost0 sup dem) vam
      (real_cost cost0 sup dem (final_alloc vam)).
Proof.
  intros Hin Hcost Hb. pose proof (new_problem _ _ _ Hin) as Hp.
  three_results (new cost0 sup dem) Hp.
  split; [|split];
    (rewrite <- solved_total_real by assumption;
     now apply (solved_exact _ _ cmax)).
Qed.

Lemma example_costs_within : costs_within example 52.
Proof.
  intros i j Hi Hj. change (m example) with 3 in Hi.
  change (n example) with 5 in Hj.
  assert (Hc : In (i, j) (list_prod (range 3) (range 5))).
  { apply in_prod; apply range_In; assumption. }
  vm_compute in Hc.
  repeat (destruct Hc as [Hc|Hc];
          [injection Hc as <- <-; vm_compute; discriminate|]).
  contradiction.
Defined.

Lemma solve_totals_witness :
  valid_input example_cost example_supply example_demand /\
  costs_within example 52 /\
  52 * zsum (supply example) <= 2 ^ 53 /\
  exists nwc lcm vam,
    (forall fuel, enough example fuel ->
       solve_nwc fuel example = Ok nwc /\
       solve_least_cost fuel example = Ok lcm /\
       solve_vam fuel example = Ok vam) /\
    exact_total example nwc
      (real_cost example_cost example_supply example_demand
         (final_alloc nwc)) /\
    exact_total example lcm
      (real_cost example_cost example_supply example_demand
         (final_alloc lcm)) /\
    exact_total example vam
      (real_cost example_cost example_supply example_demand
         (final_alloc vam)).
Proof.
  assert (Hb : 52 * zsum (supply example) <= 2 ^ 53)
    by (vm_compute; discriminate).
  split; [exact example_input|]. split; [exact example_costs_within|].
  split; [exact Hb|].
  exact (solve_totals example_cost example_supply example_demand 52
           example_input example_costs_within Hb).
Defined.

(** ** The total as a sum over the steps *)

(** A sum over a range changes by the change of the one term that
    differs. *)
Lemma zsum_range_change (f g : Z -> Z) (k i : Z) :
  0 <= i < k ->
  (forall x, 0 <= x < k -> x <> i -> g x = f x) ->
  zsum (map g (range k)) = zsum (map f (range k)) + (g i - f i).
Proof.
  intros Hi H. destruct (range_split k i Hi) as [post [E Hpost]].
  pose proof (range_In k) as Hin. rewrite E in *.
  rewrite !map_app, !zsum_app. cbn [map]. rewrite !zsum_cons.
  rewrite (zsum_map_ext g f (range i)).
  - rewrite (zsum_map_ext g f post); [lia|].
    intros x Hx. apply H.
    + apply Hin. apply in_or_app. right. now right.
    + apply Hpost in Hx. lia.
  - intros x Hx. apply H.
    + apply Hin. apply in_or_app. now left.
    + apply range_In in Hx. lia.
Qed.

Lemma reported_total_start (p : TransportationSolver) :
  wf p -> reported_total p (alloc (start p)) = 0.
Proof.
  intros (Hm & Hn & _). unfold reported_total.
  apply zsum_all_zero. apply Forall_map_range. intros i Hi.
  apply zsum_all_zero. apply Forall_map_range. intros j Hj.
  unfold cost_term, cell, start. cbn [alloc].
  rewrite (at_map _ 0 []) by (rewrite range_len; lia).
  rewrite at_times by lia. reflexivity.
Qed.

Lemma reported_total_step (p : TransportationSolver) (prev : snapshot)
  (r : step_record) :
  sound p prev -> allocation_step p prev r ->
  reported_total p (step_alloc r)
  = reported_total p (fst (fst prev)) + step_term p r.
Proof.
  intros Hs Hr. pose proof (snd_len_a p _ Hs) as Hla.
  pose proof (snd_rows p _ Hs) as Hrows.
  destruct prev as [[a sv] dv]. cbn [fst snd] in *.
  destruct Hr as (Hi & Hj & Hfresh & _ & Ha & _).
  set (i := step_i r) in *. set (j := step_j r) in *.
  assert (Hrow : len (at_ [] a i) = n p).
  { apply (proj1 (Forall_at [] _ _) Hrows). lia. }
  assert (Hterm : cost_term p (step_alloc r) i j = step_term p r).
  { unfold cost_term, step_term. fold i j. rewrite Ha.
    rewrite cell_upd2_same by lia. reflexivity. }
  assert (Hold : cost_term p a i j = 0).
  { unfold cost_term. rewrite Hfresh. reflexivity. }
  assert (Hother : forall i' j', 0 <= i' -> 0 <= j' -> (i', j') <> (i, j) ->
            cost_term p (step_alloc r) i' j' = cost_term p a i' j').
  { intros i' j' Hi' Hj' Hne. unfold cost_term. rewrite Ha.
    rewrite cell_upd2_other by (auto; lia). reflexivity. }
  unfold reported_total.
  rewrite (zsum_range_change
             (fun i' => zsum (map (cost_term p a i') (range (n p))))
             (fun i' => zsum (map (cost_term p (step_alloc r) i')
                                  (range (n p)))) (m p) i Hi).
  - rewrite (zsum_range_change (cost_term p a i)
               (cost_term p (step_alloc r) i) (n p) j Hj).
    + lia.
    + intros j' Hj' Hne. apply Hother; try lia. intros E. inversion E. lia.
  - intros i' Hi' Hne. apply zsum_map_ext. intros j' Hj'.
    apply range_In in Hj'. apply Hother; try lia.
    intros E. inversion E. lia.
Qed.

Lemma chain_reported_total (p : TransportationSolver) (l : list step_record) :
  forall prev,
    sound p prev -> chain (allocation_step p) prev l ->
    reported_total p (fst (fst (final prev l)))
    = reported_total p (fst (fst prev)) + zsum (map (step_term p) l).
Proof.
  induction l as [|r l IH]; intros prev Hs Hc.
  - cbn. lia.
  - destruct Hc as [Hr Hc]. rewrite final_cons.
    rewrite (IH (after r) (step_sound p prev r Hs Hr) Hc).
    cbn [map after fst]. rewrite zsum_cons.
    rewrite (reported_total_step p prev r Hs Hr). lia.
Qed.

Lemma solved_total_steps (p : TransportationSolver) (sol : solution) :
  problem p -> solved p sol ->
  reported_total p (final_alloc sol) = zsum (map (step_term p) (steps sol)).
Proof.
  intros Hp (Hc & (sv & dv & Hf & _) & _).
  pose proof (chain_reported_total p _ _ (start_sound p Hp) Hc) as H.
  rewrite Hf in H. cbn [fst snd snap0] in H.
  rewrite reported_total_start in H by exact (proj1 Hp). lia.
Qed.

(** X19. When the greatest truncated unit cost times the total supply is
    at most [2 ^ 53], the cost equation of each method ends without an
    exception and its float total is exactly the sum of what the steps
    cost: for every printed step the truncated unit cost of its cell
    times the quantity allocated, the steps into the dummy destination
    counting for nothing. *)
Theorem total_of_steps (p : TransportationSolver) (cmax : Z) :
  problem p ->
  costs_within p cmax ->
  cmax * zsum (supply p) <= 2 ^ 53 ->
  exists nwc lcm vam,
    (forall fuel, enough p fuel ->
       solve_nwc fuel p = Ok nwc /\
       solve_least_cost fuel p = Ok lcm /\
       solve_vam fuel p = Ok vam) /\
    exact_total p nwc (zsum (map (step_term p) (steps nwc))) /\
    exact_total p lcm (zsum (map (step_term p) (steps lcm))) /\
    exact_total p vam (zsum (map (step_term p) (steps vam))).
Proof.
  intros Hp Hcost Hb. three_results p Hp.
  split; [|split];
    (rewrite <- solved_total_steps by assumption;
     now apply (solved_exact _ _ cmax)).
Qed.

Lemma total_of_steps_witness :
  problem example /\
  costs_within example 52 /\
  52 * zsum (supply example) <= 2 ^ 53 /\
  exists nwc lcm vam,
    (forall fuel, enough example fuel ->
       solve_nwc fuel example = Ok nwc /\
       solve_least_cost fuel example = Ok lcm /\
       solve_vam fuel example = Ok vam) /\
    exact_total example nwc (zsum (map (step_term example) (steps nwc))) /\
    exact_total example lcm (zsum (map (step_term example) (steps lcm))) /\
    exact_total example vam (zsum (map (step_term example) (steps vam))).
Proof.
  assert (Hb : 52 * zsum (supply example) <= 2 ^ 53)
    by (vm_compute; discriminate).
  split; [exact example_problem|]. split; [exact example_costs_within|].
  split; [exact Hb|].
  exact (total_of_steps example 52 example_problem example_costs_within Hb).
Defined.
